(** * Token lifecycle of the nest-boilerplate backend

    A shallow embedding of the authentication token lifecycle:
    - [Float64]: JavaScript numbers, as IEEE 754 doubles with their rounding;
    - [TimeUtil]: the four duration parsers of [common/utils/time.util.ts];
    - [Redis]: the key-value store the services talk to (strings and sets
      with a time-to-live), with scheduled command failures and a command log;
    - [TokenService]: [modules/auth/services/token.service.ts];
    - [AuthService] and [JwtStrategy]: [modules/auth/auth.service.ts] and
      [modules/auth/strategies/jwt.strategy.ts];
    - [AuthController], [ConfigUtils] with [JwtConfig], and [BaseService]:
      the bearer-header reader of [modules/auth/auth.controller.ts],
      [common/utils/config-utils.ts] with [config/jwt.config.ts], and the
      pagination of [common/services/base.service.ts].

    Conventions.  The numbers the duration parsers compute are doubles
    ([Float64.double]); clock readings, expiry claims, time-to-live
    arguments and counts, which the source keeps integral, are in [Z].
    Strings are the UTF-8 bytes of the JavaScript text.  Instants are kept in
    milliseconds since the epoch (the source holds seconds as the fraction
    ms/1000, which orders the same way).  The clock does not move while one
    service call runs, and a day added to an instant is 86400 seconds (the
    process runs in UTC); the clock may move between calls.  A promise is a
    computation in the monad [M] below: it threads the world and either
    returns or throws.  A store command fails when the failure schedule of
    the world says so; what is proved of a call says which commands it needs
    answered. *)

From Stdlib Require Import ZArith QArith Qround Lia Ascii.
From stdpp Require Import base option strings pretty list gmap.

Local Open Scope Z_scope.

(* ===================================================================== *)
(** ** JavaScript numbers *)
(* ===================================================================== *)

(** A JavaScript number is an IEEE 754 binary64 value: NaN, an infinity, or
    a finite dyadic rational, kept here as a rational in lowest terms.  The
    two zeros are not told apart.  Every arithmetic result is the exact
    result rounded to the nearest double, ties to the even significand. *)
Module Float64.

Inductive double :=
  | NaN
  | Infinity (negative : bool)
  | Finite (q : Q).

(** The double that holds the integer [z] (exact up to 2^53 in magnitude). *)
Definition Int (z : Z) : double := Finite (inject_Z z).

(** 2^e for a positive e, and 1 otherwise. *)
Definition pow2 (e : Z) : Z := 2 ^ Z.max e 0.

(** floor (log2 (n / d)), for positive n and d. *)
Definition ilog2 (n d : Z) : Z :=
  let k := Z.log2 n - Z.log2 d in
  if d * pow2 k <=? n * pow2 (- k) then k else k - 1.

(** n / d rounded to the nearest integer, a tie going to the even one. *)
Definition nearest_even (n d : Z) : Z :=
  let f := n / d in
  match 2 * (n mod d) ?= d with
  | Lt => f
  | Gt => f + 1
  | Eq => if Z.even f then f else f + 1
  end.

(** The double nearest to n / d > 0, as m * 2^e with a significand m of at
    most 53 bits and e >= -1074 (below 2^-1022 the doubles are evenly
    spaced); [None] when the rounded value reaches 2^1024. *)
Definition round_pos (n d : Z) : option Q :=
  let e := Z.max (ilog2 n d - 52) (-1074) in
  let m := nearest_even (n * pow2 (- e)) (d * pow2 e) in
  if 1024 <=? Z.log2 m + e then None
  else Some (Qred (m * pow2 e # Z.to_pos (pow2 (- e)))).

(** The double nearest to the rational [q]. *)
Definition binary64 (q : Q) : double :=
  let r := Qred q in
  match Qnum r with
  | Z0 => Finite 0
  | Zpos n =>
      match round_pos (Zpos n) (Zpos (Qden r)) with
      | Some v => Finite v
      | None => Infinity false
      end
  | Zneg n =>
      match round_pos (Zpos n) (Zpos (Qden r)) with
      | Some v => Finite (- v)
      | None => Infinity true
      end
  end.

Definition is_zero (q : Q) : bool := Qnum q =? 0.
Definition is_negative (q : Q) : bool := Qnum q <? 0.

(** [a * b] *)
Definition mul (a b : double) : double :=
  match a, b with
  | NaN, _ | _, NaN => NaN
  | Infinity s, Infinity s' => Infinity (xorb s s')
  | Infinity s, Finite q | Finite q, Infinity s =>
      if is_zero q then NaN else Infinity (xorb s (is_negative q))
  | Finite p, Finite q => binary64 (p * q)
  end.

(** [a / b] *)
Definition div (a b : double) : double :=
  match a, b with
  | NaN, _ | _, NaN => NaN
  | Infinity _, Infinity _ => NaN
  | Infinity s, Finite q => Infinity (xorb s (is_negative q))
  | Finite _, Infinity _ => Finite 0
  | Finite p, Finite q =>
      if is_zero q
      then if is_zero p then NaN else Infinity (is_negative p)
      else binary64 (p / q)
  end.

Definition isNaN (a : double) : bool :=
  match a with
  | NaN => true
  | _ => false
  end.

(** The integer a decimal reader finds in [String(a)]: a number that holds
    an integer below 10^21 in magnitude prints as its decimal digits; any
    other prints with a fraction, an exponent or as a word. *)
Definition decimal_integer (a : double) : option Z :=
  match a with
  | Finite q =>
      if (Pos.eqb (Qden q) 1 && (Z.abs (Qnum q) <? 10 ^ 21))%bool
      then Some (Qnum q) else None
  | _ => None
  end.

End Float64.

(* ===================================================================== *)
(** ** JavaScript strings *)
(* ===================================================================== *)

(** Strings are the UTF-8 bytes of the JavaScript text. *)
Module JSString.

(** [value.length]: the UTF-16 code units of the text whose UTF-8 bytes are
    [s], one for a character of up to three bytes and two for a character of
    four (a continuation byte counts for nothing). *)
Fixpoint utf16_length (s : string) : nat :=
  match s with
  | String c s' =>
      let b := N_of_ascii c in
      ((if ((b <? 128) || (192 <=? b) && (b <? 240))%N then 1
        else if (240 <=? b)%N then 2 else 0)
       + utf16_length s')%nat
  | EmptyString => 0%nat
  end.

End JSString.

(* ===================================================================== *)
(** ** common/utils/time.util.ts *)
(* ===================================================================== *)

Module TimeUtil.
Import Float64.

(** [\d]: an ASCII decimal digit. *)
Definition is_digit (c : ascii) : bool :=
  let n := N_of_ascii c in ((48 <=? n) && (n <=? 57))%N.

Definition digit_value (c : ascii) : Z := Z.of_N (N_of_ascii c) - 48.

(** [[smhd]]: the unit class of the pattern. *)
Definition is_unit (c : ascii) : bool :=
  match c with
  | "s" | "m" | "h" | "d" => true
  | _ => false
  end%char.

(** The longest run of digits at the head of [s], and what follows it. *)
Fixpoint take_digits (s : string) : string * string :=
  match s with
  | String c s' =>
      if is_digit c
      then let '(ds, rest) := take_digits s' in (String c ds, rest)
      else (EmptyString, s)
  | EmptyString => (EmptyString, EmptyString)
  end.

(** [/(\d+)([smhd])/] tried at the head of [s]: [\d+] is greedy, and giving a
    digit back leaves a digit where the unit is wanted, so the only candidate
    is the whole run. *)
Definition match_here (s : string) : option (string * ascii) :=
  match take_digits s with
  | (String d ds, String u _) =>
      if is_unit u then Some (String d ds, u) else None
  | _ => None
  end.

(** [value.match(/(\d+)([smhd])/)]: the pattern is not anchored, the leftmost
    position that matches wins.  The result is (match[1], match[2]). *)
Fixpoint regex_match (s : string) : option (string * ascii) :=
  match match_here s with
  | Some r => Some r
  | None =>
      match s with
      | String _ s' => regex_match s'
      | EmptyString => None
      end
  end.

(** [s] without the white-space character at its head, if it has one
    (StrWhiteSpaceChar: tab, line feed, vertical tab, form feed, carriage
    return, space, U+00A0, U+1680, U+2000 to U+200A, U+2028, U+2029, U+202F,
    U+205F, U+3000 and U+FEFF). *)
Definition drop_space (s : string) : option string :=
  match s with
  | String c1 r1 =>
      match N_of_ascii c1 with
      | 9 | 10 | 11 | 12 | 13 | 32 => Some r1
      | b1 =>
          match r1 with
          | String c2 r2 =>
              let b2 := N_of_ascii c2 in
              if ((b1 =? 194) && (b2 =? 160))%N then Some r2
              else
                match r2 with
                | String c3 r3 =>
                    let b3 := N_of_ascii c3 in
                    if ((b1 =? 225) && (b2 =? 154) && (b3 =? 128)
                        || (b1 =? 226) && (b2 =? 128)
                           && ((128 <=? b3) && (b3 <=? 138) || (b3 =? 168)
                               || (b3 =? 169) || (b3 =? 175))
                        || (b1 =? 226) && (b2 =? 129) && (b3 =? 159)
                        || (b1 =? 227) && (b2 =? 128) && (b3 =? 128)
                        || (b1 =? 239) && (b2 =? 187) && (b3 =? 191))%N
                    then Some r3 else None
                | EmptyString => None
                end
          | EmptyString => None
          end
      end%N
  | EmptyString => None
  end.

(** [s] without its leading white space; [fuel] bounds the characters
    dropped, the length of [s] being enough. *)
Fixpoint skip_space_fuel (fuel : nat) (s : string) : string :=
  match fuel with
  | O => s
  | S fuel' =>
      match drop_space s with
      | Some rest => skip_space_fuel fuel' rest
      | None => s
      end
  end.

Definition skip_space (s : string) : string := skip_space_fuel (String.length s) s.

(** Radix-10 value of a digit string, most significant digit first. *)
Fixpoint digits_to_Z (acc : Z) (s : string) : Z :=
  match s with
  | String c s' => digits_to_Z (acc * 10 + digit_value c) s'
  | EmptyString => acc
  end.

(** [parseInt(s, 10)]: leading white space, an optional sign, then the
    longest digit prefix, whose value is rounded to a double (an engine may
    round a number of more than 20 significant digits twice; nothing below
    depends on such a number). *)
Definition parseInt (s : string) : double :=
  let s1 := skip_space s in
  let '(neg, s2) :=
    match s1 with
    | String "-" r => (true, r)
    | String "+" r => (false, r)
    | _ => (false, s1)
    end%char in
  match fst (take_digits s2) with
  | EmptyString => NaN
  | ds => binary64 (inject_Z (if neg : bool then - digits_to_Z 0 ds else digits_to_Z 0 ds))
  end.

Definition parseExpiresToSeconds (value : string) : double :=
  match regex_match value with
  | None =>
      (* If no unit, assume it's already in seconds *)
      parseInt value
  | Some (m1, unit) =>
      let amount := parseInt m1 in
      match unit with
      | "s" => amount
      | "m" => mul amount (Int 60)
      | "h" => mul amount (Int 3600)
      | "d" => mul amount (Int 86400)
      | _ => amount
      end%char
  end.

Definition parseExpiresToDays (value : string) (defaultValue : double) : double :=
  match regex_match value with
  | None =>
      (* If no unit, assume it's in seconds and convert to days *)
      let seconds := parseInt value in
      if isNaN seconds then defaultValue else div seconds (Int 86400)
  | Some (m1, unit) =>
      let amount := parseInt m1 in
      match unit with
      | "s" => div amount (Int 86400)
      | "m" => div amount (Int 1440)
      | "h" => div amount (Int 24)
      | "d" => amount
      | _ => defaultValue
      end%char
  end.

Definition parseExpiresToMinutes (value : string) : double :=
  match regex_match value with
  | None =>
      (* If no unit, assume it's in seconds and convert to minutes *)
      div (parseInt value) (Int 60)
  | Some (m1, unit) =>
      let amount := parseInt m1 in
      match unit with
      | "s" => div amount (Int 60)
      | "m" => amount
      | "h" => mul amount (Int 60)
      | "d" => mul amount (Int 1440)
      | _ => amount
      end%char
  end.

Definition parseExpiresToHours (value : string) : double :=
  match regex_match value with
  | None =>
      (* If no unit, assume it's in seconds and convert to hours *)
      div (parseInt value) (Int 3600)
  | Some (m1, unit) =>
      let amount := parseInt m1 in
      match unit with
      | "s" => div amount (Int 3600)
      | "m" => div amount (Int 60)
      | "h" => amount
      | "d" => mul amount (Int 24)
      | _ => amount
      end%char
  end.

End TimeUtil.


(* ===================================================================== *)
(** ** Data model *)
(* ===================================================================== *)

(** [common/decorators/roles.decorator.ts] *)
Inductive AppRole := ADMIN | MANAGER | USER.

(** [interface RefreshTokenData]; the two instants are in milliseconds. *)
Record RefreshTokenData := mkRefreshTokenData {
  userId : Z;
  role : AppRole;
  expiresAt : Z;
  createdAt : Z;
  ipAddress : option string;
  userAgent : option string;
}.

(** The [options] argument of the issuing calls. *)
Record RequestMeta := mkRequestMeta {
  meta_ipAddress : option string;
  meta_userAgent : option string;
}.

(** The columns of [User] that the token lifecycle reads. *)
Record User := mkUser {
  user_id : Z;
  user_email : string;
  user_role : AppRole;
}.

(** [ErrorMessages.AUTH] and [ErrorMessages.ERRORS] *)
Module ErrorMessages.
Definition INVALID_REFRESH_TOKEN : string := "auth.invalid_refresh_token".
Definition USER_NOT_FOUND : string := "auth.user_not_found".
Definition TOKEN_MISSING : string := "auth.token_missing".
Definition TOKEN_REVOKED : string := "auth.token_revoked".
Definition NOT_FOUND_WITH_ID : string := "errors.not_found_with_id".
End ErrorMessages.

(** What a call can throw. *)
Inductive exn :=
| ReplyError (msg : string)            (* the store client rejects a command *)
| SyntaxError                          (* JSON.parse *)
| JwtError (msg : string)              (* jsonwebtoken refuses options or token *)
| InvalidArgumentError (msg : string)  (* luxon refuses a duration *)
| UnauthorizedException (msg : string)
| NotFoundException (msg : string) (id : Z)
| AuthenticationFailed (info : string). (* passport's fail(), raised by the guard *)

(* ===================================================================== *)
(** ** The world: store, clock, failures, command log, entropy, users *)
(* ===================================================================== *)

(** A string value held by the store: the JSON text of a refresh-token
    record (JSON.parse gives back the record that JSON.stringify was given),
    or any other text, on which the model lets JSON.parse throw.  The service
    writes only record texts under its [refresh:] keys. *)
Inductive text :=
| JsonText (d : RefreshTokenData)
| Plain (s : string).

Inductive rvalue :=
| RStr (t : text)
| RSet (members : gset string).

(** A key's value and the instant (ms) at which the store drops it. *)
Record entry := Entry {
  value : rvalue;
  expires : option Z;
}.

Inductive command :=
| GET (key : string)
| SETEX (key : string) (seconds : option Z) (v : text)
| DEL (key : string)
| EXISTS (key : string)
| SADD (key member : string)
| SREM (key member : string)
| SMEMBERS (key : string)
| EXPIRE (key : string) (seconds : option Z).

Record world := World {
  store : gmap string entry;
  clock : Z;                  (* Date.now(), milliseconds *)
  faults : list bool;         (* [true]: the next store command fails *)
  log : list command;         (* commands sent to the store, oldest first *)
  rng : nat -> string;        (* what randomUUID() will return *)
  drawn : nat;                (* how many identifiers were drawn *)
  users : gmap Z User;        (* the users table, by primary key *)
}.

Definition set_store (f : gmap string entry -> gmap string entry) (w : world) : world :=
  World (f (store w)) (clock w) (faults w) (log w) (rng w) (drawn w) (users w).
Definition set_clock (c : Z) (w : world) : world :=
  World (store w) c (faults w) (log w) (rng w) (drawn w) (users w).

(** ** Promises: the state-and-exception monad *)

Inductive outcome (A : Type) :=
| Return (a : A)
| Throw (e : exn).
Arguments Return {A} a.
Arguments Throw {A} e.

Definition M (A : Type) : Type := world -> outcome A * world.

#[global] Instance M_ret : MRet M := λ A a w, (Return a, w).
#[global] Instance M_bind : MBind M := λ A B f m w,
  match m w with
  | (Return a, w') => f a w'
  | (Throw e, w') => (Throw e, w')
  end.

Definition throw {A} (e : exn) : M A := λ w, (Throw e, w).

(** [try { m } catch (error) { h error }] *)
Definition try_catch {A} (m : M A) (h : exn -> M A) : M A := λ w,
  match m w with
  | (Return a, w') => (Return a, w')
  | (Throw e, w') => h e w'
  end.

Definition get_world : M world := λ w, (Return w, w).
Definition modify_store (f : gmap string entry -> gmap string entry) : M unit :=
  λ w, (Return tt, set_store f w).

(** [DateTime.now()] and [Date.now()], in milliseconds. *)
Definition now_ms : M Z := λ w, (Return (clock w), w).

(** [randomUUID()] *)
Definition randomUUID : M string := λ w,
  (Return (rng w (drawn w)),
   World (store w) (clock w) (faults w) (log w) (rng w) (S (drawn w)) (users w)).

(* ===================================================================== *)
(** ** The store client (ioredis commands used by the service) *)
(* ===================================================================== *)

Module Redis.

Definition live (now : Z) (e : entry) : bool :=
  match expires e with
  | None => true
  | Some t => now <? t
  end.

(** The entry the store holds for [k] at instant [now]; a lapsed key is gone. *)
Definition peek (now : Z) (k : string) (db : gmap string entry) : option entry :=
  match db !! k with
  | Some e => if live now e then Some e else None
  | None => None
  end.

Definition WRONGTYPE : exn :=
  ReplyError "WRONGTYPE Operation against a key holding the wrong kind of value".
Definition UNAVAILABLE : exn := ReplyError "Connection is closed.".
Definition INVALID_EXPIRE : exn := ReplyError "ERR invalid expire time".

(** Sending a command: it is logged, and the failure schedule says whether
    the store answers.  An exhausted schedule means no more failures. *)
Definition sent (c : command) (w : world) : world :=
  World (store w) (clock w) (tail (faults w)) (log w ++ [c])
        (rng w) (drawn w) (users w).

Definition send (c : command) : M unit := λ w,
  match faults w with
  | true :: _ => (Throw UNAVAILABLE, sent c w)
  | _ => (Return tt, sent c w)
  end.

Definition get (k : string) : M (option text) :=
  send (GET k);;
  w ← get_world;
  match peek (clock w) k (store w) with
  | None => mret None
  | Some (Entry (RStr t) _) => mret (Some t)
  | Some (Entry (RSet _) _) => throw WRONGTYPE
  end.

(** SETEX rejects a time-to-live that is not a positive integer. *)
Definition setex (k : string) (seconds : option Z) (v : text) : M unit :=
  send (SETEX k seconds v);;
  w ← get_world;
  match seconds with
  | Some ttl =>
      if 0 <? ttl
      then modify_store (insert k (Entry (RStr v) (Some (clock w + ttl * 1000))))
      else throw INVALID_EXPIRE
  | None => throw INVALID_EXPIRE
  end.

Definition del (k : string) : M Z :=
  send (DEL k);;
  w ← get_world;
  match peek (clock w) k (store w) with
  | None => modify_store (delete k);; mret 0
  | Some _ => modify_store (delete k);; mret 1
  end.

Definition exists_ (k : string) : M Z :=
  send (EXISTS k);;
  w ← get_world;
  match peek (clock w) k (store w) with
  | None => mret 0
  | Some _ => mret 1
  end.

Definition sadd (k member : string) : M Z :=
  send (SADD k member);;
  w ← get_world;
  match peek (clock w) k (store w) with
  | None => modify_store (insert k (Entry (RSet {[ member ]}) None));; mret 1
  | Some (Entry (RSet s) ex) =>
      modify_store (insert k (Entry (RSet ({[ member ]} ∪ s)) ex));;
      mret (if decide (member ∈ s) then 0 else 1)
  | Some (Entry (RStr _) _) => throw WRONGTYPE
  end.

(** A set that loses its last member is removed, as Redis does. *)
Definition srem (k member : string) : M Z :=
  send (SREM k member);;
  w ← get_world;
  match peek (clock w) k (store w) with
  | None => mret 0
  | Some (Entry (RSet s) ex) =>
      (if decide (s ∖ {[ member ]} = ∅)
       then modify_store (delete k)
       else modify_store (insert k (Entry (RSet (s ∖ {[ member ]})) ex)));;
      mret (if decide (member ∈ s) then 1 else 0)
  | Some (Entry (RStr _) _) => throw WRONGTYPE
  end.

Definition smembers (k : string) : M (list string) :=
  send (SMEMBERS k);;
  w ← get_world;
  match peek (clock w) k (store w) with
  | None => mret []
  | Some (Entry (RSet s) _) => mret (elements s)
  | Some (Entry (RStr _) _) => throw WRONGTYPE
  end.

(** EXPIRE with a time-to-live that is not positive deletes the key. *)
Definition expire (k : string) (seconds : option Z) : M Z :=
  send (EXPIRE k seconds);;
  w ← get_world;
  match seconds with
  | None => throw (ReplyError "ERR value is not an integer or out of range")
  | Some ttl =>
      match peek (clock w) k (store w) with
      | None => mret 0
      | Some e =>
          (if 0 <? ttl
           then modify_store (insert k (Entry (value e) (Some (clock w + ttl * 1000))))
           else modify_store (delete k));;
          mret 1
      end
  end.

End Redis.

(* ===================================================================== *)
(** ** The token codec: @nestjs/jwt over jsonwebtoken *)
(* ===================================================================== *)

(** The claims of a signed access token; [iat] and [exp] are in seconds. *)
Record JwtClaims := mkJwtClaims {
  sub : Z;
  claim_role : AppRole;
  iat : Z;
  exp : Z;
}.

(** [{ sub, role }], what the service asks the codec to sign. *)
Record TokenPayload := mkTokenPayload {
  payload_sub : Z;
  payload_role : AppRole;
}.

(** What [JwtService.decode] gives for a string: it does not look at the
    signature; it returns null for a string that is not a token, and the
    payload may lack [exp]. *)
Inductive decoded :=
| DecodeThrows
| DecodeNull
| DecodePayload (exp_claim : option Z).

Inductive verified :=
| VerifyError (name : string)          (* JsonWebTokenError, TokenExpiredError *)
| Verified (p : TokenPayload).

(** The cryptographic part of the codec is a collaborator: the serialisation
    and signature of claims, reading a token without checking it, and the
    full check at an instant (seconds). *)
Class JwtCodec := {
  jwt_encode : JwtClaims -> string;
  jwt_decode : string -> decoded;
  jwt_verify : string -> Z -> verified;
}.

(** The time spans of the jsonwebtoken package, which the repository
    configures but does not contain.  Its [expiresIn] option, when a string,
    is read by the ms package: a decimal number, spaces, and an optional unit
    name; no unit means milliseconds. *)
Module Jsonwebtoken.

Definition lower (c : ascii) : ascii :=
  let n := N_of_ascii c in
  if ((65 <=? n) && (n <=? 90))%N then ascii_of_N (n + 32) else c.

Fixpoint lowercase (s : string) : string :=
  match s with
  | String c s' => String (lower c) (lowercase s')
  | EmptyString => EmptyString
  end.

Fixpoint skip_blanks (s : string) : string :=
  match s with
  | String " " s' => skip_blanks s'
  | _ => s
  end.

(** Milliseconds per unit name; the empty name is the default unit. *)
Definition unit_ms (name : string) : option Q :=
  if bool_decide (name ∈ ["years"; "year"; "yrs"; "yr"; "y"]) then Some 31557600000%Q
  else if bool_decide (name ∈ ["weeks"; "week"; "w"]) then Some 604800000%Q
  else if bool_decide (name ∈ ["days"; "day"; "d"]) then Some 86400000%Q
  else if bool_decide (name ∈ ["hours"; "hour"; "hrs"; "hr"; "h"]) then Some 3600000%Q
  else if bool_decide (name ∈ ["minutes"; "minute"; "mins"; "min"; "m"]) then Some 60000%Q
  else if bool_decide (name ∈ ["seconds"; "second"; "secs"; "sec"; "s"]) then Some 1000%Q
  else if bool_decide (name ∈ ["milliseconds"; "millisecond"; "msecs"; "msec"; "ms"; ""])
  then Some 1%Q
  else None.

(** The number of the pattern [-?(?:\d+)?\.?\d+] at the head of [s], and
    the rest of [s]. *)
(** The optional minus sign at the head of [s], and the rest of [s]. *)
Definition strip_minus (s : string) : bool * string :=
  match s with
  | String "-" r => (true, r)
  | _ => (false, s)
  end%char.

Definition ms_number (s : string) : option (Q * string) :=
  let '(neg, s1) := strip_minus s in
  let sign (q : Q) : Q := if neg : bool then (- q)%Q else q in
  let '(ip, r1) := TimeUtil.take_digits s1 in
  match r1 with
  | String "." r2 =>
      let '(fp, r3) := TimeUtil.take_digits r2 in
      match fp with
      | EmptyString => None
      | _ =>
          Some (sign (inject_Z (TimeUtil.digits_to_Z 0 ip)
                      + inject_Z (TimeUtil.digits_to_Z 0 fp)
                        / inject_Z (10 ^ Z.of_nat (String.length fp)))%Q, r3)
      end
  | _ =>
      match ip with
      | EmptyString => None
      | _ => Some (sign (inject_Z (TimeUtil.digits_to_Z 0 ip)), r1)
      end
  end%char.

(** [ms(str)]: milliseconds, or [None] for a string it does not read. *)
Definition ms (str : string) : option Q :=
  if (100 <? JSString.utf16_length str)%nat then None
  else
    '(n, rest) ← ms_number str;
    mult ← unit_ms (lowercase (skip_blanks rest));
    Some (n * mult)%Q.

(** [timespan(time, iat)] for a string [time]: the expiry instant, seconds. *)
Definition timespan (time : string) (iat : Z) : option Z :=
  milliseconds ← ms time;
  Some (Qfloor (inject_Z iat + milliseconds / 1000)%Q).

End Jsonwebtoken.

(** [ConfigService.get<string>(key, defaultValue)] *)
Definition config_get (config : gmap string string) (key dflt : string) : string :=
  default dflt (config !! key).

(** The options [AuthModule] registers the codec with. *)
Record JwtService := mkJwtService {
  secret : string;
  signOptions_expiresIn : string;
}.

Definition AuthModule_jwt (configService : gmap string string) : JwtService :=
  {| secret := config_get configService "jwt.accessSecret" "change_me";
     signOptions_expiresIn := config_get configService "jwt.accessExpiresIn" "3600s" |}.

(** The claims [jsonwebtoken.sign] puts under the signature for [payload] at
    instant [now] (ms): issued now, expiring after the configured span. *)
Definition signed_claims (jwt : JwtService) (payload : TokenPayload) (now : Z)
  : option JwtClaims :=
  let timestamp := now / 1000 in
  e ← Jsonwebtoken.timespan (signOptions_expiresIn jwt) timestamp;
  Some {| sub := payload_sub payload; claim_role := payload_role payload;
          iat := timestamp; exp := e |}.

Definition signAsync `{JwtCodec} (jwt : JwtService) (payload : TokenPayload) : M string :=
  now ← now_ms;
  match signed_claims jwt payload now with
  | Some claims => mret (jwt_encode claims)
  | None => throw (JwtError "expiresIn should be a number of seconds or string representing a timespan")
  end.

(* ===================================================================== *)
(** ** modules/auth/services/token.service.ts *)
(* ===================================================================== *)

(** [JSON.parse(tokenDataStr)] at type [RefreshTokenData] *)
Definition JSON_parse (t : text) : M RefreshTokenData :=
  match t with
  | JsonText d => mret d
  | Plain _ => throw SyntaxError
  end.

(** A started promise, settled: its rejection is kept, not thrown. *)
Definition settle {A} (p : M A) : M (option exn) := λ w,
  match p w with
  | (Return _, w') => (Return None, w')
  | (Throw e, w') => (Return (Some e), w')
  end.

(** [await Promise.all(promises)]: the promises were all started when they
    were built, so each one runs; the first rejection is what is thrown. *)
Fixpoint Promise_all (promises : list (M unit)) : M unit :=
  match promises with
  | [] => mret tt
  | p :: ps =>
      r ← settle p;
      rest ← settle (Promise_all ps);
      match r, rest with
      | Some e, _ => throw e
      | None, Some e => throw e
      | None, None => mret tt
      end
  end.

Record TokenService := mkTokenService {
  jwtService : JwtService;
  refreshTokenExpirationDays : Float64.double;
  accessTokenExpirationSeconds : Float64.double;
}.

Module TokenService.

Definition refreshTokenPrefix : string := "refresh:".
Definition userRefreshTokensPrefix : string := "user:refresh_tokens:".
Definition blacklistPrefix : string := "blacklist:".

Definition refreshTokenKey (refreshToken : string) : string :=
  refreshTokenPrefix +:+ refreshToken.
Definition userTokensKey (userId : Z) : string :=
  userRefreshTokensPrefix +:+ pretty userId.
Definition blacklistKey (accessToken : string) : string :=
  blacklistPrefix +:+ accessToken.

(** The constructor. *)
Definition new (jwt : JwtService) (configService : gmap string string) : TokenService :=
  {| jwtService := jwt;
     refreshTokenExpirationDays :=
       TimeUtil.parseExpiresToDays (config_get configService "jwt.refreshExpiresIn" "7d")
                                   (Float64.Int 7);
     accessTokenExpirationSeconds :=
       TimeUtil.parseExpiresToSeconds (config_get configService "jwt.accessExpiresIn" "3600s") |}.

Definition generateAccessToken `{JwtCodec} (this : TokenService) (userId : Z) (role : AppRole)
  : M string :=
  signAsync (jwtService this) {| payload_sub := userId; payload_role := role |}.

(** [DateTime.now().plus({ days })], with days of 86400 seconds (the zone
    of the process is taken to be UTC, where every calendar day is one) and
    in whole milliseconds.  luxon refuses a NaN amount, and an infinite one
    too, whose fractional part is NaN. *)
Definition plus_days (now : Z) (days : Float64.double) : M Z :=
  match days with
  | Float64.Finite d => mret (now + Qfloor (d * 86400000)%Q)
  | _ => throw (InvalidArgumentError "Invalid unit value NaN")
  end.

(** The time-to-live Redis reads in the argument ioredis makes of a number,
    [String(seconds)]; [None] is an argument that is not an integer. *)
Definition seconds_argument (seconds : Float64.double) : option Z :=
  Float64.decimal_integer seconds.

Definition generateRefreshToken (this : TokenService) (userId : Z) (role : AppRole)
    (options : option RequestMeta) : M string :=
  refreshToken ← randomUUID;
  now ← now_ms;
  expiresAtUnix ← plus_days now (refreshTokenExpirationDays this);
  createdAtUnix ← now_ms;
  let tokenData :=
    {| userId := userId; role := role;
       expiresAt := expiresAtUnix; createdAt := createdAtUnix;
       ipAddress := options ≫= meta_ipAddress;
       userAgent := options ≫= meta_userAgent |} in
  (* Store refresh token data in Redis *)
  let ttlSeconds := (expiresAtUnix - createdAtUnix) / 1000 in
  Redis.setex (refreshTokenKey refreshToken) (Some ttlSeconds) (JsonText tokenData);;
  (* Track refresh token in user's token set for efficient cleanup *)
  Redis.sadd (userTokensKey userId) refreshToken;;
  Redis.expire (userTokensKey userId) (Some ttlSeconds);;
  mret refreshToken.

Definition revokeRefreshToken (refreshToken : string) : M unit :=
  try_catch
    (tokenDataStr ← Redis.get (refreshTokenKey refreshToken);
     match tokenDataStr with
     | None | Some (Plain EmptyString) => mret tt
     | Some str =>
         tokenData ← JSON_parse str;
         (* Remove from user's token set *)
         Redis.srem (userTokensKey (userId tokenData)) refreshToken;;
         (* Delete token data *)
         Redis.del (refreshTokenKey refreshToken);;
         mret tt
     end)
    (λ error, (* logger.error *) mret tt).

Definition verifyRefreshToken (refreshToken : string) : M (option RefreshTokenData) :=
  try_catch
    (tokenDataStr ← Redis.get (refreshTokenKey refreshToken);
     match tokenDataStr with
     | None | Some (Plain EmptyString) => mret None
     | Some str =>
         tokenData ← JSON_parse str;
         now ← now_ms;
         (* Check if token is expired *)
         if expiresAt tokenData <? now
         then revokeRefreshToken refreshToken;; mret None
         else mret (Some tokenData)
     end)
    (λ error, (* logger.error *) mret None).

Definition revokeUserRefreshTokens (userId : Z) : M unit :=
  try_catch
    (refreshTokens ← Redis.smembers (userTokensKey userId);
     match refreshTokens with
     | [] => mret tt
     | _ =>
         let deletePromises :=
           ((λ refreshToken, Redis.del (refreshTokenKey refreshToken);; mret tt)
              <$> refreshTokens)
           ++ [Redis.del (userTokensKey userId);; mret tt] in
         Promise_all deletePromises
     end)
    (λ error, (* logger.error *) mret tt).

Definition blacklistAccessToken `{JwtCodec} (this : TokenService) (accessToken : string)
  : M unit :=
  try_catch
    (try_catch
       (match jwt_decode accessToken with
        | DecodeThrows => throw (JwtError "jwt malformed")
        | DecodePayload (Some e) =>
            if bool_decide (e = 0)
            then Redis.setex (blacklistKey accessToken)
                             (seconds_argument (accessTokenExpirationSeconds this))
                             (Plain "1")
            else
              ms ← now_ms;
              let now := ms / 1000 in
              let ttl := e - now in
              if 0 <? ttl
              then Redis.setex (blacklistKey accessToken) (Some ttl) (Plain "1")
              else mret tt
        | DecodePayload None | DecodeNull =>
            (* If no expiration, use default TTL (access token expiration) *)
            Redis.setex (blacklistKey accessToken)
                        (seconds_argument (accessTokenExpirationSeconds this))
                        (Plain "1")
        end)
       (λ error,
          (* If decoding fails, use default TTL *)
          Redis.setex (blacklistKey accessToken)
                      (seconds_argument (accessTokenExpirationSeconds this))
                      (Plain "1")))
    (λ error, (* logger.error *) mret tt).

Definition isAccessTokenBlacklisted (accessToken : string) : M bool :=
  try_catch
    (n ← Redis.exists_ (blacklistKey accessToken);
     mret (bool_decide (n = 1)))
    (λ error,
       (* On error, assume token is not blacklisted to avoid blocking valid requests *)
       mret false).

Definition logout `{JwtCodec} (this : TokenService) (userId : Z) (accessToken : string)
  : M unit :=
  (* Blacklist access token *)
  blacklistAccessToken this accessToken;;
  (* Revoke all refresh tokens *)
  revokeUserRefreshTokens userId.

End TokenService.

(* ===================================================================== *)
(** ** common/services (BaseService) and modules/users/users.service.ts *)
(* ===================================================================== *)

Module UsersService.

(** [BaseService.findOne]: [findByPk], and NotFound when there is no row. *)
Definition findOne (id : Z) : M User :=
  w ← get_world;
  match users w !! id with
  | None => throw (NotFoundException ErrorMessages.NOT_FOUND_WITH_ID id)
  | Some entity => mret entity
  end.

(** [toSafeEntity]: the user without the password. *)
Definition toSafeEntity (user : User) : User := user.

End UsersService.

(* ===================================================================== *)
(** ** modules/auth/auth.service.ts *)
(* ===================================================================== *)

Record AuthTokens := mkAuthTokens {
  accessToken : string;
  refreshToken : string;
  expiresIn : Float64.double;
}.

Record AuthService := mkAuthService {
  tokenService : TokenService;
  configService : gmap string string;
}.

Module AuthService.

Definition issueTokens `{JwtCodec} (this : AuthService) (userId : Z) (role : AppRole)
    (options : option RequestMeta) : M AuthTokens :=
  (* Generate access token *)
  accessToken ← TokenService.generateAccessToken (tokenService this) userId role;
  (* Generate and store refresh token in Redis *)
  refreshToken ← TokenService.generateRefreshToken (tokenService this) userId role options;
  (* Get access token expiration in seconds *)
  let accessExpiresIn := config_get (configService this) "jwt.accessExpiresIn" "3600s" in
  let expiresIn := TimeUtil.parseExpiresToSeconds accessExpiresIn in
  mret {| accessToken := accessToken; refreshToken := refreshToken; expiresIn := expiresIn |}.

(** [refreshToken] after its first await, the verification, has answered,
    up to the revocation of the presented token.  [findOne] throws for a
    missing user, so the [!user] test of the source never fires. *)
Definition refreshToken_revoke (presented : string)
    (tokenData : option RefreshTokenData) : M User :=
  match tokenData with
  | None => throw (UnauthorizedException ErrorMessages.INVALID_REFRESH_TOKEN)
  | Some tokenData =>
      (* Get user *)
      user ← UsersService.findOne (userId tokenData);
      (* Revoke old refresh token (refresh token rotation) *)
      TokenService.revokeRefreshToken presented;;
      mret user
  end.

(** The rest of [refreshToken] once the verification has answered. *)
Definition refreshToken_resume `{JwtCodec} (this : AuthService) (presented : string)
    (options : option RequestMeta) (tokenData : option RefreshTokenData) : M AuthTokens :=
  user ← refreshToken_revoke presented tokenData;
  (* Issue new tokens *)
  issueTokens this (user_id user) (user_role user) options.

Definition refreshToken `{JwtCodec} (this : AuthService) (presented : string)
    (options : option RequestMeta) : M AuthTokens :=
  (* Verify refresh token *)
  tokenData ← TokenService.verifyRefreshToken presented;
  refreshToken_resume this presented options tokenData.

Definition logout `{JwtCodec} (this : AuthService) (userId : Z) (accessToken : string)
  : M bool :=
  TokenService.logout (tokenService this) userId accessToken;;
  mret true.

(** Two calls of [refreshToken] with the same token, both requests being
    served by one event loop: an await hands control to the other call.
    [attempt] runs a call to its end and keeps its outcome. *)
Definition attempt {A} (m : M A) : M (outcome A) := λ w,
  let '(r, w') := m w in (Return r, w').

(** Both calls pass their verification before either goes on. *)
Definition race_verify_first `{JwtCodec} (this : AuthService) (presented : string)
  : M (outcome AuthTokens * outcome AuthTokens) :=
  seenA ← TokenService.verifyRefreshToken presented;
  seenB ← TokenService.verifyRefreshToken presented;
  resultA ← attempt (refreshToken_resume this presented None seenA);
  resultB ← attempt (refreshToken_resume this presented None seenB);
  mret (resultA, resultB).

(** The second call starts when the first has revoked the token and has not
    yet issued its new pair. *)
Definition race_after_revoke `{JwtCodec} (this : AuthService) (presented : string)
  : M (outcome AuthTokens * outcome AuthTokens) :=
  seenA ← TokenService.verifyRefreshToken presented;
  userA ← refreshToken_revoke presented seenA;
  resultB ← attempt (refreshToken this presented None);
  resultA ← attempt (issueTokens this (user_id userA) (user_role userA) None);
  mret (resultA, resultB).

End AuthService.

(* ===================================================================== *)
(** ** modules/auth/strategies/jwt.strategy.ts *)
(* ===================================================================== *)

(** A request, as far as authentication reads it: the token that
    [ExtractJwt.fromAuthHeaderAsBearerToken()] finds in it, if any. *)
Record Request := mkRequest {
  bearerToken : option string;
}.

Module JwtStrategy.

Definition validate (req : Request) (payload : TokenPayload) : M User :=
  match bearerToken req with
  | None | Some EmptyString =>
      throw (UnauthorizedException ErrorMessages.TOKEN_MISSING)
  | Some token =>
      (* Check if token is blacklisted before validating user *)
      isBlacklisted ← TokenService.isAccessTokenBlacklisted token;
      if isBlacklisted : bool
      then throw (UnauthorizedException ErrorMessages.TOKEN_REVOKED)
      else
        (* Verify user exists (throws NotFoundException if not found) *)
        user ← UsersService.findOne (payload_sub payload);
        mret (UsersService.toSafeEntity user)
  end.

(** The request-time check.  The class extends the passport-jwt strategy
    with [ignoreExpiration: false] and a [secretOrKey]: the base strategy
    extracts the token, checks signature and expiry, and only then hands the
    payload to [validate]. *)
Definition authenticate `{JwtCodec} (req : Request) : M User :=
  match bearerToken req with
  | None | Some EmptyString => throw (AuthenticationFailed "No auth token")
  | Some token =>
      ms ← now_ms;
      match jwt_verify token (ms / 1000) with
      | VerifyError name => throw (AuthenticationFailed name)
      | Verified payload => validate req payload
      end
  end.

End JwtStrategy.

(* ===================================================================== *)
(** ** modules/auth/auth.controller.ts *)
(* ===================================================================== *)

Module AuthController.

(** [headerValue.split(' ')]: the pieces between the spaces, empty pieces
    included. *)
Fixpoint split_space (s : string) : list string :=
  match s with
  | EmptyString => [EmptyString]
  | String c s' =>
      if Ascii.eqb c " " then EmptyString :: split_space s'
      else match split_space s' with
           | part :: parts => String c part :: parts
           | [] => [String c EmptyString]
           end
  end.

(** [toLowerCase] on ASCII letters. *)
Definition toLowerCase : string -> string := Jsonwebtoken.lowercase.

Definition extractBearerToken (headerValue : string) : option string :=
  match headerValue with
  | EmptyString => None
  | _ =>
      match split_space headerValue with
      | [scheme; token] =>
          if negb (String.eqb (toLowerCase scheme) "bearer")
          then None
          else match token with
               | EmptyString => None
               | _ => Some token
               end
      | _ => None
      end
  end.

End AuthController.

(* ===================================================================== *)
(** ** common/utils/config-utils.ts and config/jwt.config.ts *)
(* ===================================================================== *)

Module ConfigUtils.
Import JSString.

(** What loading a value gives: the value, or the Error thrown. *)
Inductive loaded (A : Type) :=
| Loaded (a : A)
| ConfigError (message : string).
Arguments Loaded {A} a.
Arguments ConfigError {A} message.

(** [process.env] *)
Definition Env : Type := gmap string string.

(** JavaScript truthiness of a string that may be undefined. *)
Definition truthy (v : option string) : bool :=
  match v with
  | Some (String _ _) => true
  | _ => false
  end.

Definition isProductionEnvironment (env : Env) : bool :=
  let nodeEnv :=
    if truthy (env !! "NODE_ENV") then default "dev" (env !! "NODE_ENV")
    else if truthy (env !! "APP_ENV") then default "dev" (env !! "APP_ENV")
    else "dev" in
  bool_decide (nodeEnv = "production") || bool_decide (nodeEnv = "staging").

(** [s.includes(needle)] *)
Fixpoint includes (needle s : string) : bool :=
  String.prefix needle s
  || match s with
     | String _ s' => includes needle s'
     | EmptyString => false
     end.

Definition dangerousDefaults : list string :=
  ["change_me"; ""; "password"; "secret"; "admin"].

Definition isDefaultValueDangerous (key value : string) : bool :=
  (* Check if the value itself is dangerous *)
  if bool_decide (Jsonwebtoken.lowercase value ∈ dangerousDefaults) then true
  else if (includes "PASSWORD" key || includes "SECRET" key) && bool_decide (value = "")
  then true
  else false.

Definition quoted (s : string) : string :=
  String "034" (s +:+ String "034" EmptyString).

(** One guarded [throw new Error(message)], then the rest of the body. *)
Definition check {A} (failed : bool) (message : string) (rest : loaded A) : loaded A :=
  if failed then ConfigError message else rest.

Definition requireEnv (env : Env) (key : string) (defaultValue : option string)
  : loaded string :=
  let value := env !! key in
  let result := Loaded (default (default "" defaultValue) value) in
  if isProductionEnvironment env then
    check (negb (truthy value))
      ("Required environment variable " +:+ key
       +:+ " is not set in production/staging environment") $
    check (truthy defaultValue && bool_decide (value = defaultValue)
           && isDefaultValueDangerous key (default "" defaultValue))
      ("Environment variable " +:+ key +:+ " cannot use the default value "
       +:+ quoted (default "" defaultValue) +:+ " in production/staging") $
    result
  else result.

(** The [options] of [getEnvWithDefault]; an absent field is [None]. *)
Record EnvOptions := mkEnvOptions {
  required : option bool;
  minLength : option nat;
  allowedValues : option (list string);
  rejectDefaultsInProduction : option bool;
}.

(** [list.join(', ')] *)
Fixpoint join (l : list string) : string :=
  match l with
  | [] => EmptyString
  | [s] => s
  | s :: l' => s +:+ ", " +:+ join l'
  end.

Definition getEnvWithDefault (env : Env) (key defaultValue : string)
    (options : option EnvOptions) : loaded string :=
  let value := env !! key in
  let isProduction := isProductionEnvironment env in
  (* options?.rejectDefaultsInProduction !== false *)
  let rejects := negb (bool_decide (options ≫= rejectDefaultsInProduction = Some false)) in
  let result := Loaded (default defaultValue value) in
  if isProduction then
    check (bool_decide (options ≫= required = Some true) && negb (truthy value))
      ("Required environment variable " +:+ key +:+ " is not set in production/staging") $
    (* If value is not set, reject default in production *)
    check (negb (truthy value) && rejects)
      ("Environment variable " +:+ key
       +:+ " must be explicitly set in production/staging. Cannot use default value "
       +:+ quoted defaultValue) $
    (* If value equals default and defaults are rejected, throw error *)
    check (bool_decide (value = Some defaultValue) && rejects
           && isDefaultValueDangerous key defaultValue)
      ("Environment variable " +:+ key +:+ " cannot use the default value "
       +:+ quoted defaultValue +:+ " in production/staging") $
    check (truthy value
           && match options ≫= minLength with
              | Some (S n) => (utf16_length (default "" value) <? S n)%nat
              | _ => false
              end)
      ("Environment variable " +:+ key +:+ " must be at least "
       +:+ pretty (Z.of_nat (default 0%nat (options ≫= minLength)))
       +:+ " characters long") $
    check (truthy value
           && match options ≫= allowedValues with
              | Some allowed => negb (bool_decide (default "" value ∈ allowed))
              | None => false
              end)
      ("Environment variable " +:+ key +:+ " must be one of: "
       +:+ join (default [] (options ≫= allowedValues))) $
    result
  else result.

End ConfigUtils.

(** [config/jwt.config.ts]: the namespace [jwt] of the configuration, as
    [ConfigService.get] reads it. *)
Module JwtConfig.
Import ConfigUtils.

Definition load (env : Env) : loaded (gmap string string) :=
  match requireEnv env "JWT_ACCESS_SECRET" (Some "change_me") with
  | ConfigError message => ConfigError message
  | Loaded accessSecret =>
      (* logger.warn on a weak secret *)
      match getEnvWithDefault env "JWT_ACCESS_EXPIRES_IN" "3600s" None with
      | ConfigError message => ConfigError message
      | Loaded accessExpiresIn =>
          match getEnvWithDefault env "JWT_REFRESH_EXPIRES_IN" "7d" None with
          | ConfigError message => ConfigError message
          | Loaded refreshExpiresIn =>
              Loaded ({[ "jwt.accessSecret" := accessSecret;
                         "jwt.accessExpiresIn" := accessExpiresIn;
                         "jwt.refreshExpiresIn" := refreshExpiresIn ]}
                      : gmap string string)
          end
      end
  end.

End JwtConfig.

(* ===================================================================== *)
(** ** common/services/base.service.ts: pages *)
(* ===================================================================== *)

Module BaseService.

Record PaginationDto := mkPaginationDto {
  page : option Z;
  limit : option Z;
}.

(** [totalPages] is a JavaScript number: an integer, or the result of a
    division by zero ([Infinity] for a positive total, [NaN] for 0 / 0). *)
Inductive number :=
| Int (n : Z)
| Infinity
| NaN.

Record PaginationMetaDto := mkPaginationMetaDto {
  meta_page : Z;
  meta_limit : Z;
  total : Z;
  totalPages : number;
  hasNextPage : bool;
  hasPreviousPage : bool;
}.

(** [Math.ceil(total / limit)] for a count [total] and an integer [limit]. *)
Definition ceil_div (total limit : Z) : number :=
  if limit =? 0 then (if 0 <? total then Infinity else NaN)
  else Int (- ((- total) / limit)).

(** [page < totalPages] *)
Definition lt_number (page : Z) (n : number) : bool :=
  match n with
  | Int n => page <? n
  | Infinity => true
  | NaN => false
  end.

(** [model.findAll({ limit, offset, order })] over [rows], the rows that match in
    the order asked for: the database refuses a negative LIMIT or OFFSET
    (the promise rejects, [None]), and otherwise skips [offset] rows and
    returns at most [limit]. *)
Definition Model_findAll {T} (rows : list T) (limit offset : Z) : option (list T) :=
  if (limit <? 0) || (offset <? 0) then None
  else Some (take (Z.to_nat limit) (drop (Z.to_nat offset) rows)).

(** [model.count({ where })] *)
Definition Model_count {T} (rows : list T) : Z := Z.of_nat (length rows).

Definition findAllPaginated {T} (rows : list T) (pagination : PaginationDto)
  : option (list T * PaginationMetaDto) :=
  let page := default 1 (page pagination) in
  let limit := default 10 (limit pagination) in
  let offset := (page - 1) * limit in
  data ← Model_findAll rows limit offset;
  let total := Model_count rows in
  let totalPages := ceil_div total limit in
  Some (data,
        {| meta_page := page; meta_limit := limit; total := total;
           totalPages := totalPages;
           hasNextPage := lt_number page totalPages;
           hasPreviousPage := 1 <? page |}).

End BaseService.

(* ===================================================================== *)
(** ** A concrete codec and deployment, to run the model on *)
(* ===================================================================== *)

Module Scenario.

Fixpoint before_dot (s : string) : string :=
  match s with
  | String "." _ => EmptyString
  | String c s' => String c (before_dot s')
  | EmptyString => EmptyString
  end%char.

Fixpoint after_dot (s : string) : option string :=
  match s with
  | String "." s' => Some s'
  | String _ s' => after_dot s'
  | EmptyString => None
  end%char.

(** The integer at the head of [s], with its sign. *)
Definition integer_prefix (s : string) : option Z :=
  let '(neg, digits) :=
    match s with
    | String "-" r => (true, r)
    | String "+" r => (false, r)
    | _ => (false, s)
    end%char in
  match fst (TimeUtil.take_digits digits) with
  | EmptyString => None
  | ds => Some (if neg : bool then - TimeUtil.digits_to_Z 0 ds else TimeUtil.digits_to_Z 0 ds)
  end.

(** Tokens of the form <sub>.<exp>, unsigned: enough to exercise every
    branch that reads a token. *)
#[local] Instance codec : JwtCodec := {|
  jwt_encode c := pretty (sub c) +:+ "." +:+ pretty (exp c);
  jwt_decode s :=
    match after_dot s with
    | None => DecodeNull
    | Some e => DecodePayload (integer_prefix e)
    end;
  jwt_verify s now :=
    match integer_prefix (before_dot s), after_dot s ≫= integer_prefix with
    | Some u, Some e =>
        if now <? e then Verified {| payload_sub := u; payload_role := USER |}
        else VerifyError "TokenExpiredError"
    | _, _ => VerifyError "JsonWebTokenError"
    end |}.

Definition config : gmap string string :=
  {[ "jwt.accessExpiresIn" := "900s"; "jwt.refreshExpiresIn" := "7d" ]}.

Definition tokens : TokenService := TokenService.new (AuthModule_jwt config) config.
Definition auth : AuthService := {| tokenService := tokens; configService := config |}.

Definition alice : User := {| user_id := 7; user_email := "a@example.com"; user_role := USER |}.

(** An empty store at instant 1 000 000 s, a healthy connection, one user. *)
Definition boot : world :=
  {| store := ∅; clock := 1000000000; faults := []; log := [];
     rng := λ n, "uuid-" +:+ pretty n; drawn := 0;
     users := {[ 7 := alice ]} |}.

(** The world after alice has logged in once. *)
Definition after_login : world := snd (AuthService.issueTokens auth 7 USER None boot).

(** The same, alice's row having been deleted since. *)
Definition orphaned : world :=
  World (store after_login) (clock after_login) [] (log after_login)
        (rng after_login) (drawn after_login) ∅.

(** A record whose own expiry instant is past while its key is still held. *)
Definition stale_record : RefreshTokenData :=
  {| userId := 7; role := USER; expiresAt := 999999000; createdAt := 395199000;
     ipAddress := None; userAgent := None |}.

Definition stale : world :=
  {| store := {[ "refresh:old" := Entry (RStr (JsonText stale_record)) (Some 1000001000);
                 "user:refresh_tokens:7" := Entry (RSet {[ "old" ]}) (Some 1000001000) ]};
     clock := 1000000000; faults := []; log := [];
     rng := λ n, "uuid-" +:+ pretty n; drawn := 0;
     users := {[ 7 := alice ]} |}.

(** A request with a token that is no token at all, after that very
    string was blacklisted. *)
Definition forged : Request := {| bearerToken := Some "garbage" |}.
Definition garbage_blacklisted : world :=
  snd (TokenService.blacklistAccessToken tokens "garbage" boot).

End Scenario.

(* ===================================================================== *)
(** ** Vocabulary of the properties *)
(* ===================================================================== *)

(** Duration strings and the two readings of a lifetime. *)
Module DurationSpec.
Import TimeUtil.

(** A string made of decimal digits only. *)
Fixpoint digits_only (s : string) : bool :=
  match s with
  | String c s' => is_digit c && digits_only s'
  | EmptyString => true
  end.

(** What may follow a run of digits without extending it. *)
Definition stops_digits (s : string) : bool :=
  match s with
  | String c _ => negb (is_digit c)
  | EmptyString => true
  end.

Definition factor (u : ascii) : Z :=
  match u with
  | "m" => 60
  | "h" => 3600
  | "d" => 86400
  | _ => 1
  end%char.

(** Both parsers read [v]: as [secs] seconds, and as the days that
    [secs / 86400] makes. *)
Definition reads (v : string) (defaultValue : Float64.double) (secs : Z) : Prop :=
  parseExpiresToSeconds v = Float64.Int secs
  /\ parseExpiresToDays v defaultValue = Float64.div (Float64.Int secs) (Float64.Int 86400).

(** Seconds between issue and expiry in the claims the codec signs. *)
Definition signed_lifetime (jwt : JwtService) (payload : TokenPayload) (now : Z)
  : option Z :=
  c ← signed_claims jwt payload now; Some (exp c - iat c).

(** The [expiresIn] that [issueTokens] reports for a configuration. *)
Definition reported_lifetime (configService : gmap string string) : Float64.double :=
  parseExpiresToSeconds (config_get configService "jwt.accessExpiresIn" "3600s").

End DurationSpec.

(** Store states, what calls leave alone, and the invariant of the
    refresh-token store. *)
Module StoreSpec.
Import Redis TokenService.

(** No store command will fail from here on. *)
Definition healthy (w : world) : Prop := faults w = [].

(** The next store command is answered. *)
Definition answers (w : world) : Prop := hd false (faults w) = false.

(** The next [n] store commands are answered: none of the first [n] entries
    of the failure schedule is a failure. *)
Definition answered (n : nat) (w : world) : Prop :=
  forall i : nat, (i < n)%nat -> faults w !! i <> Some true.

(** What a call leaves alone when it only talks to a healthy store. *)
Definition steady (w w' : world) : Prop :=
  clock w' = clock w /\ healthy w' /\ users w' = users w
  /\ rng w' = rng w /\ drawn w' = drawn w.

(** The store after [revokeRefreshToken t] at instant [now]. *)
Definition revoke_store (now : Z) (t : string) (db : gmap string entry)
  : gmap string entry :=
  match peek now (refreshTokenKey t) db with
  | Some (Entry (RStr (JsonText d)) _) =>
      match peek now (userTokensKey (userId d)) db with
      | None => delete (refreshTokenKey t) db
      | Some (Entry (RSet s) ex) =>
          delete (refreshTokenKey t)
            (if decide (s ∖ {[ t ]} = ∅) then delete (userTokensKey (userId d)) db
             else <[userTokensKey (userId d) := Entry (RSet (s ∖ {[ t ]})) ex]> db)
      | Some (Entry (RStr _) _) => db
      end
  | _ => db
  end.

(** The record [verifyRefreshToken t] answers with at instant [now]. *)
Definition verify_result (now : Z) (t : string) (db : gmap string entry)
  : option RefreshTokenData :=
  match peek now (refreshTokenKey t) db with
  | Some (Entry (RStr (JsonText d)) _) => if expiresAt d <? now then None else Some d
  | _ => None
  end.

Definition verify_store (now : Z) (t : string) (db : gmap string entry)
  : gmap string entry :=
  match peek now (refreshTokenKey t) db with
  | Some (Entry (RStr (JsonText d)) _) =>
      if expiresAt d <? now then revoke_store now t db else db
  | _ => db
  end.

(** The per-user index key does not hold a string at instant [now]. *)
Definition index_is_set (now : Z) (u : Z) (db : gmap string entry) : Prop :=
  match peek now (userTokensKey u) db with
  | Some (Entry (RStr _) _) => False
  | _ => True
  end.

(** One of the commands sent between [w] and [w'] met a scheduled failure:
    the i-th command of the call consumes the i-th entry of the schedule. *)
Definition failed_during (w w' : world) : Prop :=
  exists i : nat, (i < length (log w') - length (log w))%nat /\ faults w !! i = Some true.

(** The time-to-live SETEX accepts. *)
Definition usable_ttl (seconds : option Z) : option Z :=
  match seconds with
  | Some n => if 0 <? n then Some n else None
  | None => None
  end.

(** The time-to-live of the marker for [accessToken] at second [now], in
    words: the expiry claim less now when the claim can be read and lies
    ahead; the configured access-token lifetime when no claim can be read;
    and no marker at all when the claim can be read and does not lie ahead. *)
Definition marker_ttl `{JwtCodec} (this : TokenService) (now : Z) (accessToken : string)
  : option Z :=
  match jwt_decode accessToken with
  | DecodePayload (Some e) =>
      if bool_decide (e = 0)
      then usable_ttl (seconds_argument (accessTokenExpirationSeconds this))
      else if 0 <? e - now then Some (e - now)
      else None
  | _ => usable_ttl (seconds_argument (accessTokenExpirationSeconds this))
  end.

Definition marker (now : Z) (ttl : Z) : entry :=
  Entry (RStr (Plain "1")) (Some (now + ttl * 1000)).

(** [m] leaves the value stored under [k] alone, whatever the store answers. *)
Definition preserves_key {A} (k : string) (m : M A) : Prop :=
  forall w, store (snd (m w)) !! k = store w !! k.

(** From [w] to [w'] the store stayed healthy, and neither the clock nor
    the users table moved. *)
Definition quiet (w w' : world) : Prop :=
  clock w' = clock w /\ healthy w' /\ users w' = users w.

(** [m] is quiet on every healthy store. *)
Definition calm {A} (m : M A) : Prop := forall w, healthy w -> quiet w (snd (m w)).

Definition is_set (v : rvalue) : bool :=
  match v with
  | RSet _ => true
  | RStr _ => false
  end.

(** Every key of the per-user index namespace that the store holds is a
    set.  The service writes these keys with SADD only. *)
Definition typed_at (now : Z) (db : gmap string entry) : Prop :=
  map_Forall (λ k e, String.prefix userRefreshTokensPrefix k = true ->
                     live now e = true -> is_set (value e) = true)
             db.

Definition index_typed (w : world) : Prop := typed_at (clock w) (store w).

Definition delete_all (ks : list string) (db : gmap string entry) : gmap string entry :=
  foldl (λ acc k, delete k acc) db ks.

(** The store after a bulk revocation for [u]. *)
Definition revoke_all_store (now : Z) (u : Z) (db : gmap string entry)
  : gmap string entry :=
  match peek now (userTokensKey u) db with
  | Some (Entry (RSet s) _) =>
      match elements s with
      | [] => db
      | _ => delete_all ((refreshTokenKey <$> elements s) ++ [userTokensKey u]) db
      end
  | _ => db
  end.

(** [s] without the prefix [p], when it starts with it. *)
Fixpoint strip_prefix (p s : string) : option string :=
  match p, s with
  | EmptyString, _ => Some s
  | String a p', String b s' => if Ascii.eqb a b then strip_prefix p' s' else None
  | String _ _, EmptyString => None
  end.

(** The record held under a refresh-token key is listed in the index of
    the user it names. *)
Definition covered (now : Z) (db : gmap string entry) (k : string) (e : entry) : bool :=
  match strip_prefix refreshTokenPrefix k, value e with
  | Some t, RStr (JsonText d) =>
      match peek now (userTokensKey (userId d)) db with
      | Some (Entry (RSet s) _) => bool_decide (t ∈ s)
      | _ => false
      end
  | _, _ => true
  end.

(** Every refresh token the store still holds is in its owner's index:
    what [generateRefreshToken] sets up, and what bulk revocation relies on. *)
Definition covers_at (now : Z) (db : gmap string entry) : Prop :=
  map_Forall (λ k e, live now e = true -> covered now db k e = true) db.

Definition index_covers (w : world) : Prop := covers_at (clock w) (store w).

(** The expiry [b] is not before the expiry [a]; no expiry is never. *)
Definition later (a b : option Z) : Prop :=
  match b with
  | None => True
  | Some y => match a with
              | Some x => x <= y
              | None => False
              end
  end.

(** Every record the store still holds lapses within [span] milliseconds,
    and is listed in the index of its owner, which lapses no sooner. *)
Definition linked (span now : Z) (db : gmap string entry) : Prop :=
  forall t e d,
    db !! refreshTokenKey t = Some e -> live now e = true ->
    value e = RStr (JsonText d) ->
    (exists x, expires e = Some x /\ x <= now + span)
    /\ exists s ex, db !! userTokensKey (userId d) = Some (Entry (RSet s) ex)
                    /\ t ∈ s /\ later (expires e) ex.

Definition ok (span now : Z) (db : gmap string entry) : Prop :=
  typed_at now db /\ linked span now db.

(** The store after a refresh token was issued with [ttl] seconds to live. *)
Definition issue_store (now ttl : Z) (t : string) (d : RefreshTokenData)
    (db : gmap string entry) : gmap string entry :=
  let db1 := <[refreshTokenKey t := Entry (RStr (JsonText d)) (Some (now + ttl * 1000))]> db in
  let s := match peek now (userTokensKey (userId d)) db1 with
           | Some (Entry (RSet s) _) => s
           | _ => ∅
           end in
  <[userTokensKey (userId d) := Entry (RSet ({[ t ]} ∪ s)) (Some (now + ttl * 1000))]> db1.

(** [ttlSeconds] of [generateRefreshToken], which depends on the
    configuration only, the clock standing still during the call. *)
Definition ttl_seconds (this : TokenService) : Z :=
  match refreshTokenExpirationDays this with
  | Float64.Finite d => Qfloor (d * 86400000)%Q / 1000
  | _ => 0
  end.

(** A healthy store that satisfies the invariant. *)
Definition sound (this : TokenService) (w : world) : Prop :=
  healthy w /\ ok (ttl_seconds this * 1000) (clock w) (store w).

(** [m] takes sound worlds to sound worlds and moves neither the clock nor
    the users table. *)
Definition maintains {A} (this : TokenService) (m : M A) : Prop :=
  forall w, sound this w ->
    sound this (snd (m w)) /\ clock (snd (m w)) = clock w.

End StoreSpec.

(** Strings, pages, issued records, what draws identifiers, and worlds in
    which store commands fail: the vocabulary of the further properties. *)
Module TextSpec.

(** A string without any decimal digit. *)
Fixpoint no_digit (s : string) : bool :=
  match s with
  | String c s' => negb (TimeUtil.is_digit c) && no_digit s'
  | EmptyString => true
  end.

(** A string without a space. *)
Fixpoint no_space (s : string) : bool :=
  match s with
  | String c s' => negb (Ascii.eqb c " ") && no_space s'
  | EmptyString => true
  end.

End TextSpec.

Module PageSpec.

(** The pages 1 to [n] of [rows], [limit] rows to the page, one after the
    other. *)
Definition pages {T} (rows : list T) (limit : Z) (n : nat) : list T :=
  mjoin ((λ p : nat,
            match BaseService.findAllPaginated rows
                    {| BaseService.page := Some (Z.of_nat (S p));
                       BaseService.limit := Some limit |} with
            | Some (data, _) => data
            | None => []
            end) <$> seq 0 n).

End PageSpec.

Module IssueSpec.
Import Redis TokenService.


End IssueSpec.

Module FrameSpec.

(** [m] draws no identifier, whatever the store answers. *)
Definition keeps_entropy {A} (m : M A) : Prop :=
  forall w, rng (snd (m w)) = rng w /\ drawn (snd (m w)) = drawn w.

(** [m] leaves the index keys sets and the clock where it was, whatever the
    store answers. *)
Definition keeps_typed {A} (m : M A) : Prop :=
  forall w, StoreSpec.index_typed w ->
    StoreSpec.index_typed (snd (m w)) /\ clock (snd (m w)) = clock w.

End FrameSpec.

Module Incidents.

(** The world [w] with the failure schedule [fs]. *)
Definition with_faults (fs : list bool) (w : world) : world :=
  World (store w) (clock w) fs (log w) (rng w) (drawn w) (users w).

(** After alice's login, the second store command from now fails. *)
Definition second_command_fails : world := with_faults [false; true] Scenario.after_login.

(** After alice's login and the blacklisting of her access token, the store
    being out of reach. *)
Definition blacklisted_then_down : world :=
  with_faults [true]
    (snd (TokenService.blacklistAccessToken (H := Scenario.codec) Scenario.tokens
            "7.1000900" Scenario.after_login)).

(** After alice's login, the next three store commands fail. *)
Definition outage : world := with_faults [true; true; true] Scenario.after_login.

(** At boot, the first store command fails and the second is answered. *)
Definition first_command_fails : world := with_faults [true; false] Scenario.boot.

(** After alice's login and a login of user 8. *)
Definition two_sessions : world :=
  snd (AuthService.issueTokens (H := Scenario.codec) Scenario.auth 8 USER None
         Scenario.after_login).

(** A production deployment with its three variables set. *)
Definition production : ConfigUtils.Env :=
  {[ "NODE_ENV" := "production";
     "JWT_ACCESS_SECRET" := "0123456789abcdef0123456789abcdef";
     "JWT_ACCESS_EXPIRES_IN" := "15m";
     "JWT_REFRESH_EXPIRES_IN" := "30d" ]}.

End Incidents.

(* ===================================================================== *)
(** * Properties *)

Import DurationSpec StoreSpec FrameSpec Incidents.
(* ===================================================================== *)

(** ** The examples the source documents *)

Module DocumentedExamples.
Import Float64 TimeUtil.

(** The examples in the comments of [time.util.ts]. *)
Example seconds_examples :
  parseExpiresToSeconds "3600s" = Int 3600
  /\ parseExpiresToSeconds "60m" = Int 3600
  /\ parseExpiresToSeconds "1h" = Int 3600
  /\ parseExpiresToSeconds "7d" = Int 604800
  /\ parseExpiresToSeconds "3600" = Int 3600.
Proof. by vm_compute. Qed.

Example days_examples :
  parseExpiresToDays "7d" (Int 7) = Int 7
  /\ parseExpiresToDays "168h" (Int 7) = Int 7
  /\ parseExpiresToDays "10080m" (Int 7) = Int 7
  /\ parseExpiresToDays "604800s" (Int 7) = Int 7
  /\ parseExpiresToDays "invalid" (Int 14) = Int 14.
Proof. by vm_compute. Qed.

(** The expectations of [auth.service.spec.ts] on [expiresIn]. *)
Example unit_test_expectations :
  parseExpiresToSeconds "2h" = Int 7200 /\ parseExpiresToSeconds "900" = Int 900.
Proof. by vm_compute. Qed.

(** The pattern is not anchored: the first digits followed by a unit win,
    and a string without digits is not a number. *)
Example unanchored_examples :
  parseExpiresToSeconds "1h30m" = Int 3600
  /\ parseExpiresToSeconds "-5s" = Int 5
  /\ parseExpiresToSeconds "-5" = Int (-5)
  /\ parseExpiresToSeconds "soon" = NaN.
Proof. by vm_compute. Qed.

(** Numbers are doubles: an integer above 2^53 is rounded, a quotient is
    the nearest double and multiplying it back need not give the integer,
    and a number of more than 308 digits is infinite. *)
Example rounding_examples :
  parseExpiresToSeconds "9007199254740993" = Int 9007199254740992
  /\ parseExpiresToMinutes "6s" = Finite (3602879701896397 # 36028797018963968)
  /\ mul (parseExpiresToMinutes "31s") (Int 60) <> Int 31
  /\ mul (parseExpiresToDays "11s" (Int 7)) (Int 86400) <> Int 11
  /\ parseExpiresToSeconds ("1" +:+ String.concat EmptyString (replicate 309 "0")) = Infinity false.
Proof. vm_compute. repeat split; discriminate. Qed.

End DocumentedExamples.

(** ** Duration strings *)

(** *** Rounding to a double *)

Module Float64Facts.
Import Float64.

Lemma Qred_inject_Z z : Qred (inject_Z z) = inject_Z z.
Proof.
  unfold Qred, inject_Z.
  pose proof (Z.ggcd_correct_divisors z 1) as Hd.
  pose proof (Z.ggcd_gcd z 1) as Hg. rewrite Z.gcd_1_r in Hg.
  destruct (Z.ggcd z 1) as [g [aa bb]]. cbn [fst] in Hg. subst g.
  destruct Hd as [-> Hb]. rewrite Z.mul_1_l in Hb. subst bb.
  by rewrite Z.mul_1_l.
Qed.

Lemma binary64_proper q q' : (q == q')%Q -> binary64 q = binary64 q'.
Proof. intros E. unfold binary64. by rewrite (Qred_complete q q' E). Qed.

Lemma ilog2_integer z : 0 < z -> ilog2 z 1 = Z.log2 z.
Proof.
  intros Hz. unfold ilog2, pow2. change (Z.log2 1) with 0. rewrite Z.sub_0_r.
  pose proof (Z.log2_nonneg z) as Hl. pose proof (Z.log2_spec z Hz) as [Hlo _].
  rewrite (Z.max_l (Z.log2 z) 0), (Z.max_r (- Z.log2 z) 0) by lia.
  rewrite Z.pow_0_r, Z.mul_1_r, Z.mul_1_l.
  by destruct (Z.leb_spec (2 ^ Z.log2 z) z); [|lia].
Qed.

Lemma nearest_even_1 n : nearest_even n 1 = n.
Proof.
  unfold nearest_even. rewrite Z.mod_1_r, Z.div_1_r. reflexivity.
Qed.

Lemma round_pos_small z :
  0 < z < 2 ^ 53 -> round_pos z 1 = Some (inject_Z z).
Proof.
  intros [Hz Hb]. unfold round_pos. rewrite ilog2_integer by done.
  pose proof (Z.log2_nonneg z) as Hl.
  assert (Z.log2 z < 53) as Hl' by (apply Z.log2_lt_pow2; lia).
  rewrite Z.max_l by lia. unfold pow2.
  rewrite (Z.max_r (Z.log2 z - 52) 0), (Z.max_l (- (Z.log2 z - 52)) 0) by lia.
  rewrite Z.pow_0_r, !Z.mul_1_r, nearest_even_1.
  set (k := - (Z.log2 z - 52)). assert (0 <= k <= 52) as Hk by lia.
  rewrite Z.log2_mul_pow2 by lia.
  destruct (Z.leb_spec 1024 (k + Z.log2 z + (Z.log2 z - 52))); [lia|].
  f_equal. rewrite <- (Qred_inject_Z z). apply Qred_complete.
  unfold Qeq, inject_Z. cbn [Qnum Qden].
  assert (0 < 2 ^ k) by (apply Z.pow_pos_nonneg; lia).
  rewrite Z2Pos.id by done. lia.
Qed.

Lemma round_pos_large z :
  2 ^ 53 <= z ->
  round_pos z 1 = None
  \/ exists z', round_pos z 1 = Some (inject_Z z') /\ 2 ^ 53 <= z'.
Proof.
  intros Hb. assert (0 < z) as Hz by lia.
  unfold round_pos. rewrite ilog2_integer by done.
  assert (53 <= Z.log2 z) as Hl by (apply Z.log2_le_pow2; lia).
  rewrite Z.max_l by lia. unfold pow2.
  rewrite (Z.max_l (Z.log2 z - 52) 0), (Z.max_r (- (Z.log2 z - 52)) 0) by lia.
  rewrite Z.pow_0_r, Z.mul_1_r, Z.mul_1_l.
  set (e := Z.log2 z - 52). assert (1 <= e) as He by lia.
  set (m := nearest_even z (2 ^ e)).
  destruct (1024 <=? Z.log2 m + e); [by left|right].
  exists (m * 2 ^ e). change (Z.to_pos 1) with 1%positive.
  split; [f_equal; apply Qred_inject_Z|].
  assert (0 < 2 ^ e) as Hp by (apply Z.pow_pos_nonneg; lia).
  assert (2 ^ 52 <= z / 2 ^ e) as Hf.
  { apply Z.div_le_lower_bound; [done|].
    pose proof (Z.log2_spec z Hz) as [Hlo _].
    replace (Z.log2 z) with (e + 52) in Hlo by lia.
    rewrite Z.pow_add_r in Hlo by lia. lia. }
  assert (z / 2 ^ e <= m) as Hm.
  { unfold m, nearest_even. repeat case_match; lia. }
  assert (2 ^ 53 = 2 ^ 52 * 2) as -> by reflexivity.
  assert (2 <= 2 ^ e) by (change 2 with (2 ^ 1) at 1; apply Z.pow_le_mono_r; lia).
  nia.
Qed.

(** An integer of at most 2^53 in magnitude is a double. *)
Lemma binary64_Int z : Z.abs z <= 2 ^ 53 -> binary64 (inject_Z z) = Int z.
Proof.
  intros Hz. unfold binary64. rewrite Qred_inject_Z. cbn [inject_Z Qnum Qden].
  destruct (decide (Z.abs z = 2 ^ 53)) as [E|E].
  { assert (z = 2 ^ 53 \/ z = - 2 ^ 53) as [-> | ->] by lia; vm_compute; reflexivity. }
  destruct z as [|p|p]; [reflexivity| |].
  - rewrite round_pos_small by lia. reflexivity.
  - rewrite round_pos_small by lia. reflexivity.
Qed.

(** Rounding an integer gives an integer or an infinity, and never crosses
    2^53. *)
Lemma binary64_integer z :
  (exists s, binary64 (inject_Z z) = Infinity s /\ 2 ^ 53 <= Z.abs z)
  \/ exists z', binary64 (inject_Z z) = Int z'
                /\ (Z.abs z <= 2 ^ 53 -> z' = z)
                /\ (2 ^ 53 <= Z.abs z -> 2 ^ 53 <= Z.abs z').
Proof.
  destruct (Z.le_gt_cases (Z.abs z) (2 ^ 53)) as [Hs|Hl].
  { right. exists z. rewrite binary64_Int by exact Hs.
    split; [reflexivity|]. split; intros; [reflexivity|assumption]. }
  unfold binary64. rewrite Qred_inject_Z. cbn [inject_Z Qnum Qden].
  destruct z as [|p|p]; [lia| |].
  - destruct (round_pos_large (Z.pos p)) as [->|(z' & -> & Hz')]; [lia| |].
    + left. exists false. split; [reflexivity|lia].
    + right. exists z'. split; [reflexivity|]. split; intros; lia.
  - destruct (round_pos_large (Z.pos p)) as [->|(z' & -> & Hz')]; [lia| |].
    + left. exists true. split; [reflexivity|lia].
    + right. exists (- z'). split; [reflexivity|]. split; intros; lia.
Qed.

End Float64Facts.

(** *** The parsers on runs of digits *)

Module TimeUtilFacts.
Import Float64 Float64Facts TimeUtil.

Lemma take_digits_app ds rest :
  digits_only ds = true -> stops_digits rest = true ->
  take_digits (ds +:+ rest) = (ds, rest).
Proof.
  induction ds as [|c ds IH]; simpl; intros Hd Hr.
  - destruct rest as [|c r]; simpl in *; [done|].
    apply negb_true_iff in Hr. by rewrite Hr.
  - apply andb_true_iff in Hd as [Hc Hd]. by rewrite Hc, IH.
Qed.

Lemma take_digits_all ds : digits_only ds = true -> take_digits ds = (ds, EmptyString).
Proof.
  induction ds as [|c ds IH]; simpl; intros Hd; [done|].
  apply andb_true_iff in Hd as [Hc Hd]. by rewrite Hc, IH.
Qed.

Lemma take_digits_digits s : digits_only (fst (take_digits s)) = true.
Proof.
  induction s as [|c s IH]; [done|]. simpl.
  destruct (is_digit c) eqn:Ec; [|done].
  destruct (take_digits s) as [ds rest]. simpl in *. by rewrite Ec.
Qed.

Lemma unit_stops u : is_unit u = true -> is_digit u = false.
Proof.
  destruct u as [[] [] [] [] [] [] [] []]; simpl; try discriminate; reflexivity.
Qed.

Lemma regex_match_unit c ds u rest :
  digits_only (String c ds) = true -> is_unit u = true ->
  regex_match (String c ds +:+ String u rest) = Some (String c ds, u).
Proof.
  intros Hd Hu.
  assert (Hm : match_here (String c ds +:+ String u rest) = Some (String c ds, u)).
  { unfold match_here. rewrite take_digits_app; [by rewrite Hu|done|].
    simpl. by rewrite unit_stops. }
  change (String c ds +:+ String u rest) with (String c (ds +:+ String u rest)) in *.
  simpl regex_match. by rewrite Hm.
Qed.

Lemma regex_match_digits ds : digits_only ds = true -> regex_match ds = None.
Proof.
  induction ds as [|c ds IH]; intros Hd; [done|].
  pose proof Hd as Hd'. simpl in Hd'. apply andb_true_iff in Hd' as [_ Hds].
  simpl regex_match. unfold match_here. rewrite take_digits_all by done. auto.
Qed.

Lemma match_here_Some s m u :
  match_here s = Some (m, u) ->
  is_unit u = true /\ exists c ds, m = String c ds /\ digits_only (String c ds) = true.
Proof.
  unfold match_here. pose proof (take_digits_digits s) as Hd.
  destruct (take_digits s) as [[|c ds] [|u' rest]]; try discriminate.
  destruct (is_unit u') eqn:Eu; [|discriminate].
  intros [= <- <-]. split; [done|]. by exists c, ds.
Qed.

Lemma regex_match_Some s m u :
  regex_match s = Some (m, u) ->
  is_unit u = true /\ exists c ds, m = String c ds /\ digits_only (String c ds) = true.
Proof.
  induction s as [|c s IH]; [done|]. cbn [regex_match].
  destruct (match_here (String c s)) as [r|] eqn:E; [|exact IH].
  intros [= ->]. by apply match_here_Some in E.
Qed.

Lemma regex_match_skip p s :
  TextSpec.no_digit p = true -> regex_match (p +:+ s) = regex_match s.
Proof.
  induction p as [|c p IH]; [done|]. simpl. intros [Hc Hp]%andb_true_iff.
  apply negb_true_iff in Hc. unfold match_here. simpl. rewrite Hc. by apply IH.
Qed.

Lemma skip_space_stops s : drop_space s = None -> skip_space s = s.
Proof.
  intros E. unfold skip_space. destruct (String.length s); [done|].
  simpl. by rewrite E.
Qed.

Lemma drop_space_digit c s : is_digit c = true -> drop_space (String c s) = None.
Proof.
  destruct c as [[] [] [] [] [] [] [] []]; simpl; try discriminate; intros _;
    by destruct s as [|c2 [|c3 r]].
Qed.

Lemma drop_space_minus s : drop_space (String "-" s) = None.
Proof. by destruct s as [|c2 [|c3 r]]. Qed.

Lemma digit_not_sign c : is_digit c = true -> c <> "-"%char /\ c <> "+"%char.
Proof. intros H; split; intros ->; discriminate. Qed.

(** [parseInt] on a run of digits: its value, rounded. *)
Lemma parseInt_digits c ds :
  digits_only (String c ds) = true ->
  parseInt (String c ds) = binary64 (inject_Z (digits_to_Z 0 (String c ds))).
Proof.
  intros Hd. pose proof Hd as Hc. simpl in Hc. apply andb_true_iff in Hc as [Hc _].
  unfold parseInt. rewrite (skip_space_stops _ (drop_space_digit c ds Hc)).
  destruct (digit_not_sign c Hc) as [Hm Hp].
  assert ((let '(neg, s2) :=
             match String c ds with
             | String "-" r => (true, r)
             | String "+" r => (false, r)
             | _ => (false, String c ds)
             end%char in
           match (take_digits s2).1 with
           | EmptyString => NaN
           | ds0 => binary64 (inject_Z (if neg : bool then - digits_to_Z 0 ds0
                                        else digits_to_Z 0 ds0))
           end) = binary64 (inject_Z (digits_to_Z 0 (String c ds)))) as Hgoal;
    [|exact Hgoal].
  destruct c as [[] [] [] [] [] [] [] []]; try congruence;
    rewrite take_digits_all by done; reflexivity.
Qed.

Lemma parseInt_minus_digits c ds :
  digits_only (String c ds) = true ->
  parseInt (String "-" (String c ds)) = binary64 (inject_Z (- digits_to_Z 0 (String c ds))).
Proof.
  intros Hd. unfold parseInt. rewrite (skip_space_stops _ (drop_space_minus _)).
  by rewrite take_digits_all by done.
Qed.

Lemma digits_to_Z_acc s acc :
  digits_to_Z acc s = acc * 10 ^ Z.of_nat (String.length s) + digits_to_Z 0 s.
Proof.
  revert acc. induction s as [|c s IH]; intros acc; simpl String.length; simpl digits_to_Z.
  - change (Z.of_nat 0) with 0. lia.
  - rewrite (IH (acc * 10 + digit_value c)), (IH (0 * 10 + digit_value c)).
    rewrite Nat2Z.inj_succ, Z.pow_succ_r by lia. ring.
Qed.

Lemma digit_value_bounds c : is_digit c = true -> 0 <= digit_value c <= 9.
Proof.
  unfold is_digit, digit_value. intros [H1 H2]%andb_true_iff.
  apply N.leb_le in H1, H2. lia.
Qed.

Lemma digits_to_Z_nonneg s acc :
  digits_only s = true -> 0 <= acc -> 0 <= digits_to_Z acc s.
Proof.
  revert acc. induction s as [|c s IH]; intros acc Hd Ha; simpl; [done|].
  simpl in Hd. apply andb_true_iff in Hd as [Hc Hd].
  pose proof (digit_value_bounds c Hc). apply IH; [done|lia].
Qed.

Lemma binary64_not_NaN q : binary64 q <> NaN.
Proof. unfold binary64. by repeat case_match. Qed.

Lemma mul_Int a b :
  mul (Int a) (Int b) = binary64 (inject_Z (a * b)).
Proof. unfold mul, Int. apply binary64_proper. by rewrite inject_Z_mult. Qed.

(** A product of integers that fits is exact. *)
Lemma mul_Int_exact a b : Z.abs (a * b) <= 2 ^ 53 -> mul (Int a) (Int b) = Int (a * b).
Proof. intros H. by rewrite mul_Int, binary64_Int. Qed.

Lemma div_Int a b :
  b <> 0 -> div (Int a) (Int b) = binary64 (inject_Z a / inject_Z b).
Proof.
  intros Hb. unfold div, Int, is_zero. cbn [inject_Z Qnum].
  by destruct (Z.eqb_spec b 0).
Qed.

(** Seconds for a run of digits followed by a unit, leading zeros allowed. *)
Lemma parseExpiresToSeconds_unit c ds u rest :
  digits_only (String c ds) = true -> is_unit u = true ->
  digits_to_Z 0 (String c ds) * factor u <= 2 ^ 53 ->
  parseExpiresToSeconds (String c ds +:+ String u rest)
  = Int (digits_to_Z 0 (String c ds) * factor u).
Proof.
  intros Hd Hu Hb. unfold parseExpiresToSeconds.
  rewrite regex_match_unit by done. rewrite parseInt_digits by done.
  pose proof (digits_to_Z_nonneg _ 0 Hd (Z.le_refl 0)) as H0.
  set (a := digits_to_Z 0 (String c ds)) in *.
  assert (binary64 (inject_Z a) = Int a) as ->.
  { apply binary64_Int.
    destruct u as [[] [] [] [] [] [] [] []]; simpl in Hu; try discriminate;
      unfold factor in Hb; lia. }
  destruct u as [[] [] [] [] [] [] [] []]; simpl in Hu; try discriminate;
    unfold factor in *; rewrite ?Z.mul_1_r; try reflexivity;
    apply mul_Int_exact; lia.
Qed.

Lemma parseExpiresToSeconds_bare c ds :
  digits_only (String c ds) = true ->
  digits_to_Z 0 (String c ds) <= 2 ^ 53 ->
  parseExpiresToSeconds (String c ds) = Int (digits_to_Z 0 (String c ds)).
Proof.
  intros Hd Hb. unfold parseExpiresToSeconds.
  rewrite regex_match_digits by done. rewrite parseInt_digits by done.
  pose proof (digits_to_Z_nonneg _ 0 Hd (Z.le_refl 0)) as H0.
  apply binary64_Int. lia.
Qed.

(** *** The decimal numerals of [pretty] *)

Lemma pretty_N_char_digit k : is_digit (pretty_N_char k) = true.
Proof. unfold pretty_N_char. repeat case_match; reflexivity. Qed.

Lemma pretty_N_char_value k : (k < 10)%N -> digit_value (pretty_N_char k) = Z.of_N k.
Proof.
  intros Hk.
  assert (k = 0 ∨ k = 1 ∨ k = 2 ∨ k = 3 ∨ k = 4 ∨ k = 5 ∨ k = 6
          ∨ k = 7 ∨ k = 8 ∨ k = 9)%N as Hcases by lia.
  repeat destruct Hcases as [->|Hcases]; try subst k; reflexivity.
Qed.

Lemma pretty_N_go_digits x s :
  digits_only s = true -> digits_only (pretty_N_go x s) = true.
Proof.
  revert s. induction (N.lt_wf_0 x) as [x _ IH]; intros s Hs.
  destruct (decide (x = 0%N)) as [->|Hx]; [by rewrite pretty_N_go_0|].
  rewrite pretty_N_go_step by lia. apply IH.
  - apply N.div_lt; lia.
  - simpl. by rewrite pretty_N_char_digit.
Qed.

Lemma pretty_N_go_value x s :
  digits_to_Z 0 (pretty_N_go x s)
  = Z.of_N x * 10 ^ Z.of_nat (String.length s) + digits_to_Z 0 s.
Proof.
  revert s. induction (N.lt_wf_0 x) as [x _ IH]; intros s.
  destruct (decide (x = 0%N)) as [->|Hx]; [rewrite pretty_N_go_0; lia|].
  rewrite pretty_N_go_step by lia. rewrite IH by (apply N.div_lt; lia).
  simpl String.length. simpl digits_to_Z.
  rewrite (digits_to_Z_acc s), pretty_N_char_value by (apply N.mod_lt; lia).
  rewrite Nat2Z.inj_succ, Z.pow_succ_r by lia.
  rewrite (N.div_mod x 10) at 3 by lia.
  rewrite N2Z.inj_add, N2Z.inj_mul. change (Z.of_N 10) with 10. ring.
Qed.

Lemma pretty_N_numeral (n : N) :
  exists c ds, pretty n = String c ds /\ digits_only (String c ds) = true
               /\ digits_to_Z 0 (String c ds) = Z.of_N n.
Proof.
  unfold pretty, pretty_N. destruct (decide (n = 0%N)) as [->|Hn].
  - by exists "0"%char, EmptyString.
  - pose proof (pretty_N_go_digits n EmptyString eq_refl) as Hd.
    pose proof (pretty_N_go_value n EmptyString) as Hv.
    simpl in Hv. rewrite Z.mul_1_r, Z.add_0_r in Hv.
    destruct (pretty_N_go n EmptyString) as [|c ds] eqn:E.
    + simpl in Hv. lia.
    + by exists c, ds.
Qed.

End TimeUtilFacts.

Module DurationGrammar.
Import Float64 Float64Facts TimeUtil TimeUtilFacts.

Lemma factor_pos u : 1 <= factor u.
Proof. unfold factor. repeat case_match; lia. Qed.

Lemma reads_unit c ds u defaultValue :
  digits_only (String c ds) = true -> is_unit u = true ->
  digits_to_Z 0 (String c ds) * factor u <= 2 ^ 53 ->
  reads (String c ds +:+ String u EmptyString) defaultValue
        (digits_to_Z 0 (String c ds) * factor u).
Proof.
  intros Hd Hu Hb. split; [by apply parseExpiresToSeconds_unit|].
  unfold parseExpiresToDays. rewrite regex_match_unit by done.
  rewrite parseInt_digits by done.
  pose proof (digits_to_Z_nonneg _ 0 Hd (Z.le_refl 0)) as H0.
  set (a := digits_to_Z 0 (String c ds)) in *.
  pose proof (factor_pos u) as Hf.
  rewrite (binary64_Int a) by nia.
  rewrite (div_Int (a * factor u)) by done.
  destruct u as [[] [] [] [] [] [] [] []]; simpl in Hu; try discriminate;
    unfold factor in *; rewrite ?div_Int by done;
    try (rewrite <- (binary64_Int a) by lia);
    apply binary64_proper; rewrite ?inject_Z_mult; field.
Qed.

Lemma reads_bare c ds defaultValue :
  digits_only (String c ds) = true ->
  digits_to_Z 0 (String c ds) <= 2 ^ 53 ->
  reads (String c ds) defaultValue (digits_to_Z 0 (String c ds)).
Proof.
  intros Hd Hb. split; [by apply parseExpiresToSeconds_bare|].
  unfold parseExpiresToDays. rewrite regex_match_digits by done.
  rewrite parseInt_digits by done.
  pose proof (digits_to_Z_nonneg _ 0 Hd (Z.le_refl 0)) as H0.
  by rewrite binary64_Int by lia.
Qed.

Lemma signed_unit c ds u :
  digits_only (String c ds) = true -> is_unit u = true ->
  digits_to_Z 0 (String c ds) * factor u <= 2 ^ 53 ->
  parseExpiresToSeconds ("-" +:+ String c ds +:+ String u EmptyString)
  = Int (digits_to_Z 0 (String c ds) * factor u).
Proof.
  intros Hd Hu Hb.
  rewrite <- (parseExpiresToSeconds_unit c ds u EmptyString) by done.
  unfold parseExpiresToSeconds.
  change (regex_match ("-" +:+ String c ds +:+ String u EmptyString))
    with (regex_match (String c ds +:+ String u EmptyString)).
  by rewrite regex_match_unit by done.
Qed.

Lemma signed_bare c ds :
  digits_only (String c ds) = true ->
  digits_to_Z 0 (String c ds) <= 2 ^ 53 ->
  parseExpiresToSeconds ("-" +:+ String c ds) = Int (- digits_to_Z 0 (String c ds)).
Proof.
  intros Hd Hb. unfold parseExpiresToSeconds.
  change ("-" +:+ String c ds) with (String "-" (String c ds)).
  change (regex_match (String "-" (String c ds))) with (regex_match (String c ds)).
  rewrite regex_match_digits by done.
  rewrite parseInt_minus_digits by done.
  pose proof (digits_to_Z_nonneg _ 0 Hd (Z.le_refl 0)) as H0.
  apply binary64_Int. lia.
Qed.

(** C9, as the code has it.  For every natural number n, written in
    decimal: the string n followed by s, m, h or d parses to n times 1, 60,
    3600 or 86400 seconds when that product is at most 2^53, and the bare
    string n to n seconds when n is at most 2^53; on each of these strings
    [parseExpiresToDays] returns those seconds divided by 86400, as a
    double.  A minus sign before n is kept by the bare string and lost when
    a unit follows. *)
Theorem duration_grammar (n : N) (defaultValue : double) :
  (forall u, is_unit u = true -> Z.of_N n * factor u <= 2 ^ 53 ->
     reads (pretty n +:+ String u EmptyString) defaultValue (Z.of_N n * factor u)
     /\ parseExpiresToSeconds ("-" +:+ pretty n +:+ String u EmptyString)
        = Int (Z.of_N n * factor u))
  /\ (Z.of_N n <= 2 ^ 53 ->
      reads (pretty n) defaultValue (Z.of_N n)
      /\ parseExpiresToSeconds ("-" +:+ pretty n) = Int (- Z.of_N n)).
Proof.
  destruct (pretty_N_numeral n) as (c & ds & -> & Hd & Hv).
  split.
  - intros u Hu Hb. rewrite <- Hv in *. split.
    + by apply reads_unit.
    + by apply signed_unit.
  - intros Hb. rewrite <- Hv in *. split.
    + by apply reads_bare.
    + by apply signed_bare.
Qed.

(** C9 as the claim words it fails on a signed integer followed by a unit,
    whose sign is not part of the match, and on an integer that no double
    holds. *)
Lemma duration_grammar_fails_on_sign_and_size :
  parseExpiresToSeconds "-5s" = Int 5
  /\ parseExpiresToSeconds "-5s" <> Int (-5 * 1)
  /\ parseExpiresToSeconds "9007199254740993s" = Int 9007199254740992
  /\ parseExpiresToSeconds "9007199254740993s" <> Int (9007199254740993 * 1)
  /\ parseExpiresToSeconds "9007199254740993" <> Int 9007199254740993.
Proof. vm_compute. repeat split; discriminate. Qed.

End DurationGrammar.

(** ** The reported lifetime and the lifetime the codec signs *)

Module ReportedExpiry.
Import TimeUtil TimeUtilFacts.

Lemma unit_is_plain u :
  is_unit u = true ->
  u <> "."%char /\ u <> " "%char /\ Jsonwebtoken.lower u = u.
Proof.
  destruct u as [[] [] [] [] [] [] [] []]; simpl; try discriminate; done.
Qed.

Lemma unit_ms_factor u :
  is_unit u = true ->
  Jsonwebtoken.unit_ms (String u EmptyString) = Some (inject_Z (factor u * 1000)).
Proof.
  destruct u as [[] [] [] [] [] [] [] []]; simpl; try discriminate;
    intros _; vm_compute; reflexivity.
Qed.

Lemma ms_number_unit c ds u :
  digits_only (String c ds) = true -> is_unit u = true ->
  Jsonwebtoken.ms_number (String c ds +:+ String u EmptyString)
  = Some (inject_Z (digits_to_Z 0 (String c ds)), String u EmptyString).
Proof.
  intros Hd Hu. pose proof Hd as Hc. simpl in Hc. apply andb_true_iff in Hc as [Hc _].
  destruct (digit_not_sign c Hc) as [Hm _].
  destruct (unit_is_plain u Hu) as (Hdot & _ & _).
  pose proof (take_digits_app (String c ds) (String u EmptyString) Hd) as Ht.
  simpl stops_digits in Ht. rewrite (unit_stops u Hu) in Ht. specialize (Ht eq_refl).
  assert (Jsonwebtoken.strip_minus (String c ds +:+ String u EmptyString)
          = (false, String c ds +:+ String u EmptyString)) as Hs.
  { destruct c as [[] [] [] [] [] [] [] []]; try congruence; reflexivity. }
  unfold Jsonwebtoken.ms_number. rewrite Hs, Ht.
  destruct u as [[] [] [] [] [] [] [] []]; try congruence; reflexivity.
Qed.

Lemma Qfloor_seconds (a b f : Z) :
  Qfloor (inject_Z a + inject_Z b * inject_Z (f * 1000) / 1000)%Q = a + b * f.
Proof.
  rewrite <- (Qfloor_Z (a + b * f)). apply Qfloor_comp.
  rewrite inject_Z_plus, !inject_Z_mult. field.
Qed.

(** On a number followed by s, m, h or d the two readings agree: the codec
    signs the lifetime that [parseExpiresToSeconds] reports. *)
Lemma timespan_unit c ds u (timestamp : Z) :
  digits_only (String c ds) = true -> is_unit u = true ->
  (JSString.utf16_length (String c ds +:+ String u EmptyString) <= 100)%nat ->
  digits_to_Z 0 (String c ds) * factor u * 1000 <= 2 ^ 53 ->
  Jsonwebtoken.timespan (String c ds +:+ String u EmptyString) timestamp
  = Some (timestamp + digits_to_Z 0 (String c ds) * factor u)
  /\ parseExpiresToSeconds (String c ds +:+ String u EmptyString)
     = Float64.Int (digits_to_Z 0 (String c ds) * factor u).
Proof.
  intros Hd Hu Hlen Hfit. split.
  2:{ apply parseExpiresToSeconds_unit; [done..|].
      pose proof (digits_to_Z_nonneg _ 0 Hd (Z.le_refl 0)).
      pose proof (DurationGrammar.factor_pos u). nia. }
  unfold Jsonwebtoken.timespan, Jsonwebtoken.ms.
  destruct (100 <? _)%nat eqn:E; [apply Nat.ltb_lt in E; lia|].
  rewrite ms_number_unit by done.
  destruct (unit_is_plain u Hu) as (_ & Hsp & Hlow).
  assert (Jsonwebtoken.skip_blanks (String u EmptyString) = String u EmptyString) as Hb.
  { destruct u as [[] [] [] [] [] [] [] []]; try congruence; reflexivity. }
  assert (Jsonwebtoken.lowercase (String u EmptyString) = String u EmptyString) as Hl.
  { simpl. by rewrite Hlow. }
  cbn [mbind option_bind]. rewrite Hb, Hl, unit_ms_factor by done.
  cbn [mbind option_bind]. by rewrite Qfloor_seconds.
Qed.

(** C8, at the configuration JWT_ACCESS_EXPIRES_IN=900: [issueTokens]
    reports 900 seconds, while the access token it returns was signed to
    expire at the second it was issued, the codec reading the bare number as
    milliseconds. *)
Theorem bare_number_lifetime_drift :
  let configService : gmap string string := {[ "jwt.accessExpiresIn" := "900" ]} in
  let jwt := AuthModule_jwt configService in
  let this := {| tokenService := TokenService.new jwt configService;
                 configService := configService |} in
  (fst (AuthService.issueTokens (H := Scenario.codec) this 7 USER None Scenario.boot)
   = Return {| accessToken := "7.1000000"; refreshToken := "uuid-0";
               expiresIn := Float64.Int 900 |})
  /\ signed_claims jwt {| payload_sub := 7; payload_role := USER |} (clock Scenario.boot)
     = Some {| sub := 7; claim_role := USER; iat := 1000000; exp := 1000000 |}
  /\ reported_lifetime configService = Float64.Int 900
  /\ signed_lifetime jwt {| payload_sub := 7; payload_role := USER |} (clock Scenario.boot)
     = Some 0.
Proof. vm_compute. done. Qed.

End ReportedExpiry.

(** ** Running store commands *)

Module StoreFacts.
Import Redis TokenService.

Lemma healthy_answers w : healthy w -> answers w.
Proof. unfold healthy, answers. by intros ->. Qed.

Lemma healthy_sent c w : healthy w -> healthy (sent c w).
Proof. unfold healthy. simpl. by intros ->. Qed.

Lemma bind_run {A B} (m : M A) (f : A -> M B) w :
  (m ≫= f) w = match m w with
               | (Return a, w') => f a w'
               | (Throw e, w') => (Throw e, w')
               end.
Proof. reflexivity. Qed.

Lemma send_run c w :
  send c w = (if hd false (faults w) then Throw UNAVAILABLE else Return tt, sent c w).
Proof. unfold send. by destruct (faults w) as [|[] ?]. Qed.

Lemma get_run k w :
  get k w =
  (if hd false (faults w) then Throw UNAVAILABLE
   else match peek (clock w) k (store w) with
        | None => Return None
        | Some (Entry (RStr t) _) => Return (Some t)
        | Some (Entry (RSet _) _) => Throw WRONGTYPE
        end, sent (GET k) w).
Proof.
  unfold get. rewrite bind_run, send_run. destruct (hd false (faults w)); [done|].
  unfold mbind, M_bind, get_world, mret, M_ret, throw. simpl.
  by destruct (peek _ _ _) as [[[] ?]|].
Qed.

Lemma setex_run k seconds v w :
  setex k seconds v w =
  if hd false (faults w) then (Throw UNAVAILABLE, sent (SETEX k seconds v) w)
  else match seconds with
       | Some ttl =>
           if 0 <? ttl
           then (Return tt,
                 set_store (insert k (Entry (RStr v) (Some (clock w + ttl * 1000))))
                           (sent (SETEX k seconds v) w))
           else (Throw INVALID_EXPIRE, sent (SETEX k seconds v) w)
       | None => (Throw INVALID_EXPIRE, sent (SETEX k seconds v) w)
       end.
Proof.
  unfold setex. rewrite bind_run, send_run. destruct (hd false (faults w)); [done|].
  unfold mbind, M_bind, get_world, mret, M_ret, throw, modify_store. simpl.
  destruct seconds as [ttl|]; [|done]. by destruct (0 <? ttl).
Qed.

Lemma del_run k w :
  del k w =
  if hd false (faults w) then (Throw UNAVAILABLE, sent (DEL k) w)
  else (Return (match peek (clock w) k (store w) with Some _ => 1 | None => 0 end),
        set_store (delete k) (sent (DEL k) w)).
Proof.
  unfold del. rewrite bind_run, send_run. destruct (hd false (faults w)); [done|].
  unfold mbind, M_bind, get_world, mret, M_ret, throw, modify_store. simpl.
  by destruct (peek _ _ _).
Qed.

Lemma exists_run k w :
  exists_ k w =
  (if hd false (faults w) then Throw UNAVAILABLE
   else Return (match peek (clock w) k (store w) with Some _ => 1 | None => 0 end), sent (EXISTS k) w).
Proof.
  unfold exists_. rewrite bind_run, send_run. destruct (hd false (faults w)); [done|].
  unfold mbind, M_bind, get_world, mret, M_ret, throw. simpl.
  by destruct (peek _ _ _).
Qed.

Lemma sadd_run k member w :
  sadd k member w =
  if hd false (faults w) then (Throw UNAVAILABLE, sent (SADD k member) w)
  else match peek (clock w) k (store w) with
       | None =>
           (Return 1, set_store (insert k (Entry (RSet {[ member ]}) None))
                                (sent (SADD k member) w))
       | Some (Entry (RSet s) ex) =>
           (Return (if decide (member ∈ s) then 0 else 1),
            set_store (insert k (Entry (RSet ({[ member ]} ∪ s)) ex))
                      (sent (SADD k member) w))
       | Some (Entry (RStr _) _) => (Throw WRONGTYPE, sent (SADD k member) w)
       end.
Proof.
  unfold sadd. rewrite bind_run, send_run. destruct (hd false (faults w)); [done|].
  unfold mbind, M_bind, get_world, mret, M_ret, throw, modify_store. simpl.
  by destruct (peek _ _ _) as [[[] ?]|].
Qed.

Lemma srem_run k member w :
  srem k member w =
  if hd false (faults w) then (Throw UNAVAILABLE, sent (SREM k member) w)
  else match peek (clock w) k (store w) with
       | None => (Return 0, sent (SREM k member) w)
       | Some (Entry (RSet s) ex) =>
           (Return (if decide (member ∈ s) then 1 else 0),
            set_store (if decide (s ∖ {[ member ]} = ∅) then delete k
                       else insert k (Entry (RSet (s ∖ {[ member ]})) ex))
                      (sent (SREM k member) w))
       | Some (Entry (RStr _) _) => (Throw WRONGTYPE, sent (SREM k member) w)
       end.
Proof.
  unfold srem. rewrite bind_run, send_run. destruct (hd false (faults w)); [done|].
  unfold mbind, M_bind, get_world, mret, M_ret, throw, modify_store. simpl.
  destruct (peek _ _ _) as [[[] ?]|]; try done. by case_decide.
Qed.

Lemma smembers_run k w :
  smembers k w =
  (if hd false (faults w) then Throw UNAVAILABLE
   else match peek (clock w) k (store w) with
        | None => Return []
        | Some (Entry (RSet s) _) => Return (elements s)
        | Some (Entry (RStr _) _) => Throw WRONGTYPE
        end, sent (SMEMBERS k) w).
Proof.
  unfold smembers. rewrite bind_run, send_run. destruct (hd false (faults w)); [done|].
  unfold mbind, M_bind, get_world, mret, M_ret, throw. simpl.
  by destruct (peek _ _ _) as [[[] ?]|].
Qed.

Lemma expire_run k ttl w :
  expire k (Some ttl) w =
  if hd false (faults w) then (Throw UNAVAILABLE, sent (EXPIRE k (Some ttl)) w)
  else match peek (clock w) k (store w) with
       | None => (Return 0, sent (EXPIRE k (Some ttl)) w)
       | Some e =>
           (Return 1,
            set_store (if 0 <? ttl
                       then insert k (Entry (value e) (Some (clock w + ttl * 1000)))
                       else delete k)
                      (sent (EXPIRE k (Some ttl)) w))
       end.
Proof.
  unfold expire. rewrite bind_run, send_run. destruct (hd false (faults w)); [done|].
  unfold mbind, M_bind, get_world, mret, M_ret, throw, modify_store. simpl.
  destruct (peek _ _ _); [|done]. by destruct (0 <? ttl).
Qed.

(** Unfolding binds and the pure steps of a run. *)
Ltac run :=
  repeat progress
    (rewrite ?bind_run;
     cbn [store clock faults log sent set_store hd tail fst snd
          mret M_ret throw JSON_parse now_ms]).

(** *** Keys *)

Lemma refreshTokenKey_inj t1 t2 : refreshTokenKey t1 = refreshTokenKey t2 -> t1 = t2.
Proof. unfold refreshTokenKey. by intros H%(inj (String.app _)). Qed.

Lemma blacklistKey_inj a1 a2 : blacklistKey a1 = blacklistKey a2 -> a1 = a2.
Proof. unfold blacklistKey. by intros H%(inj (String.app _)). Qed.

Lemma userTokensKey_inj u1 u2 : userTokensKey u1 = userTokensKey u2 -> u1 = u2.
Proof.
  unfold userTokensKey. intros H%(inj (String.app _)). by apply (inj pretty).
Qed.

Lemma refresh_ne_user t u : refreshTokenKey t <> userTokensKey u.
Proof. discriminate. Qed.

Lemma refresh_ne_blacklist t a : refreshTokenKey t <> blacklistKey a.
Proof. discriminate. Qed.

Lemma user_ne_blacklist u a : userTokensKey u <> blacklistKey a.
Proof. discriminate. Qed.

(** *** Reading the store *)

Lemma peek_insert_eq now k e db :
  peek now k (<[k := e]> db) = if live now e then Some e else None.
Proof. unfold peek. by rewrite lookup_insert_eq. Qed.

Lemma peek_insert_ne now k k' e db :
  k <> k' -> peek now k' (<[k := e]> db) = peek now k' db.
Proof. intros. unfold peek. by rewrite lookup_insert_ne. Qed.

Lemma peek_delete_eq now k db : peek now k (delete k db) = None.
Proof. unfold peek. by rewrite lookup_delete_eq. Qed.

Lemma peek_delete_ne now k k' db :
  k <> k' -> peek now k' (delete k db) = peek now k' db.
Proof. intros. unfold peek. by rewrite lookup_delete_ne. Qed.

Lemma peek_Some now k db e :
  peek now k db = Some e <-> db !! k = Some e /\ live now e = true.
Proof.
  unfold peek. destruct (db !! k) as [e'|]; [|split; [done|by intros [? _]]].
  destruct (live now e') eqn:E; split.
  - by intros [= ->].
  - by intros [[= ->] _].
  - done.
  - intros [[= ->] ?]. congruence.
Qed.

Lemma live_mono now now' e : now' <= now -> live now e = true -> live now' e = true.
Proof.
  unfold live. destruct (expires e); [|done]. rewrite !Z.ltb_lt. lia.
Qed.

End StoreFacts.

(** ** The token service on a healthy store *)

Module TokenFacts.
Import Redis TokenService StoreFacts.

Lemma steady_refl w : healthy w -> steady w w.
Proof. by unfold steady. Qed.

Lemma steady_sent c w : healthy w -> steady w (sent c w).
Proof. intros Hw. unfold steady, healthy in *. simpl. by rewrite Hw. Qed.

Lemma steady_trans w1 w2 w3 : steady w1 w2 -> steady w2 w3 -> steady w1 w3.
Proof. unfold steady. intros (?&?&?&?&?) (?&?&?&?&?). repeat split; congruence. Qed.

Lemma steady_set_store f w w' : steady w w' -> steady w (set_store f w').
Proof. by unfold steady. Qed.

Ltac healthy_step Hw :=
  repeat progress
    (rewrite ?bind_run, ?get_run, ?srem_run, ?del_run, ?sadd_run, ?setex_run,
             ?expire_run, ?smembers_run, ?exists_run;
     cbn [store clock faults sent set_store hd tail fst snd
          mret M_ret throw JSON_parse now_ms];
     rewrite ?Hw; cbn [hd tail]).

Lemma try_catch_unit (m : M unit) w : fst (try_catch m (λ _, mret tt) w) = Return tt.
Proof. unfold try_catch. by destruct (m w) as [[[]|e] w']. Qed.

Lemma try_catch_null {A} (m : M (option A)) w :
  exists r w', try_catch m (λ _, mret None) w = (Return r, w').
Proof. unfold try_catch. destruct (m w) as [[r|e] w']; by eauto. Qed.

Lemma revoke_never_throws t w : fst (revokeRefreshToken t w) = Return tt.
Proof. apply try_catch_unit. Qed.

Lemma revoke_healthy t w :
  healthy w ->
  exists w', revokeRefreshToken t w = (Return tt, w')
             /\ store w' = revoke_store (clock w) t (store w) /\ steady w w'.
Proof.
  intros Hw. pose proof Hw as Hh. unfold healthy in Hw. unfold revokeRefreshToken, try_catch, revoke_store.
  healthy_step Hw.
  destruct (peek (clock w) (refreshTokenKey t) (store w)) as [[[[d|s]|s] ex]|] eqn:Ek;
    cbn [JSON_parse mret M_ret throw].
  - healthy_step Hw.
    destruct (peek (clock w) (userTokensKey (userId d)) (store w))
      as [[[tx|s] ex']|] eqn:Eu; healthy_step Hw.
    + eexists; split; [reflexivity|]. split; [done|]. unfold steady, healthy; simpl; by rewrite Hw.
    + eexists; split; [reflexivity|]. split; [|unfold steady, healthy; simpl; by rewrite Hw].
      simpl. by case_decide.
    + eexists; split; [reflexivity|]. split; [done|]. unfold steady, healthy; simpl; by rewrite Hw.
  - destruct s; eexists; (split; [reflexivity|]); (split; [done|]);
      unfold steady, healthy; simpl; by rewrite Hw.
  - eexists; split; [reflexivity|]. split; [done|]. unfold steady, healthy; simpl; by rewrite Hw.
  - eexists; split; [reflexivity|]. split; [done|]. unfold steady, healthy; simpl; by rewrite Hw.
Qed.

Lemma peek_revoke_store now t db : peek now (refreshTokenKey t) (revoke_store now t db) = None
  \/ revoke_store now t db = db.
Proof.
  unfold revoke_store.
  destruct (peek now (refreshTokenKey t) db) as [[[[d|s]|s] ex]|]; auto.
  destruct (peek now (userTokensKey (userId d)) db) as [[[tx|s] ex']|]; auto;
    left; apply peek_delete_eq.
Qed.

Lemma revoke_store_idem now t db :
  revoke_store now t (revoke_store now t db) = revoke_store now t db.
Proof.
  destruct (peek_revoke_store now t db) as [H|H]; [|by rewrite !H].
  unfold revoke_store at 1. by rewrite H.
Qed.

Lemma revoke_store_absent now t db :
  peek now (refreshTokenKey t) db = None -> revoke_store now t db = db.
Proof. unfold revoke_store. by intros ->. Qed.

Lemma verify_never_throws t w : exists r w', verifyRefreshToken t w = (Return r, w').
Proof. apply try_catch_null. Qed.

Lemma verify_healthy t w :
  healthy w ->
  exists w', verifyRefreshToken t w = (Return (verify_result (clock w) t (store w)), w')
             /\ store w' = verify_store (clock w) t (store w) /\ steady w w'.
Proof.
  intros Hw. pose proof Hw as Hh. unfold healthy in Hw. unfold verifyRefreshToken, try_catch, verify_result, verify_store.
  healthy_step Hw.
  destruct (peek (clock w) (refreshTokenKey t) (store w)) as [[[[d|s]|s] ex]|] eqn:Ek;
    cbn [JSON_parse mret M_ret throw].
  - healthy_step Hw. destruct (expiresAt d <? clock w) eqn:Ex.
    + healthy_step Hw.
      destruct (revoke_healthy t (sent (GET (refreshTokenKey t)) w)) as (w' & -> & Hs & Hst);
        [by apply healthy_sent|].
      eexists; split; [reflexivity|]. split; [exact Hs|].
      eapply steady_trans; [|exact Hst]. by apply steady_sent.
    + eexists; split; [reflexivity|]. split; [done|]. by apply steady_sent.
  - destruct s; eexists; (split; [reflexivity|]); (split; [done|]); by apply steady_sent.
  - eexists; split; [reflexivity|]. split; [done|]. by apply steady_sent.
  - eexists; split; [reflexivity|]. split; [done|]. by apply steady_sent.
Qed.

(** *** Calls whose commands are answered *)




Lemma answered_le n m w : answered n w -> (m <= n)%nat -> answered m w.
Proof. unfold answered. intros Ha Hle i Hi. apply Ha. lia. Qed.


End TokenFacts.

(** ** Revocation and verification of one refresh token *)

Module RefreshTokenStore.
Import Redis TokenService StoreFacts TokenFacts.

Lemma revoke_absent t w :
  peek (clock w) (refreshTokenKey t) (store w) = None ->
  store (snd (revokeRefreshToken t w)) = store w.
Proof.
  intros Hk. unfold revokeRefreshToken, try_catch.
  rewrite bind_run, get_run. destruct (hd false (faults w)); [done|].
  by rewrite Hk.
Qed.

Lemma peek_later now now' k db :
  now <= now' -> peek now' k db = None \/ peek now' k db = peek now k db.
Proof.
  intros Hle. unfold peek. destruct (db !! k) as [e|]; [|by left].
  destruct (live now' e) eqn:E; [|by left]. right.
  by rewrite (live_mono now' now e Hle E).
Qed.

(** Revoking again at a later instant changes nothing either, when the
    store answers and the owner's index key is a set. *)
Lemma revoke_store_idem_later now now' t db :
  now <= now' -> (forall u, index_is_set now u db) ->
  revoke_store now' t (revoke_store now t db) = revoke_store now t db.
Proof.
  intros Hle Hset. unfold revoke_store at 2 3.
  destruct (peek now (refreshTokenKey t) db) as [[[[d|s]|s] ex]|] eqn:Ek.
  - specialize (Hset (userId d)). unfold index_is_set in Hset.
    destruct (peek now (userTokensKey (userId d)) db) as [[[tx|s] ex']|]; [done|..];
      unfold revoke_store; by rewrite peek_delete_eq.
  - unfold revoke_store. destruct (peek_later now now' (refreshTokenKey t) db Hle)
      as [->| ->]; [done|]. by rewrite Ek.
  - unfold revoke_store. destruct (peek_later now now' (refreshTokenKey t) db Hle)
      as [->| ->]; [done|]. by rewrite Ek.
  - unfold revoke_store. destruct (peek_later now now' (refreshTokenKey t) db Hle)
      as [->| ->]; [done|]. by rewrite Ek.
Qed.

(** C7. Revoking never raises, whatever the store answers; revoking a
    token that has no record changes nothing; and on a store that answers,
    revoking twice in a row leaves the store as revoking once does. *)
Theorem revoke_idempotent t w :
  (fst (revokeRefreshToken t w) = Return tt
   /\ fst (revokeRefreshToken t (snd (revokeRefreshToken t w))) = Return tt)
  /\ (peek (clock w) (refreshTokenKey t) (store w) = None ->
      store (snd (revokeRefreshToken t w)) = store w)
  /\ (healthy w ->
      store (snd (revokeRefreshToken t (snd (revokeRefreshToken t w))))
      = store (snd (revokeRefreshToken t w))).
Proof.
  split; [split; apply revoke_never_throws|]. split; [apply revoke_absent|].
  intros Hw.
  destruct (revoke_healthy t w Hw) as (w1 & E1 & Hs1 & (Hc & Hh1 & _)).
  destruct (revoke_healthy t w1 Hh1) as (w2 & E2 & Hs2 & _).
  rewrite E1. cbn [snd]. rewrite E2. cbn [snd].
  rewrite Hs2, Hs1, Hc. apply revoke_store_idem.
Qed.

Lemma revoke_idempotent_witness :
  healthy Scenario.after_login
  /\ store (snd (revokeRefreshToken "uuid-0"
                   (snd (revokeRefreshToken "uuid-0" Scenario.after_login))))
     = store (snd (revokeRefreshToken "uuid-0" Scenario.after_login)).
Proof.
  split; [reflexivity|].
  apply (revoke_idempotent "uuid-0" Scenario.after_login). reflexivity.
Defined.

(** What it takes for verification to answer with a record. *)
Lemma verify_some t w d w' :
  verifyRefreshToken t w = (Return (Some d), w') ->
  answers w /\ verify_result (clock w) t (store w) = Some d
  /\ w' = sent (GET (refreshTokenKey t)) w.
Proof.
  unfold verifyRefreshToken, try_catch, verify_result, answers.
  rewrite bind_run, get_run. destruct (hd false (faults w)); [by intros [=]|].
  destruct (peek (clock w) (refreshTokenKey t) (store w)) as [[[[d'|s]|s] ex]|];
    cbn [JSON_parse mret M_ret throw]; try (by intros [=]).
  - run. destruct (expiresAt d' <? clock w).
    + run. destruct (revokeRefreshToken t (sent (GET (refreshTokenKey t)) w))
        as [[[]|e] w2]; by intros [=].
    + by intros [= -> <-].
  - destruct s; by intros [=].
Qed.

Lemma verify_store_expired now t db d ex :
  peek now (refreshTokenKey t) db = Some (Entry (RStr (JsonText d)) ex) ->
  expiresAt d < now -> index_is_set now (userId d) db ->
  verify_store now t db !! refreshTokenKey t = None.
Proof.
  intros Hk Hx Hi. unfold verify_store, revoke_store, index_is_set in *.
  rewrite Hk. apply Z.ltb_lt in Hx. rewrite Hx.
  destruct (peek now (userTokensKey (userId d)) db) as [[[tx|s] ex']|];
    [done|..]; apply lookup_delete_eq.
Qed.

Lemma verify_absent t w :
  peek (clock w) (refreshTokenKey t) (store w) = None ->
  fst (verifyRefreshToken t w) = Return None.
Proof.
  intros Hk. destruct (verify_never_throws t w) as (r & w' & E). rewrite E. cbn [fst].
  destruct r as [d|]; [|done].
  destruct (verify_some t w d w' E) as (_ & Hv & _).
  unfold verify_result in Hv. by rewrite Hk in Hv.
Qed.

(** C4. Verification always answers, never throws.  It answers null when
    the token has no record; when the record's own expiry instant is past
    (and then, the store answering and the owner's index being a set, the
    record is gone afterwards); and when a command of the call met a
    failure.  A record is answered only if it is there and not expired. *)
Theorem verify_fail_closed t w :
  exists r w',
    verifyRefreshToken t w = (Return r, w')
    /\ (peek (clock w) (refreshTokenKey t) (store w) = None -> r = None)
    /\ (forall d ex,
          peek (clock w) (refreshTokenKey t) (store w)
          = Some (Entry (RStr (JsonText d)) ex) ->
          expiresAt d < clock w ->
          r = None
          /\ (healthy w -> index_is_set (clock w) (userId d) (store w) ->
              store w' !! refreshTokenKey t = None))
    /\ (failed_during w w' -> r = None)
    /\ (forall d, r = Some d -> verify_result (clock w) t (store w) = Some d).
Proof.
  destruct (verify_never_throws t w) as (r & w' & E). exists r, w'.
  split; [done|].
  assert (forall d, r = Some d ->
            answers w /\ verify_result (clock w) t (store w) = Some d
            /\ w' = sent (GET (refreshTokenKey t)) w) as Hsome.
  { intros d ->. by apply verify_some. }
  repeat split.
  - intros Hk. destruct r as [d|]; [|done].
    destruct (Hsome d eq_refl) as (_ & Hv & _).
    unfold verify_result in Hv. by rewrite Hk in Hv.
  - destruct r as [d'|]; [|done].
    destruct (Hsome d' eq_refl) as (_ & Hv & _).
    unfold verify_result in Hv. rewrite H in Hv.
    apply Z.ltb_lt in H0. by rewrite H0 in Hv.
  - intros Hw Hi.
    destruct (verify_healthy t w Hw) as (w2 & E2 & Hs & _).
    rewrite E in E2. injection E2 as _ <-. rewrite Hs.
    by eapply verify_store_expired.
  - intros (i & Hi & Hf). destruct r as [d|]; [|done].
    destruct (Hsome d eq_refl) as (Ha & _ & ->).
    cbn [sent log] in Hi. rewrite length_app in Hi. cbn [length] in Hi.
    assert (i = 0%nat) as -> by lia.
    unfold answers in Ha. destruct (faults w) as [|b fs]; [done|].
    cbn in Ha, Hf. congruence.
  - intros d Hd. by destruct (Hsome d Hd) as (_ & Hv & _).
Qed.

End RefreshTokenStore.

Module RefreshTokenStoreWitness.
Import Redis TokenService StoreFacts TokenFacts RefreshTokenStore.

Lemma verify_fail_closed_witness :
  exists r w',
    verifyRefreshToken "old" Scenario.stale = (Return r, w')
    /\ r = None /\ store w' !! refreshTokenKey "old" = None.
Proof.
  destruct (verify_fail_closed "old" Scenario.stale) as (r & w' & E & _ & Hb & _).
  exists r, w'. split; [exact E|].
  destruct (Hb Scenario.stale_record (Some 1000001000)) as [Hr Hgone].
  - reflexivity.
  - reflexivity.
  - split; [exact Hr|]. apply Hgone; [reflexivity|]. by vm_compute.
Defined.

End RefreshTokenStoreWitness.

(** ** Rotation *)

Module Rotation.
Import Redis TokenService StoreFacts TokenFacts RefreshTokenStore.

Lemma verify_valid t w d :
  answers w -> verify_result (clock w) t (store w) = Some d ->
  verifyRefreshToken t w = (Return (Some d), sent (GET (refreshTokenKey t)) w).
Proof.
  unfold answers, verify_result, verifyRefreshToken, try_catch. intros Ha Hv.
  rewrite bind_run, get_run, Ha.
  destruct (peek (clock w) (refreshTokenKey t) (store w)) as [[[[d'|s]|s] ex]|];
    try discriminate.
  run. destruct (expiresAt d' <? clock w); [discriminate|]. by injection Hv as ->.
Qed.

(** C10. When the presented token verifies and its owner has no row, the
    rotation fails with NotFound before anything is revoked: the only
    command sent is the read, the store is as it was, and the same token
    still verifies, to the same record. *)
Theorem rotation_keeps_token_when_user_missing `{JwtCodec}
    (this : AuthService) (t : string) (options : option RequestMeta)
    (w w1 : world) (d : RefreshTokenData) :
  verifyRefreshToken t w = (Return (Some d), w1) ->
  users w !! userId d = None ->
  exists w',
    AuthService.refreshToken this t options w
    = (Throw (NotFoundException ErrorMessages.NOT_FOUND_WITH_ID (userId d)), w')
    /\ store w' = store w
    /\ log w' = log w ++ [GET (refreshTokenKey t)]
    /\ (answers w' -> fst (verifyRefreshToken t w') = Return (Some d)).
Proof.
  intros E Hu. destruct (verify_some t w d w1 E) as (Ha & Hv & ->).
  exists (sent (GET (refreshTokenKey t)) w).
  unfold AuthService.refreshToken, AuthService.refreshToken_resume,
    AuthService.refreshToken_revoke, UsersService.findOne.
  rewrite bind_run, E. run. cbn [get_world users sent]. rewrite Hu.
  repeat split. intros Ha'. by rewrite (verify_valid t _ d Ha' Hv).
Qed.

Lemma rotation_keeps_token_when_user_missing_witness :
  exists w',
    AuthService.refreshToken (H := Scenario.codec) Scenario.auth "uuid-0" None
      Scenario.orphaned
    = (Throw (NotFoundException ErrorMessages.NOT_FOUND_WITH_ID 7), w')
    /\ store w' = store Scenario.orphaned.
Proof.
  destruct (rotation_keeps_token_when_user_missing (H := Scenario.codec)
              Scenario.auth "uuid-0" None Scenario.orphaned
              (Redis.sent (GET (refreshTokenKey "uuid-0")) Scenario.orphaned)
              {| userId := 7; role := USER; expiresAt := 1604800000;
                 createdAt := 1000000000; ipAddress := None; userAgent := None |})
    as (w' & E & Hs & _).
  - by vm_compute.
  - reflexivity.
  - exists w'. by split.
Defined.

End Rotation.

(** ** The blacklist *)

Module Blacklist.
Import Redis TokenService StoreFacts TokenFacts.

Lemma blacklist_never_throws `{JwtCodec} this a w :
  fst (blacklistAccessToken this a w) = Return tt.
Proof. apply try_catch_unit. Qed.

(** Storing the marker with the default lifetime, inside both handlers. *)
Lemma default_marker_run (seconds : option Z) k w :
  answers w ->
  try_catch (try_catch (setex k seconds (Plain "1"))
                       (λ _, setex k seconds (Plain "1")))
            (λ _, mret tt) w
  = (Return tt,
     match usable_ttl seconds with
     | Some ttl => set_store (insert k (marker (clock w) ttl)) (sent (SETEX k seconds (Plain "1")) w)
     | None => sent (SETEX k seconds (Plain "1")) (sent (SETEX k seconds (Plain "1")) w)
     end).
Proof.
  unfold answers, try_catch, usable_ttl. intros Ha. rewrite setex_run, Ha.
  destruct seconds as [n|].
  - destruct (0 <? n) eqn:En; [done|].
    rewrite setex_run. cbn [faults sent clock]. rewrite En.
    by destruct (hd false (tail (faults w))).
  - rewrite setex_run. cbn [faults sent].
    by destruct (hd false (tail (faults w))).
Qed.

Lemma default_marker_after_throw (e : exn) (seconds : option Z) k w :
  answers w ->
  try_catch (try_catch (throw e) (λ _, setex k seconds (Plain "1")))
            (λ _, mret tt) w
  = (Return tt,
     match usable_ttl seconds with
     | Some ttl => set_store (insert k (marker (clock w) ttl)) (sent (SETEX k seconds (Plain "1")) w)
     | None => sent (SETEX k seconds (Plain "1")) w
     end).
Proof.
  unfold answers, try_catch, usable_ttl, throw. intros Ha. rewrite setex_run, Ha.
  destruct seconds as [n|]; [|done]. by destruct (0 <? n).
Qed.

Lemma blacklist_store `{JwtCodec} (this : TokenService) (a : string) (w : world) :
  answers w ->
  fst (blacklistAccessToken this a w) = Return tt
  /\ store (snd (blacklistAccessToken this a w))
     = match marker_ttl this (clock w / 1000) a with
       | Some ttl => <[blacklistKey a := marker (clock w) ttl]> (store w)
       | None => store w
       end.
Proof.
  intros Ha. split; [apply blacklist_never_throws|].
  pose proof (default_marker_run (seconds_argument (accessTokenExpirationSeconds this))
                (blacklistKey a) w Ha) as Hdefault.
  unfold blacklistAccessToken, marker_ttl.
  destruct (jwt_decode a) as [| |[e|]].
  - rewrite default_marker_after_throw by done. by destruct (usable_ttl _).
  - rewrite Hdefault. by destruct (usable_ttl _).
  - case_bool_decide.
    + rewrite Hdefault. by destruct (usable_ttl _).
    + unfold try_catch. run. destruct (0 <? e - clock w / 1000) eqn:Et.
      * unfold answers in Ha. rewrite setex_run, Ha, Et. done.
      * done.
  - rewrite Hdefault. by destruct (usable_ttl _).
Qed.

(** C3, as the code has it.  When the store answers the first command of
    the call, blacklisting never raises and leaves the store with exactly
    one change: the marker under the token's blacklist key, living for
    [marker_ttl] seconds; where [marker_ttl] is undefined (the token has
    already expired, or the configured default is needed and is not a
    positive whole number of seconds) the store is unchanged. *)
Theorem blacklist_marker `{JwtCodec} (this : TokenService) (a : string) (w : world) :
  answers w ->
  fst (blacklistAccessToken this a w) = Return tt
  /\ store (snd (blacklistAccessToken this a w))
     = match marker_ttl this (clock w / 1000) a with
       | Some ttl => <[blacklistKey a := marker (clock w) ttl]> (store w)
       | None => store w
       end.
Proof. intros Ha. exact (blacklist_store this a w Ha). Qed.

Lemma blacklist_marker_witness :
  answers Scenario.boot
  /\ store (snd (blacklistAccessToken (H := Scenario.codec) Scenario.tokens
                   "7.1000100" Scenario.boot))
     = <[blacklistKey "7.1000100" := marker 1000000000 100]> ∅.
Proof.
  split; [reflexivity|].
  apply (blacklist_marker (H := Scenario.codec) Scenario.tokens "7.1000100" Scenario.boot).
  reflexivity.
Defined.

(** C3 as the claim words it fails for a token that has already expired:
    the call stores nothing, and the token is not reported as blacklisted. *)
Lemma expired_token_gets_no_marker :
  let w' := snd (blacklistAccessToken (H := Scenario.codec) Scenario.tokens
                   "7.999" Scenario.boot) in
  jwt_decode (JwtCodec := Scenario.codec) "7.999" = DecodePayload (Some 999)
  /\ healthy Scenario.boot
  /\ accessTokenExpirationSeconds Scenario.tokens = Float64.Int 900
  /\ store w' !! blacklistKey "7.999" = None
  /\ store w' = ∅
  /\ fst (isAccessTokenBlacklisted "7.999" w') = Return false.
Proof. by vm_compute. Qed.

(** Whether the blacklist holds a token, on a store that answers. *)
Lemma isBlacklisted_run a w :
  answers w ->
  isAccessTokenBlacklisted a w
  = (Return (bool_decide (is_Some (peek (clock w) (blacklistKey a) (store w)))),
     sent (EXISTS (blacklistKey a)) w).
Proof.
  unfold answers, isAccessTokenBlacklisted, try_catch. intros Ha.
  rewrite bind_run, exists_run, Ha.
  by destruct (peek _ _ _) as [e|]; run.
Qed.

End Blacklist.

(** ** The request-time check *)

Module RequestAuthentication.
Import Redis TokenService StoreFacts TokenFacts Blacklist.

(** C6, as the code has it.  For a request carrying a bearer token: a token
    the codec rejects fails on that account and the store is not consulted
    at all; a token the codec accepts is then looked up in the blacklist,
    and if the store answers the lookup and the token is there, the check
    fails with TokenRevoked whether or not its subject still exists; a
    token that is accepted and not blacklisted has its subject resolved, and
    so has an accepted token whose lookup the store does not answer. *)
Theorem blacklist_checked_after_signature `{JwtCodec}
    (req : Request) (c : ascii) (cs : string) (w : world) :
  bearerToken req = Some (String c cs) ->
  let token := String c cs in
  (forall name,
      jwt_verify token (clock w / 1000) = VerifyError name ->
      JwtStrategy.authenticate req w = (Throw (AuthenticationFailed name), w))
  /\ (forall p,
        jwt_verify token (clock w / 1000) = Verified p -> answers w ->
        is_Some (peek (clock w) (blacklistKey token) (store w)) ->
        JwtStrategy.authenticate req w
        = (Throw (UnauthorizedException ErrorMessages.TOKEN_REVOKED),
           sent (EXISTS (blacklistKey token)) w))
  /\ (forall p,
        jwt_verify token (clock w / 1000) = Verified p -> answers w ->
        peek (clock w) (blacklistKey token) (store w) = None ->
        JwtStrategy.authenticate req w
        = UsersService.findOne (payload_sub p) (sent (EXISTS (blacklistKey token)) w))
  /\ (forall p,
        jwt_verify token (clock w / 1000) = Verified p -> ~ answers w ->
        JwtStrategy.authenticate req w
        = UsersService.findOne (payload_sub p) (sent (EXISTS (blacklistKey token)) w)).
Proof.
  intros Hreq token. unfold JwtStrategy.authenticate. rewrite Hreq. fold token.
  repeat split.
  - intros name Hv. run. by rewrite Hv.
  - intros p Hv Ha Hb. run. rewrite Hv. unfold JwtStrategy.validate.
    rewrite Hreq. fold token. run. rewrite (isBlacklisted_run token w Ha).
    rewrite bool_decide_eq_true_2 by done. done.
  - intros p Hv Ha Hb. run. rewrite Hv. unfold JwtStrategy.validate.
    rewrite Hreq. fold token. run. rewrite (isBlacklisted_run token w Ha).
    rewrite Hb. rewrite bool_decide_eq_false_2 by (by intros [? [=]]).
    run. unfold UsersService.toSafeEntity.
    by destruct (UsersService.findOne (payload_sub p) _) as [[u|e] w'].
  - intros p Hv Ha. run. rewrite Hv. unfold JwtStrategy.validate.
    rewrite Hreq. fold token. run.
    unfold isAccessTokenBlacklisted, try_catch. rewrite bind_run, exists_run.
    unfold answers in Ha. destruct (hd false (faults w)); [|done].
    run. unfold UsersService.toSafeEntity.
    by destruct (UsersService.findOne (payload_sub p) _) as [[u|e] w'].
Qed.

Lemma blacklist_checked_after_signature_witness :
  JwtStrategy.authenticate (H := Scenario.codec) Scenario.forged
    Scenario.garbage_blacklisted
  = (Throw (AuthenticationFailed "JsonWebTokenError"), Scenario.garbage_blacklisted).
Proof.
  apply (blacklist_checked_after_signature (H := Scenario.codec)
           Scenario.forged "g" "arbage" Scenario.garbage_blacklisted eq_refl).
  reflexivity.
Defined.

(** C6 as the claim words it fails for a token that is both blacklisted
    and rejected by the codec: the check fails on the signature, not with
    TokenRevoked, and no command is sent to the store. *)
Lemma blacklisted_forgery_not_reported_revoked :
  let w := Scenario.garbage_blacklisted in
  fst (isAccessTokenBlacklisted "garbage" w) = Return true
  /\ jwt_verify (JwtCodec := Scenario.codec) "garbage" (clock w / 1000)
     = VerifyError "JsonWebTokenError"
  /\ fst (JwtStrategy.authenticate (H := Scenario.codec) Scenario.forged w)
     = Throw (AuthenticationFailed "JsonWebTokenError")
  /\ fst (JwtStrategy.authenticate (H := Scenario.codec) Scenario.forged w)
     <> Throw (UnauthorizedException ErrorMessages.TOKEN_REVOKED)
  /\ log (snd (JwtStrategy.authenticate (H := Scenario.codec) Scenario.forged w)) = log w.
Proof. vm_compute. by repeat split. Qed.

End RequestAuthentication.

(** ** Frame properties of calls *)

Module Frame.
Import Redis TokenService StoreFacts TokenFacts.

Lemma preserves_ret {A} k (a : A) : preserves_key k (mret a).
Proof. by intros w. Qed.

Lemma preserves_throw {A} k e : preserves_key k (throw (A := A) e).
Proof. by intros w. Qed.

Lemma preserves_bind {A B} k (m : M A) (f : A -> M B) :
  preserves_key k m -> (forall a, preserves_key k (f a)) -> preserves_key k (m ≫= f).
Proof.
  intros Hm Hf w. rewrite bind_run. specialize (Hm w).
  destruct (m w) as [[a|e] w1]; cbn [snd] in *; [|done].
  by rewrite Hf.
Qed.

Lemma preserves_try_catch {A} k (m : M A) (h : exn -> M A) :
  preserves_key k m -> (forall e, preserves_key k (h e)) -> preserves_key k (try_catch m h).
Proof.
  intros Hm Hh w. unfold try_catch. specialize (Hm w).
  destruct (m w) as [[a|e] w1]; cbn [snd] in *; [done|].
  by rewrite Hh.
Qed.

Lemma preserves_now k : preserves_key k now_ms.
Proof. by intros w. Qed.

Lemma preserves_get k k0 : preserves_key k (get k0).
Proof. intros w. rewrite get_run. by destruct (hd false (faults w)). Qed.

Lemma preserves_exists k k0 : preserves_key k (exists_ k0).
Proof. intros w. rewrite exists_run. by destruct (hd false (faults w)). Qed.

Lemma preserves_smembers k k0 : preserves_key k (smembers k0).
Proof. intros w. rewrite smembers_run. by destruct (hd false (faults w)). Qed.

Lemma preserves_setex k k0 seconds v : k0 <> k -> preserves_key k (setex k0 seconds v).
Proof.
  intros Hne w. rewrite setex_run. destruct (hd false (faults w)); [done|].
  destruct seconds as [ttl|]; [|done]. destruct (0 <? ttl); [|done].
  cbn [snd set_store store sent]. by rewrite lookup_insert_ne.
Qed.

Lemma preserves_del k k0 : k0 <> k -> preserves_key k (del k0).
Proof.
  intros Hne w. rewrite del_run. destruct (hd false (faults w)); [done|].
  cbn [snd set_store store sent]. by rewrite lookup_delete_ne.
Qed.

Lemma preserves_sadd k k0 member : k0 <> k -> preserves_key k (sadd k0 member).
Proof.
  intros Hne w. rewrite sadd_run. destruct (hd false (faults w)); [done|].
  destruct (peek _ _ _) as [[[] ?]|]; cbn [snd set_store store sent]; try done;
    by rewrite lookup_insert_ne.
Qed.

Lemma preserves_srem k k0 member : k0 <> k -> preserves_key k (srem k0 member).
Proof.
  intros Hne w. rewrite srem_run. destruct (hd false (faults w)); [done|].
  destruct (peek _ _ _) as [[[] ?]|]; cbn [snd set_store store sent]; try done.
  case_decide; by rewrite ?lookup_insert_ne, ?lookup_delete_ne.
Qed.

Lemma preserves_expire k k0 seconds : k0 <> k -> preserves_key k (expire k0 seconds).
Proof.
  intros Hne w. destruct seconds as [ttl|].
  - rewrite expire_run. destruct (hd false (faults w)); [done|].
    destruct (peek _ _ _); cbn [snd set_store store sent]; [|done].
    destruct (0 <? ttl); by rewrite ?lookup_insert_ne, ?lookup_delete_ne.
  - unfold expire. rewrite bind_run, send_run.
    by destruct (hd false (faults w)).
Qed.

(** The tail of [generateRefreshToken], once the identifier is drawn. *)
Lemma preserves_after_uuid {B} k (f : string -> M B) w :
  preserves_key k (f (rng w (drawn w))) ->
  store (snd ((randomUUID ≫= f) w)) !! k = store w !! k.
Proof. intros Hf. rewrite bind_run. cbn [randomUUID]. by rewrite Hf. Qed.

Lemma generateRefreshToken_preserves this u ro opts k w :
  k <> refreshTokenKey (rng w (drawn w)) -> k <> userTokensKey u ->
  store (snd (generateRefreshToken this u ro opts w)) !! k = store w !! k.
Proof.
  intros Hk Hu. unfold generateRefreshToken. apply preserves_after_uuid.
  apply preserves_bind; [apply preserves_now|intros now].
  apply preserves_bind.
  { unfold plus_days. destruct (refreshTokenExpirationDays this);
      [apply preserves_throw..|apply preserves_ret]. }
  intros e. apply preserves_bind; [apply preserves_now|intros c].
  apply preserves_bind; [by apply preserves_setex|intros _].
  apply preserves_bind; [by apply preserves_sadd|intros _].
  apply preserves_bind; [by apply preserves_expire|intros _].
  apply preserves_ret.
Qed.

Lemma signAsync_preserves `{JwtCodec} jwt payload w :
  snd (signAsync jwt payload w) = w.
Proof.
  unfold signAsync. run. by destruct (signed_claims jwt payload (clock w)).
Qed.

Lemma issueTokens_preserves `{JwtCodec} this u r opts k w :
  k <> refreshTokenKey (rng w (drawn w)) -> k <> userTokensKey u ->
  store (snd (AuthService.issueTokens this u r opts w)) !! k = store w !! k.
Proof.
  intros Hk Hu. unfold AuthService.issueTokens, generateAccessToken.
  rewrite bind_run.
  pose proof (signAsync_preserves (jwtService (tokenService this))
                {| payload_sub := u; payload_role := r |} w) as Hs.
  destruct (signAsync _ _ w) as [[a|e] w1]; cbn [snd] in Hs; subst w1; [|done].
  rewrite bind_run.
  pose proof (generateRefreshToken_preserves (tokenService this) u r opts k w
                Hk Hu) as Hg.
  by destruct (generateRefreshToken _ _ _ _ w) as [[t|e] w1].
Qed.

(** *** Identifiers are drawn by issuing only *)

Lemma entropy_ret {A} (a : A) : keeps_entropy (mret a).
Proof. by intros w. Qed.

Lemma entropy_throw {A} e : keeps_entropy (throw (A := A) e).
Proof. by intros w. Qed.

Lemma entropy_bind {A B} (m : M A) (f : A -> M B) :
  keeps_entropy m -> (forall a, keeps_entropy (f a)) -> keeps_entropy (m ≫= f).
Proof.
  intros Hm Hf w. rewrite bind_run. specialize (Hm w).
  destruct (m w) as [[a|e] w1]; cbn [snd] in *; [|done].
  destruct (Hf a w1) as [-> ->]. done.
Qed.

Lemma entropy_try_catch {A} (m : M A) (h : exn -> M A) :
  keeps_entropy m -> (forall e, keeps_entropy (h e)) -> keeps_entropy (try_catch m h).
Proof.
  intros Hm Hh w. unfold try_catch. specialize (Hm w).
  destruct (m w) as [[a|e] w1]; cbn [snd] in *; [done|].
  destruct (Hh e w1) as [-> ->]. done.
Qed.

Lemma entropy_now : keeps_entropy now_ms.
Proof. by intros w. Qed.

Lemma entropy_get k : keeps_entropy (get k).
Proof.
  intros w. rewrite get_run. destruct (hd false (faults w)); [done|].
  by destruct (peek _ _ _) as [[[] ?]|].
Qed.

Lemma entropy_del k : keeps_entropy (del k).
Proof. intros w. rewrite del_run. by destruct (hd false (faults w)). Qed.

Lemma entropy_srem k member : keeps_entropy (srem k member).
Proof.
  intros w. rewrite srem_run. destruct (hd false (faults w)); [done|].
  by destruct (peek _ _ _) as [[[] ?]|].
Qed.

Lemma entropy_findOne id : keeps_entropy (UsersService.findOne id).
Proof.
  intros w. unfold UsersService.findOne. rewrite bind_run. cbn [get_world].
  by destruct (users w !! id).
Qed.

Lemma entropy_revoke t : keeps_entropy (revokeRefreshToken t).
Proof.
  unfold revokeRefreshToken. apply entropy_try_catch; [|intros; apply entropy_ret].
  apply entropy_bind; [apply entropy_get|intros [[d|s]|]]; [| |apply entropy_ret].
  - apply entropy_bind; [apply entropy_ret|intros d'].
    apply entropy_bind; [apply entropy_srem|intros _].
    apply entropy_bind; [apply entropy_del|intros _; apply entropy_ret].
  - destruct s; [apply entropy_ret|].
    apply entropy_bind; [apply entropy_throw|intros d'].
    apply entropy_bind; [apply entropy_srem|intros _].
    apply entropy_bind; [apply entropy_del|intros _; apply entropy_ret].
Qed.

Lemma entropy_verify t : keeps_entropy (verifyRefreshToken t).
Proof.
  pose proof (entropy_revoke t) as Hr.
  unfold verifyRefreshToken. apply entropy_try_catch; [|intros; apply entropy_ret].
  apply entropy_bind; [apply entropy_get|intros [[d|s]|]]; [| |apply entropy_ret].
  - apply entropy_bind; [apply entropy_ret|intros d'].
    apply entropy_bind; [apply entropy_now|intros now].
    destruct (expiresAt d' <? now); [|apply entropy_ret].
    apply entropy_bind; [exact Hr|intros _; apply entropy_ret].
  - destruct s; [apply entropy_ret|].
    apply entropy_bind; [apply entropy_throw|intros d'].
    apply entropy_bind; [apply entropy_now|intros now].
    destruct (expiresAt d' <? now); [|apply entropy_ret].
    apply entropy_bind; [exact Hr|intros _; apply entropy_ret].
Qed.

End Frame.

(** ** Single use of a refresh token *)

Module SingleUse.
Import Redis TokenService StoreFacts TokenFacts RefreshTokenStore Frame.

Lemma prefix_app p s : String.prefix p (p +:+ s) = true.
Proof.
  induction p as [|c p IH]; simpl; [by destruct s|].
  destruct (Ascii.ascii_dec c c); [done|congruence].
Qed.

Lemma index_typed_is_set w u : index_typed w -> index_is_set (clock w) u (store w).
Proof.
  intros Ht. unfold index_is_set.
  destruct (peek (clock w) (userTokensKey u) (store w)) as [[[tx|s] ex]|] eqn:E; [|done..].
  apply peek_Some in E as [El Elive].
  specialize (Ht _ _ El (prefix_app _ _) Elive). done.
Qed.

Lemma verify_result_Some now t db d :
  verify_result now t db = Some d ->
  (exists ex, peek now (refreshTokenKey t) db = Some (Entry (RStr (JsonText d)) ex))
  /\ verify_store now t db = db.
Proof.
  unfold verify_result, verify_store.
  destruct (peek now (refreshTokenKey t) db) as [[[[d'|s]|s] ex]|]; try discriminate.
  destruct (expiresAt d' <? now); [discriminate|]. intros [= ->]. eauto.
Qed.




End SingleUse.

Module SingleUseWitness.
Import Redis TokenService StoreFacts TokenFacts RefreshTokenStore Frame SingleUse.
#[local] Existing Instance Scenario.codec.




End SingleUseWitness.

(** ** Two rotations of the same token at once *)

Module ConcurrentRotation.
Import Redis TokenService StoreFacts TokenFacts RefreshTokenStore Frame SingleUse.




End ConcurrentRotation.

(** ** Logout *)

Module LogoutFacts.
Import Redis TokenService StoreFacts TokenFacts RefreshTokenStore Frame Blacklist.

Lemma quiet_refl w : healthy w -> quiet w w.
Proof. by unfold quiet. Qed.

Lemma quiet_trans w1 w2 w3 : quiet w1 w2 -> quiet w2 w3 -> quiet w1 w3.
Proof. unfold quiet. intros (?&?&?) (?&?&?). repeat split; congruence. Qed.

Lemma quiet_sent c w : healthy w -> quiet w (sent c w).
Proof. intros Hw. unfold quiet, healthy in *. simpl. by rewrite Hw. Qed.

Lemma calm_ret {A} (a : A) : calm (mret a).
Proof. intros w Hw. by apply quiet_refl. Qed.

Lemma calm_throw {A} e : calm (throw (A := A) e).
Proof. intros w Hw. by apply quiet_refl. Qed.

Lemma calm_bind {A B} (m : M A) (f : A -> M B) :
  calm m -> (forall a, calm (f a)) -> calm (m ≫= f).
Proof.
  intros Hm Hf w Hw. rewrite bind_run. specialize (Hm w Hw).
  destruct (m w) as [[a|e] w1]; cbn [snd] in *; [|done].
  eapply quiet_trans; [exact Hm|]. apply Hf. by destruct Hm as (_ & ? & _).
Qed.

Lemma calm_try_catch {A} (m : M A) (h : exn -> M A) :
  calm m -> (forall e, calm (h e)) -> calm (try_catch m h).
Proof.
  intros Hm Hh w Hw. unfold try_catch. specialize (Hm w Hw).
  destruct (m w) as [[a|e] w1]; cbn [snd] in *; [done|].
  eapply quiet_trans; [exact Hm|]. apply Hh. by destruct Hm as (_ & ? & _).
Qed.

Lemma calm_now : calm now_ms.
Proof. intros w Hw. by apply quiet_refl. Qed.

Lemma calm_setex k seconds v : calm (setex k seconds v).
Proof.
  intros w Hw. rewrite setex_run. pose proof (quiet_sent (SETEX k seconds v) w Hw).
  destruct (hd false (faults w)); [done|].
  destruct seconds as [ttl|]; [|done]. by destruct (0 <? ttl).
Qed.

Lemma blacklist_calm `{JwtCodec} this a : calm (blacklistAccessToken this a).
Proof.
  unfold blacklistAccessToken.
  apply calm_try_catch; [|intros; apply calm_ret].
  apply calm_try_catch; [|intros; apply calm_setex].
  destruct (jwt_decode a) as [| |[e|]];
    [apply calm_throw|apply calm_setex| |apply calm_setex].
  case_bool_decide; [apply calm_setex|].
  apply calm_bind; [apply calm_now|intros ms].
  destruct (0 <? e - ms / 1000); [apply calm_setex|apply calm_ret].
Qed.

Lemma blacklist_preserves `{JwtCodec} this a k :
  k <> blacklistKey a -> preserves_key k (blacklistAccessToken this a).
Proof.
  intros Hk. assert (blacklistKey a <> k) as Hk' by done.
  unfold blacklistAccessToken.
  apply preserves_try_catch; [|intros; apply preserves_ret].
  apply preserves_try_catch; [|intros; by apply preserves_setex].
  destruct (jwt_decode a) as [| |[e|]];
    [apply preserves_throw|by apply preserves_setex| |by apply preserves_setex].
  case_bool_decide; [by apply preserves_setex|].
  apply preserves_bind; [apply preserves_now|intros ms].
  destruct (0 <? e - ms / 1000); [by apply preserves_setex|apply preserves_ret].
Qed.

(** The one command of a blacklisting that stores a marker. *)
Lemma blacklist_run `{JwtCodec} this a w ttl :
  answers w -> marker_ttl this (clock w / 1000) a = Some ttl ->
  exists seconds,
    blacklistAccessToken this a w
    = (Return tt, set_store (insert (blacklistKey a) (marker (clock w) ttl))
                            (sent (SETEX (blacklistKey a) seconds (Plain "1")) w)).
Proof.
  intros Ha. unfold marker_ttl, blacklistAccessToken.
  pose proof (default_marker_run (seconds_argument (accessTokenExpirationSeconds this))
                (blacklistKey a) w Ha) as Hdefault.
  pose proof (default_marker_after_throw (JwtError "jwt malformed")
                (seconds_argument (accessTokenExpirationSeconds this))
                (blacklistKey a) w Ha) as Hthrow.
  destruct (jwt_decode a) as [| |[e|]].
  - intros Hm. rewrite Hthrow, Hm. eauto.
  - intros Hm. rewrite Hdefault, Hm. eauto.
  - case_bool_decide.
    + intros Hm. rewrite Hdefault, Hm. eauto.
    + unfold try_catch. run. destruct (0 <? e - clock w / 1000) eqn:Et; [|done].
      intros [= <-]. unfold answers in Ha. rewrite setex_run, Ha, Et. eauto.
  - intros Hm. rewrite Hdefault, Hm. eauto.
Qed.

Lemma marker_ttl_pos `{JwtCodec} this now a ttl :
  marker_ttl this now a = Some ttl -> 0 < ttl.
Proof.
  assert (forall o, usable_ttl o = Some ttl -> 0 < ttl) as Hu.
  { intros [n|]; simpl; [|done]. destruct (0 <? n) eqn:E; [|done].
    intros [= <-]. by apply Z.ltb_lt. }
  unfold marker_ttl. destruct (jwt_decode a) as [| |[e|]]; try apply Hu.
  case_bool_decide; [apply Hu|]. destruct (0 <? e - now) eqn:E; [|done].
  intros [= <-]. by apply Z.ltb_lt.
Qed.

(** *** Bulk revocation *)

Lemma lookup_delete_all ks db k :
  delete_all ks db !! k = if decide (k ∈ ks) then None else db !! k.
Proof.
  unfold delete_all. revert db. induction ks as [|k0 ks IH]; intros db; cbn [foldl].
  - destruct (decide (k ∈ [])) as [Hin|_]; [by apply not_elem_of_nil in Hin|done].
  - rewrite IH. destruct (decide (k ∈ ks)) as [Hin|Hnin].
    + destruct (decide (k ∈ k0 :: ks)) as [_|Hn]; [done|].
      exfalso. apply Hn. apply elem_of_cons. by right.
    + destruct (decide (k ∈ k0 :: ks)) as [Hin|Hn].
      * apply elem_of_cons in Hin as [->|?]; [apply lookup_delete_eq|done].
      * rewrite lookup_delete_ne; [done|]. intros ->. apply Hn.
        apply elem_of_cons. by left.
Qed.

Lemma Promise_all_dels ks w :
  healthy w ->
  exists w',
    Promise_all ((λ k, del k ≫= λ _, mret tt) <$> ks) w = (Return tt, w')
    /\ store w' = delete_all ks (store w) /\ quiet w w'
    /\ log w' = log w ++ (DEL <$> ks).
Proof.
  revert w. induction ks as [|k ks IH]; intros w Hw.
  - exists w. simpl. rewrite app_nil_r. by repeat split.
  - cbn [fmap list_fmap Promise_all]. rewrite bind_run. unfold settle at 1.
    rewrite bind_run, del_run. unfold healthy in Hw. rewrite Hw.
    cbn [hd mret M_ret].
    set (w1 := set_store (delete k) (sent (DEL k) w)).
    assert (healthy w1) as Hw1 by (unfold healthy; simpl; by rewrite Hw).
    destruct (IH w1 Hw1) as (w' & E & Hs & Hq & Hl).
    rewrite bind_run. unfold settle. rewrite E. cbn [mret M_ret].
    exists w'. split; [done|]. split; [by rewrite Hs|]. split.
    + eapply quiet_trans; [|exact Hq]. unfold quiet, healthy. simpl.
      by rewrite Hw.
    + rewrite Hl. simpl. by rewrite <- app_assoc.
Qed.

(** Bulk revocation on a healthy store: every member of the user's index
    loses its record, keys of other namespaces are left alone, and the first
    command sent is the read of the index. *)
Lemma revokeAll_healthy u w :
  healthy w ->
  exists w',
    revokeUserRefreshTokens u w = (Return tt, w')
    /\ quiet w w'
    /\ store w' = revoke_all_store (clock w) u (store w)
    /\ (exists rest, log w' = log w ++ SMEMBERS (userTokensKey u) :: rest).
Proof.
  intros Hw. pose proof Hw as Hf. unfold healthy in Hf.
  unfold revokeUserRefreshTokens, try_catch, revoke_all_store.
  rewrite bind_run, smembers_run, Hf. cbn [hd].
  pose proof (quiet_sent (SMEMBERS (userTokensKey u)) w Hw) as Hq0.
  destruct (peek (clock w) (userTokensKey u) (store w)) as [[[tx|s] ex]|] eqn:Ep.
  - eexists. split; [reflexivity|]. split; [done|]. split; [done|]. by exists [].
  - destruct (elements s) as [|t0 ts] eqn:Ee.
    + eexists. split; [reflexivity|]. split; [done|]. split; [done|]. by exists [].
    + rewrite <- Ee.
      replace (((λ refreshToken, del (refreshTokenKey refreshToken) ≫= λ _, mret tt)
                  <$> elements s)
               ++ [del (userTokensKey u) ≫= λ _, mret tt])
        with ((λ k, del k ≫= λ _, mret tt)
                <$> ((refreshTokenKey <$> elements s) ++ [userTokensKey u])).
      2:{ rewrite fmap_app, <- list_fmap_compose. done. }
      destruct (Promise_all_dels ((refreshTokenKey <$> elements s) ++ [userTokensKey u])
                  (sent (SMEMBERS (userTokensKey u)) w)) as (w' & E & Hs & Hq & Hl);
        [by destruct Hq0 as (_ & ? & _)|].
      rewrite Ee in E |- *. cbn [mret M_ret]. rewrite E.
      exists w'. split; [done|]. split; [exact (quiet_trans _ _ _ Hq0 Hq)|].
      split; [by rewrite Hs, Ee|].
      rewrite Hl. cbn [sent log]. rewrite <- app_assoc. eauto.
  - eexists. split; [reflexivity|]. split; [done|]. split; [done|]. by exists [].
Qed.

Lemma revoke_all_store_member now u db s ex t :
  peek now (userTokensKey u) db = Some (Entry (RSet s) ex) -> t ∈ s ->
  revoke_all_store now u db !! refreshTokenKey t = None.
Proof.
  intros Hp Hin. unfold revoke_all_store. rewrite Hp.
  destruct (elements s) as [|t0 ts] eqn:Ee.
  - apply elem_of_elements in Hin. rewrite Ee in Hin. by apply not_elem_of_nil in Hin.
  - rewrite <- Ee, lookup_delete_all. rewrite decide_True; [done|].
    apply elem_of_app. left. apply list_elem_of_fmap.
    exists t. split; [done|]. by apply elem_of_elements.
Qed.

Lemma revoke_all_store_blacklist now u db a :
  revoke_all_store now u db !! blacklistKey a = db !! blacklistKey a.
Proof.
  unfold revoke_all_store.
  destruct (peek now (userTokensKey u) db) as [[[tx|s] ex]|]; try done.
  destruct (elements s) as [|t0 ts] eqn:Ee; [done|].
  rewrite <- Ee, lookup_delete_all. rewrite decide_False; [done|].
  intros [Hin|Hin]%elem_of_app.
  - apply list_elem_of_fmap in Hin as (t & Heq & _).
    by apply (refresh_ne_blacklist t a).
  - apply list_elem_of_singleton in Hin. by apply (user_ne_blacklist u a).
Qed.

End LogoutFacts.

Module Logout.
Import Redis TokenService StoreFacts TokenFacts RefreshTokenStore Frame Blacklist.
Import SingleUse LogoutFacts.

Lemma strip_prefix_app p s : strip_prefix p (p +:+ s) = Some s.
Proof.
  induction p as [|c p IH]; simpl; [by destruct s|]. by rewrite Ascii.eqb_refl.
Qed.

Lemma index_covers_lookup w t d ex :
  index_covers w ->
  peek (clock w) (refreshTokenKey t) (store w) = Some (Entry (RStr (JsonText d)) ex) ->
  exists s ex',
    peek (clock w) (userTokensKey (userId d)) (store w) = Some (Entry (RSet s) ex')
    /\ t ∈ s.
Proof.
  intros Hc [Hl Hlive]%peek_Some. specialize (Hc _ _ Hl Hlive).
  unfold covered in Hc. unfold refreshTokenKey in Hc. rewrite strip_prefix_app in Hc.
  cbn [value] in Hc.
  destruct (peek (clock w) (userTokensKey (userId d)) (store w)) as [[[tx|s] ex']|];
    try discriminate.
  apply bool_decide_eq_true in Hc. eauto.
Qed.

(** C2, as the code has it.  When no store command fails from the call
    on, logout returns, having run the blacklisting and then the
    revocation, and afterwards:
    - no refresh token listed in the user's index verifies any more;
    - no refresh token that verified for the user verifies any more,
      provided every refresh token the store holds is listed in the index of
      its owner (what issuing sets up, and what a failed or interleaved store
      command can undo);
    - if the access token gets a marker (its expiry claim lies ahead, or
      cannot be read and the configured default is a positive number of
      seconds), the token is reported as blacklisted, and the marker was
      written before the first command of the revocation was sent;
    - otherwise no marker is written: what the store holds under the
      blacklist key of the token, and what the blacklist check answers, are
      as before the call. *)
Theorem logout_invalidates `{JwtCodec} (this : TokenService) (u : Z) (a : string)
    (w : world) :
  healthy w ->
  exists w',
    logout this u a w = (Return tt, w')
    /\ (exists wb, blacklistAccessToken this a w = (Return tt, wb)
                   /\ revokeUserRefreshTokens u wb = (Return tt, w'))
    /\ (forall t s ex,
          peek (clock w) (userTokensKey u) (store w) = Some (Entry (RSet s) ex) ->
          t ∈ s ->
          fst (verifyRefreshToken t w') = Return None)
    /\ (index_covers w ->
        forall t d,
          verify_result (clock w) t (store w) = Some d -> userId d = u ->
          fst (verifyRefreshToken t w') = Return None)
    /\ (forall ttl,
          marker_ttl this (clock w / 1000) a = Some ttl ->
          fst (isAccessTokenBlacklisted a w') = Return true
          /\ exists seconds rest,
               log w' = log w ++ SETEX (blacklistKey a) seconds (Plain "1")
                                 :: SMEMBERS (userTokensKey u) :: rest)
    /\ (marker_ttl this (clock w / 1000) a = None ->
        store w' !! blacklistKey a = store w !! blacklistKey a
        /\ fst (isAccessTokenBlacklisted a w') = fst (isAccessTokenBlacklisted a w)).
Proof.
  intros Hw. unfold logout. rewrite bind_run.
  pose proof (blacklist_never_throws this a w) as Hret.
  pose proof (blacklist_calm this a w Hw) as Hq.
  pose proof (λ k Hk, blacklist_preserves this a k Hk w) as Hkeep.
  pose proof (λ ttl Ha Hm, blacklist_run this a w ttl Ha Hm) as Hrun.
  pose proof (blacklist_store this a w (healthy_answers w Hw)) as [_ Hbs].
  destruct (blacklistAccessToken this a w) as [rb wb]. cbn [fst snd] in *. subst rb.
  destruct Hq as (Hclock & Hwb & _).
  destruct (revokeAll_healthy u wb Hwb) as (w' & Erev & (Hclock' & Hw' & _) & Hst & Hlog).
  rewrite Erev.
  pose proof (λ s ex t, revoke_all_store_member (clock wb) u (store wb) s ex t) as Hdel.
  pose proof (revoke_all_store_blacklist (clock wb) u (store wb)) as Hbl.
  rewrite <- Hst in Hdel, Hbl.
  assert (forall t s ex,
            peek (clock w) (userTokensKey u) (store w) = Some (Entry (RSet s) ex) ->
            t ∈ s -> fst (verifyRefreshToken t w') = Return None) as Hlisted.
  { intros t s ex Hi Hin.
    assert (store w' !! refreshTokenKey t = None) as Hgone.
    { apply (Hdel s ex t); [|done]. rewrite Hclock. unfold peek in *.
      rewrite Hkeep; [done|]. apply user_ne_blacklist. }
    apply verify_absent. unfold peek. by rewrite Hgone. }
  exists w'. split; [done|]. split; [by exists wb|]. split; [exact Hlisted|].
  split; [|split].
  - intros Hc t d Hv <-.
    destruct (verify_result_Some _ _ _ _ Hv) as [[ex Hp] _].
    destruct (index_covers_lookup w t d ex Hc Hp) as (s & ex' & Hi & Hin).
    by apply (Hlisted t s ex').
  - intros ttl Hm.
    destruct (Hrun ttl (healthy_answers w Hw) Hm) as (seconds & [= ->]).
    split.
    + rewrite isBlacklisted_run by (by apply healthy_answers).
      cbn [fst]. f_equal. apply bool_decide_eq_true_2.
      unfold peek. rewrite Hbl. cbn [store set_store sent].
      rewrite lookup_insert_eq. rewrite Hclock'. cbn [clock set_store sent].
      unfold live, marker. cbn [expires].
      pose proof (marker_ttl_pos _ _ _ _ Hm).
      destruct (clock w <? clock w + ttl * 1000) eqn:E; [by eexists|].
      apply Z.ltb_ge in E. lia.
    + destruct Hlog as (rest & ->). exists seconds, rest.
      cbn [log set_store sent]. by rewrite <- app_assoc.
  - intros Hm. rewrite Hm in Hbs.
    assert (store w' !! blacklistKey a = store w !! blacklistKey a) as Hsame
      by (by rewrite Hbl, Hbs).
    split; [exact Hsame|].
    rewrite !isBlacklisted_run by (by apply healthy_answers).
    cbn [fst]. unfold peek. by rewrite Hsame, Hclock', Hclock.
Qed.

Lemma preserves_settle {A} k (m : M A) : preserves_key k m -> preserves_key k (settle m).
Proof.
  intros Hm w. unfold settle. specialize (Hm w). by destruct (m w) as [[a|e] w1].
Qed.

Lemma preserves_Promise_all k ps :
  Forall (preserves_key k) ps -> preserves_key k (Promise_all ps).
Proof.
  induction 1 as [|p ps Hp _ IH]; [apply preserves_ret|].
  cbn [Promise_all]. apply preserves_bind; [by apply preserves_settle|intros r].
  apply preserves_bind; [by apply preserves_settle|intros rest].
  destruct r, rest; apply preserves_throw || apply preserves_ret.
Qed.

Lemma revokeAll_preserves_blacklist u a :
  preserves_key (blacklistKey a) (revokeUserRefreshTokens u).
Proof.
  unfold revokeUserRefreshTokens.
  apply preserves_try_catch; [|intros; apply preserves_ret].
  apply preserves_bind; [apply preserves_smembers|intros ts].
  destruct ts as [|t0 ts]; [apply preserves_ret|].
  apply preserves_Promise_all, Forall_app. split.
  - apply Forall_fmap, Forall_forall. intros t _.
    apply preserves_bind; [|intros; apply preserves_ret].
    apply preserves_del, refresh_ne_blacklist.
  - apply Forall_singleton.
    apply preserves_bind; [|intros; apply preserves_ret].
    apply preserves_del, user_ne_blacklist.
Qed.

(** X1. Blacklist first: once the marker is written, it is in the store
    after logout whatever failures the revocation then meets. *)
Lemma logout_blacklists_despite_failures `{JwtCodec} this u a w ttl :
  answers w -> marker_ttl this (clock w / 1000) a = Some ttl ->
  store (snd (logout this u a w)) !! blacklistKey a = Some (marker (clock w) ttl).
Proof.
  intros Ha Hm. unfold logout. rewrite bind_run.
  destruct (blacklist_run this a w ttl Ha Hm) as (seconds & ->).
  rewrite revokeAll_preserves_blacklist. cbn [store set_store sent].
  apply lookup_insert_eq.
Qed.

End Logout.

Module LogoutWitness.
Import Redis TokenService StoreFacts TokenFacts Blacklist SingleUse Logout.
#[local] Existing Instance Scenario.codec.

Lemma after_login_covered : index_covers Scenario.after_login.
Proof. unfold index_covers, covers_at. apply (bool_decide_unpack _). by vm_compute. Qed.

Lemma logout_invalidates_witness :
  exists w',
    logout Scenario.tokens 7 "7.1000900" Scenario.after_login = (Return tt, w')
    /\ fst (verifyRefreshToken "uuid-0" w') = Return None
    /\ fst (isAccessTokenBlacklisted "7.1000900" w') = Return true.
Proof.
  destruct (logout_invalidates Scenario.tokens 7 "7.1000900" Scenario.after_login)
    as (w' & E & _ & Hlisted & _ & Hblack & _).
  - reflexivity.
  - exists w'. split; [exact E|]. split.
    + apply (Hlisted "uuid-0" {[ "uuid-0" ]} (Some 1604800000)); [reflexivity|].
      by apply elem_of_singleton.
    + apply (Hblack 900). reflexivity.
Defined.

(** C2 as the claim words it fails in two ways.  For an access token that
    has already expired, logout returns, the refresh tokens are revoked, and
    the access token is not reported as blacklisted.  And a refresh token
    that its owner's index does not list (here after a bulk revocation whose
    DEL of the record failed and was swallowed, and whose DEL of the index
    was answered) still verifies after a logout on a store that answers. *)
Lemma logout_misses_expired_and_unlisted_tokens :
  (let w' := snd (logout Scenario.tokens 7 "7.999" Scenario.after_login) in
   healthy Scenario.after_login
   /\ jwt_decode "7.999" = DecodePayload (Some 999)
   /\ fst (logout Scenario.tokens 7 "7.999" Scenario.after_login) = Return tt
   /\ fst (verifyRefreshToken "uuid-0" w') = Return None
   /\ fst (isAccessTokenBlacklisted "7.999" w') = Return false)
  /\ (let w := snd (revokeUserRefreshTokens 7
                      (with_faults [false; true; false] Scenario.after_login)) in
      let w' := snd (logout Scenario.tokens 7 "7.1000900" w) in
      healthy w
      /\ fst (verifyRefreshToken "uuid-0" w) <> Return None
      /\ fst (logout Scenario.tokens 7 "7.1000900" w) = Return tt
      /\ fst (verifyRefreshToken "uuid-0" w') = fst (verifyRefreshToken "uuid-0" w)).
Proof. vm_compute. repeat split; discriminate. Qed.

End LogoutWitness.

(** ** The store invariant of the refresh-token store *)

Module Consistency.
Import Redis TokenService StoreFacts TokenFacts RefreshTokenStore Frame Blacklist.
Import SingleUse LogoutFacts Logout.

Lemma later_live now e v ex :
  live now e = true -> later (expires e) ex -> live now (Entry v ex) = true.
Proof.
  unfold live, later. cbn [expires]. destruct ex as [y|]; [|done].
  destruct (expires e) as [x|]; [|done]. rewrite !Z.ltb_lt. lia.
Qed.

Lemma user_prefix_refresh t :
  String.prefix userRefreshTokensPrefix (refreshTokenKey t) = false.
Proof. reflexivity. Qed.

Lemma user_prefix_blacklist a :
  String.prefix userRefreshTokensPrefix (blacklistKey a) = false.
Proof. reflexivity. Qed.

Lemma typed_insert_other now k e db :
  String.prefix userRefreshTokensPrefix k = false ->
  typed_at now db -> typed_at now (<[k := e]> db).
Proof. intros Hk Ht. apply map_Forall_insert_2; [congruence|done]. Qed.

Lemma typed_insert_set now k s ex db :
  typed_at now db -> typed_at now (<[k := Entry (RSet s) ex]> db).
Proof. intros Ht. by apply map_Forall_insert_2. Qed.

Lemma typed_delete now k db : typed_at now db -> typed_at now (delete k db).
Proof. apply map_Forall_delete. Qed.

Lemma typed_delete_all now ks db : typed_at now db -> typed_at now (delete_all ks db).
Proof.
  unfold delete_all. revert db. induction ks as [|k ks IH]; intros db Ht; [done|].
  cbn [foldl]. by apply IH, typed_delete.
Qed.


Lemma ok_mono span now now' db : now <= now' -> ok span now db -> ok span now' db.
Proof.
  intros Hle [Ht Hl]. split.
  - intros k e Hk Hp Hlive. apply (Ht k e Hk Hp). by apply (live_mono now' now).
  - intros t e d Hk Hlive Hv.
    destruct (Hl t e d Hk (live_mono now' now e Hle Hlive) Hv)
      as ((x & Hx & Hb) & s & ex & Hi & Hin & Hlater).
    split; [exists x; split; [done|lia]|]. by exists s, ex.
Qed.

Lemma ok_marker span now a e db : ok span now db -> ok span now (<[blacklistKey a := e]> db).
Proof.
  intros [Ht Hl]. split; [by apply typed_insert_other|].
  intros t e' d Hk. rewrite lookup_insert_ne in Hk by (symmetry; apply refresh_ne_blacklist).
  intros Hlive Hv. destruct (Hl t e' d Hk Hlive Hv) as (Hx & s & ex & Hi & Hin & Hlater).
  split; [done|]. exists s, ex. split; [|done].
  by rewrite lookup_insert_ne by (symmetry; apply user_ne_blacklist).
Qed.

Lemma ok_delete_record span now t db :
  ok span now db -> ok span now (delete (refreshTokenKey t) db).
Proof.
  intros [Ht Hl]. split; [by apply typed_delete|].
  intros t' e d Hk Hlive Hv. apply lookup_delete_Some in Hk as [Hne Hk].
  destruct (Hl t' e d Hk Hlive Hv) as (Hx & s & ex & Hi & Hin & Hlater).
  split; [done|]. exists s, ex. split; [|done].
  by rewrite lookup_delete_ne by apply refresh_ne_user.
Qed.

Lemma ok_revoke span now t db : ok span now db -> ok span now (revoke_store now t db).
Proof.
  intros Hok. unfold revoke_store.
  destruct (peek now (refreshTokenKey t) db) as [[[[d|?]|?] ?]|] eqn:Ek; try done.
  destruct (peek now (userTokensKey (userId d)) db) as [[[tx|s] ex]|] eqn:Eu;
    [done| |by apply ok_delete_record].
  apply peek_Some in Eu as [Eu Eulive].
  destruct Hok as [Ht Hl]. split.
  - apply typed_delete. case_decide; [by apply typed_delete|by apply typed_insert_set].
  - intros t' e' d' Hk Hlive Hv. apply lookup_delete_Some in Hk as [Hne Hk].
    assert (db !! refreshTokenKey t' = Some e') as Hk'.
    { revert Hk. case_decide.
      - by rewrite lookup_delete_ne by (symmetry; apply refresh_ne_user).
      - by rewrite lookup_insert_ne by (symmetry; apply refresh_ne_user). }
    destruct (Hl t' e' d' Hk' Hlive Hv) as (Hx & s' & ex' & Hi & Hin & Hlater).
    split; [done|].
    rewrite lookup_delete_ne by apply refresh_ne_user.
    destruct (decide (userId d' = userId d)) as [Heq|Hneq].
    + rewrite Heq in *. rewrite Eu in Hi. injection Hi as <- <-.
      assert (t' ∈ s ∖ {[t]}) as Hin'.
      { apply elem_of_difference. split; [done|].
        intros ->%elem_of_singleton. by apply Hne. }
      rewrite decide_False by (intros Hempty; rewrite Hempty in Hin';
                               by apply not_elem_of_empty in Hin').
      rewrite lookup_insert_eq. by exists (s ∖ {[t]}), ex.
    + exists s', ex'. split; [|done].
      assert (userTokensKey (userId d) <> userTokensKey (userId d')) as Hkeys
        by (intros ?%userTokensKey_inj; congruence).
      case_decide; by rewrite ?lookup_delete_ne, ?lookup_insert_ne.
Qed.

Lemma ok_verify span now t db : ok span now db -> ok span now (verify_store now t db).
Proof.
  intros Hok. unfold verify_store.
  destruct (peek now (refreshTokenKey t) db) as [[[[d|?]|?] ?]|]; try done.
  destruct (expiresAt d <? now); [by apply ok_revoke|done].
Qed.

Lemma ok_revoke_all span now u db :
  ok span now db -> ok span now (revoke_all_store now u db).
Proof.
  intros Hok. unfold revoke_all_store.
  destruct (peek now (userTokensKey u) db) as [[[tx|s] ex]|] eqn:Eu; try done.
  destruct (elements s) as [|t0 ts] eqn:Ee; [done|]. rewrite <- Ee. clear Ee t0 ts.
  apply peek_Some in Eu as [Eu Eulive]. destruct Hok as [Ht Hl].
  split; [by apply typed_delete_all|].
  intros t e d Hk Hlive Hv. rewrite lookup_delete_all in Hk.
  case_decide as Hin; [done|].
  destruct (Hl t e d Hk Hlive Hv) as (Hx & s' & ex' & Hi & Hin' & Hlater).
  split; [done|]. exists s', ex'. split; [|done].
  rewrite lookup_delete_all. rewrite decide_False; [done|].
  intros [Hm|Hm]%elem_of_app.
  - apply list_elem_of_fmap in Hm as (t1 & Heq & _).
    symmetry in Heq. by apply refresh_ne_user in Heq.
  - apply list_elem_of_singleton in Hm. apply userTokensKey_inj in Hm.
    rewrite Hm, Eu in Hi. injection Hi as <- <-.
    apply Hin, elem_of_app. left. apply list_elem_of_fmap.
    exists t. split; [done|]. by apply elem_of_elements.
Qed.

Lemma ok_issue now ttl t d db :
  0 < ttl -> ok (ttl * 1000) now db -> ok (ttl * 1000) now (issue_store now ttl t d db).
Proof.
  intros Hpos [Ht Hl]. unfold issue_store.
  rewrite peek_insert_ne by apply refresh_ne_user.
  split.
  - apply typed_insert_set. apply typed_insert_other; [apply user_prefix_refresh|done].
  - intros t' e' d' Hk Hlive Hv.
    rewrite lookup_insert_ne in Hk by (symmetry; apply refresh_ne_user).
    destruct (decide (t' = t)) as [->|Hne].
    + rewrite lookup_insert_eq in Hk. injection Hk as <-. cbn [value] in Hv.
      injection Hv as <-. cbn [expires].
      split; [exists (now + ttl * 1000); split; [done|lia]|].
      rewrite lookup_insert_eq. eexists _, _. split; [done|].
      split; [set_solver|]. simpl. lia.
    + rewrite lookup_insert_ne in Hk by (intros ?%refreshTokenKey_inj; congruence).
      destruct (Hl t' e' d' Hk Hlive Hv) as ((x & Hx & Hb) & s' & ex' & Hi & Hin & Hlater).
      split; [by exists x|].
      destruct (decide (userId d' = userId d)) as [Heq|Hneq].
      * rewrite Heq in *. rewrite lookup_insert_eq.
        assert (peek now (userTokensKey (userId d)) db = Some (Entry (RSet s') ex')) as ->.
        { apply peek_Some. split; [done|]. by eapply later_live. }
        eexists _, _. split; [done|]. split; [set_solver|].
        rewrite Hx. simpl. lia.
      * exists s', ex'. split; [|done].
        rewrite lookup_insert_ne by (intros ?%userTokensKey_inj; congruence).
        by rewrite lookup_insert_ne by apply refresh_ne_user.
Qed.

End Consistency.

(** ** Calls on a sound store leave it sound *)

Module Soundness.
Import Redis TokenService StoreFacts TokenFacts RefreshTokenStore Frame Blacklist.
Import SingleUse LogoutFacts Logout Consistency.

Lemma maintains_ret {A} this (a : A) : maintains this (mret a).
Proof. by intros w Hw. Qed.

Lemma maintains_throw {A} this e : maintains this (throw (A := A) e).
Proof. by intros w Hw. Qed.

Lemma maintains_bind {A B} this (m : M A) (f : A -> M B) :
  maintains this m -> (forall a, maintains this (f a)) -> maintains this (m ≫= f).
Proof.
  intros Hm Hf w Hw. rewrite bind_run. destruct (Hm w Hw) as [Hs Hc].
  destruct (m w) as [[a|e] w1]; cbn [snd] in *; [|done].
  destruct (Hf a w1 Hs) as [Hs' Hc']. split; [done|congruence].
Qed.

Lemma maintains_now this : maintains this now_ms.
Proof. by intros w Hw. Qed.

Lemma maintains_get_world this : maintains this get_world.
Proof. by intros w Hw. Qed.

Lemma maintains_verify this t : maintains this (verifyRefreshToken t).
Proof.
  intros w [Hw Hok]. destruct (verify_healthy t w Hw) as (w' & -> & Hs & Hc & Hh & _).
  cbn [snd]. split; [|done]. split; [done|]. rewrite Hs, Hc. by apply ok_verify.
Qed.

Lemma maintains_revoke this t : maintains this (revokeRefreshToken t).
Proof.
  intros w [Hw Hok]. destruct (revoke_healthy t w Hw) as (w' & -> & Hs & Hc & Hh & _).
  cbn [snd]. split; [|done]. split; [done|]. rewrite Hs, Hc. by apply ok_revoke.
Qed.

Lemma maintains_revokeAll this u : maintains this (revokeUserRefreshTokens u).
Proof.
  intros w [Hw Hok].
  destruct (revokeAll_healthy u w Hw) as (w' & -> & (Hc & Hh & _) & Hs & _).
  cbn [snd]. split; [|done]. split; [done|]. rewrite Hs, Hc. by apply ok_revoke_all.
Qed.

Lemma maintains_blacklist `{JwtCodec} this this' a :
  maintains this (blacklistAccessToken this' a).
Proof.
  intros w [Hw Hok].
  destruct (blacklist_store this' a w (healthy_answers w Hw)) as [_ Hs].
  destruct (blacklist_calm this' a w Hw) as (Hc & Hh & _).
  split; [|done]. split; [done|]. rewrite Hs, Hc.
  destruct (marker_ttl this' (clock w / 1000) a); [by apply ok_marker|done].
Qed.

Lemma maintains_isBlacklisted this a : maintains this (isAccessTokenBlacklisted a).
Proof.
  intros w [Hw Hok]. rewrite isBlacklisted_run by (by apply healthy_answers).
  cbn [snd]. split; [|done]. split; [by apply healthy_sent|done].
Qed.

Lemma maintains_findOne this id : maintains this (UsersService.findOne id).
Proof.
  intros w Hw. unfold UsersService.findOne. run. cbn [get_world].
  by destruct (users w !! id).
Qed.

Lemma maintains_signAsync `{JwtCodec} this jwt payload :
  maintains this (signAsync jwt payload).
Proof. intros w Hw. by rewrite signAsync_preserves. Qed.

Lemma maintains_after_uuid {B} this (f : string -> M B) :
  (forall t, maintains this (f t)) -> maintains this (randomUUID ≫= f).
Proof.
  intros Hf w Hw. rewrite bind_run. cbn [randomUUID].
  by apply (Hf (rng w (drawn w))
              (World (store w) (clock w) (faults w) (log w) (rng w) (S (drawn w)) (users w))).
Qed.

(** Issuing on a sound store: either nothing was written (the configured
    lifetime is not a positive number of seconds), or the record and the
    index entry were. *)
Lemma maintains_generate this u ro options :
  maintains this (generateRefreshToken this u ro options).
Proof.
  unfold generateRefreshToken. apply maintains_after_uuid.
  intros t w Hs. pose proof Hs as [Hw [Ht Hl]]. pose proof Hw as Hf. unfold healthy in Hf.
  run. unfold plus_days, ttl_seconds in Hl |- *.
  destruct (refreshTokenExpirationDays this) as [| |days] eqn:Edays;
    run; [split; [exact Hs|done]..|].
  set (D := Qfloor (days * 86400000)%Q) in *.
  replace (clock w + D - clock w) with D by lia.
  set (d := {| userId := u; role := ro; expiresAt := clock w + D;
               createdAt := clock w; ipAddress := options ≫= meta_ipAddress;
               userAgent := options ≫= meta_userAgent |}).
  rewrite setex_run, Hf. cbn [hd].
  destruct (0 <? D / 1000) eqn:Epos;
    [|split; [split; [unfold healthy; simpl; by rewrite Hf|exact (proj2 Hs)]|done]].
  pose proof Epos as Hpos. apply Z.ltb_lt in Hpos.
  pose proof (ok_issue (clock w) (D / 1000) t d (store w) Hpos (conj Ht Hl)) as Hok.
  unfold issue_store in Hok. cbn [userId d] in Hok.
  rewrite peek_insert_ne in Hok by apply refresh_ne_user.
  run. rewrite sadd_run. cbn [faults set_store sent tail hd clock store].
  rewrite Hf. cbn [tail hd].
  rewrite peek_insert_ne by apply refresh_ne_user.
  pose proof (index_typed_is_set w u Ht) as Hset. unfold index_is_set in Hset.
  destruct (peek (clock w) (userTokensKey u) (store w)) as [[[tx|s] ex]|] eqn:Eu;
    [done|..].
  - run. rewrite expire_run.
    cbn [faults clock store set_store sent tail hd]. rewrite Hf. cbn [tail hd].
    rewrite peek_insert_eq.
    apply peek_Some in Eu as [_ Elive].
    assert (live (clock w) (Entry (RSet ({[t]} ∪ s)) ex) = true) as -> by done.
    rewrite Epos. run.
    unfold sound, ttl_seconds. rewrite Edays. fold D.
    split; [|done]. split; [unfold healthy; simpl; by rewrite Hf|]. cbn [value].
    cbn [store set_store sent clock]. rewrite insert_insert_eq. exact Hok.
  - run. rewrite expire_run.
    cbn [faults clock store set_store sent tail hd]. rewrite Hf. cbn [tail hd].
    rewrite peek_insert_eq. cbn [live expires].
    rewrite Epos. run.
    unfold sound, ttl_seconds. rewrite Edays. fold D.
    split; [|done]. split; [unfold healthy; simpl; by rewrite Hf|]. cbn [value].
    cbn [store set_store sent clock]. rewrite insert_insert_eq.
    rewrite (right_id_L ∅ (∪)) in Hok. exact Hok.
Qed.

Lemma maintains_issueTokens `{JwtCodec} (this : AuthService) u ro options :
  maintains (tokenService this) (AuthService.issueTokens this u ro options).
Proof.
  unfold AuthService.issueTokens, generateAccessToken.
  apply maintains_bind; [apply maintains_signAsync|intros access].
  apply maintains_bind; [apply maintains_generate|intros refresh].
  apply maintains_ret.
Qed.

Lemma maintains_refreshToken `{JwtCodec} (this : AuthService) t options :
  maintains (tokenService this) (AuthService.refreshToken this t options).
Proof.
  unfold AuthService.refreshToken, AuthService.refreshToken_resume,
    AuthService.refreshToken_revoke.
  apply maintains_bind; [apply maintains_verify|intros [d|]].
  - apply maintains_bind; [|intros user; apply maintains_issueTokens].
    apply maintains_bind; [apply maintains_findOne|intros user].
    apply maintains_bind; [apply maintains_revoke|intros _; apply maintains_ret].
  - apply maintains_bind; [apply maintains_throw|intros user; apply maintains_issueTokens].
Qed.

Lemma maintains_logout `{JwtCodec} (this : AuthService) u a :
  maintains (tokenService this) (AuthService.logout this u a).
Proof.
  unfold AuthService.logout, logout.
  apply maintains_bind; [|intros _; apply maintains_ret].
  apply maintains_bind; [apply maintains_blacklist|intros _; apply maintains_revokeAll].
Qed.

Lemma maintains_authenticate `{JwtCodec} this req :
  maintains this (JwtStrategy.authenticate req).
Proof.
  unfold JwtStrategy.authenticate, JwtStrategy.validate.
  destruct (bearerToken req) as [[|c cs]|]; try apply maintains_throw.
  apply maintains_bind; [apply maintains_now|intros ms].
  destruct (jwt_verify _ _) as [name|p]; [apply maintains_throw|].
  apply maintains_bind; [apply maintains_isBlacklisted|intros [|]];
    [apply maintains_throw|].
  apply maintains_bind; [apply maintains_findOne|intros user; apply maintains_ret].
Qed.

Lemma strip_prefix_Some p k t : strip_prefix p k = Some t -> k = p +:+ t.
Proof.
  revert k. induction p as [|a p IH]; intros k; simpl.
  - by intros [= ->].
  - destruct k as [|b k]; [done|]. destruct (Ascii.eqb a b) eqn:E; [|done].
    apply Ascii.eqb_eq in E as ->. intros ->%IH. done.
Qed.

Lemma ok_covers span now db : ok span now db -> covers_at now db.
Proof.
  intros [_ Hl] k e Hk Hlive. unfold covered.
  destruct (strip_prefix refreshTokenPrefix k) as [t|] eqn:Es; [|done].
  apply strip_prefix_Some in Es as ->.
  destruct (value e) as [[d|?]|?] eqn:Ev; try done.
  destruct (Hl t e d Hk Hlive Ev) as (_ & s & ex & Hi & Hin & Hlater).
  assert (peek now (userTokensKey (userId d)) db = Some (Entry (RSet s) ex)) as ->.
  { apply peek_Some. split; [done|]. by eapply later_live. }
  by apply bool_decide_eq_true_2.
Qed.

End Soundness.

(** ** Index keys stay sets *)

Module IndexKeys.
Import Redis TokenService StoreFacts TokenFacts RefreshTokenStore Frame SingleUse.
Import Consistency.

Lemma typed_ret {A} (a : A) : keeps_typed (mret a).
Proof. by intros w. Qed.

Lemma typed_throw {A} e : keeps_typed (throw (A := A) e).
Proof. by intros w. Qed.

Lemma typed_bind {A B} (m : M A) (f : A -> M B) :
  keeps_typed m -> (forall a, keeps_typed (f a)) -> keeps_typed (m ≫= f).
Proof.
  intros Hm Hf w Hw. rewrite bind_run. destruct (Hm w Hw) as [Ht Hc].
  destruct (m w) as [[a|e] w1]; cbn [snd] in *; [|done].
  destruct (Hf a w1 Ht) as [Ht' Hc']. split; [done|congruence].
Qed.

Lemma typed_try_catch {A} (m : M A) (h : exn -> M A) :
  keeps_typed m -> (forall e, keeps_typed (h e)) -> keeps_typed (try_catch m h).
Proof.
  intros Hm Hh w Hw. unfold try_catch. destruct (Hm w Hw) as [Ht Hc].
  destruct (m w) as [[a|e] w1]; cbn [snd] in *; [done|].
  destruct (Hh e w1 Ht) as [Ht' Hc']. split; [done|congruence].
Qed.

Lemma typed_settle {A} (m : M A) : keeps_typed m -> keeps_typed (settle m).
Proof.
  intros Hm w Hw. unfold settle. specialize (Hm w Hw).
  by destruct (m w) as [[a|e] w1].
Qed.

Lemma typed_attempt {A} (m : M A) : keeps_typed m -> keeps_typed (AuthService.attempt m).
Proof.
  intros Hm w Hw. unfold AuthService.attempt. specialize (Hm w Hw).
  by destruct (m w) as [r w1].
Qed.

Lemma typed_Promise_all ps : Forall keeps_typed ps -> keeps_typed (Promise_all ps).
Proof.
  induction 1 as [|p ps Hp _ IH]; [apply typed_ret|].
  cbn [Promise_all]. apply typed_bind; [by apply typed_settle|intros r].
  apply typed_bind; [by apply typed_settle|intros rest].
  destruct r, rest; apply typed_throw || apply typed_ret.
Qed.

Lemma typed_now : keeps_typed now_ms.
Proof. by intros w. Qed.

Lemma typed_uuid : keeps_typed randomUUID.
Proof. by intros w. Qed.

Lemma typed_sent c w : index_typed w -> index_typed (sent c w).
Proof. done. Qed.

Lemma typed_get k : keeps_typed (get k).
Proof.
  intros w Hw. rewrite get_run. destruct (hd false (faults w)); [done|].
  by destruct (peek _ _ _) as [[[] ?]|].
Qed.

Lemma typed_exists k : keeps_typed (exists_ k).
Proof.
  intros w Hw. rewrite exists_run. destruct (hd false (faults w)); [done|].
  by destruct (peek _ _ _).
Qed.

Lemma typed_smembers k : keeps_typed (smembers k).
Proof.
  intros w Hw. rewrite smembers_run. destruct (hd false (faults w)); [done|].
  by destruct (peek _ _ _) as [[[] ?]|].
Qed.

Lemma typed_del k : keeps_typed (del k).
Proof.
  intros w Hw. rewrite del_run. destruct (hd false (faults w)); [done|].
  split; [|done]. by apply typed_delete.
Qed.

Lemma typed_sadd k member : keeps_typed (sadd k member).
Proof.
  intros w Hw. rewrite sadd_run. destruct (hd false (faults w)); [done|].
  destruct (peek _ _ _) as [[[] ?]|]; (split; [|done]); try done;
    by apply typed_insert_set.
Qed.

Lemma typed_srem k member : keeps_typed (srem k member).
Proof.
  intros w Hw. rewrite srem_run. destruct (hd false (faults w)); [done|].
  destruct (peek _ _ _) as [[[] ?]|]; (split; [|done]); try done.
  cbn [snd]. unfold index_typed. cbn [clock store set_store sent].
  case_decide; [by apply typed_delete|by apply typed_insert_set].
Qed.

Lemma typed_expire k seconds : keeps_typed (expire k seconds).
Proof.
  intros w Hw. destruct seconds as [ttl|].
  - rewrite expire_run. destruct (hd false (faults w)); [done|].
    destruct (peek (clock w) k (store w)) as [e|] eqn:Ep; [|done].
    split; [|done]. cbn [snd]. unfold index_typed. cbn [clock store set_store sent].
    destruct (0 <? ttl); [|by apply typed_delete].
    apply peek_Some in Ep as [El Elive].
    apply map_Forall_insert_2; [|exact Hw].
    intros Hk _. cbn [value]. exact (Hw k e El Hk Elive).
  - unfold expire. rewrite bind_run, send_run.
    by destruct (hd false (faults w)).
Qed.

(** SETEX on a key outside the index namespace. *)
Lemma typed_setex k seconds v :
  String.prefix userRefreshTokensPrefix k = false -> keeps_typed (setex k seconds v).
Proof.
  intros Hk w Hw. rewrite setex_run. destruct (hd false (faults w)); [done|].
  destruct seconds as [ttl|]; [|done]. destruct (0 <? ttl); [|done].
  split; [|done]. by apply typed_insert_other.
Qed.

Lemma typed_findOne id : keeps_typed (UsersService.findOne id).
Proof.
  intros w Hw. unfold UsersService.findOne. rewrite bind_run. cbn [get_world].
  by destruct (users w !! id).
Qed.

Lemma typed_signAsync `{JwtCodec} jwt payload : keeps_typed (signAsync jwt payload).
Proof. intros w Hw. by rewrite signAsync_preserves. Qed.

Lemma typed_JSON_parse str : keeps_typed (JSON_parse str).
Proof. destruct str as [d|s]; [apply typed_ret|]. destruct s; apply typed_throw. Qed.

Lemma typed_revoke t : keeps_typed (revokeRefreshToken t).
Proof.
  unfold revokeRefreshToken. apply typed_try_catch; [|intros; apply typed_ret].
  apply typed_bind; [apply typed_get|intros [[d|s]|]]; [| |apply typed_ret].
  - apply typed_bind; [apply (typed_JSON_parse (JsonText d))|intros d'].
    apply typed_bind; [apply typed_srem|intros _].
    apply typed_bind; [apply typed_del|intros _; apply typed_ret].
  - destruct s; [apply typed_ret|].
    apply typed_bind; [apply typed_throw|intros d'].
    apply typed_bind; [apply typed_srem|intros _].
    apply typed_bind; [apply typed_del|intros _; apply typed_ret].
Qed.

Lemma typed_verify t : keeps_typed (verifyRefreshToken t).
Proof.
  pose proof (typed_revoke t) as Hr.
  unfold verifyRefreshToken. apply typed_try_catch; [|intros; apply typed_ret].
  apply typed_bind; [apply typed_get|intros [[d|s]|]]; [| |apply typed_ret].
  - apply typed_bind; [apply typed_ret|intros d'].
    apply typed_bind; [apply typed_now|intros now].
    destruct (expiresAt d' <? now); [|apply typed_ret].
    apply typed_bind; [exact Hr|intros _; apply typed_ret].
  - destruct s; [apply typed_ret|].
    apply typed_bind; [apply typed_throw|intros d'].
    apply typed_bind; [apply typed_now|intros now].
    destruct (expiresAt d' <? now); [|apply typed_ret].
    apply typed_bind; [exact Hr|intros _; apply typed_ret].
Qed.

Lemma typed_revokeAll u : keeps_typed (revokeUserRefreshTokens u).
Proof.
  unfold revokeUserRefreshTokens.
  apply typed_try_catch; [|intros; apply typed_ret].
  apply typed_bind; [apply typed_smembers|intros ts].
  destruct ts as [|t0 ts]; [apply typed_ret|].
  apply typed_Promise_all, Forall_app. split.
  - apply Forall_fmap, Forall_forall. intros t _.
    apply typed_bind; [apply typed_del|intros; apply typed_ret].
  - apply Forall_singleton.
    apply typed_bind; [apply typed_del|intros; apply typed_ret].
Qed.

Lemma typed_blacklist `{JwtCodec} this a : keeps_typed (blacklistAccessToken this a).
Proof.
  pose proof (λ seconds, typed_setex (blacklistKey a) seconds (Plain "1")
                           (user_prefix_blacklist a)) as Hs.
  unfold blacklistAccessToken.
  apply typed_try_catch; [|intros; apply typed_ret].
  apply typed_try_catch; [|intros; apply Hs].
  destruct (jwt_decode a) as [| |[e|]]; [apply typed_throw|apply Hs| |apply Hs].
  case_bool_decide; [apply Hs|].
  apply typed_bind; [apply typed_now|intros ms].
  destruct (0 <? e - ms / 1000); [apply Hs|apply typed_ret].
Qed.

Lemma typed_isBlacklisted a : keeps_typed (isAccessTokenBlacklisted a).
Proof.
  unfold isAccessTokenBlacklisted.
  apply typed_try_catch; [|intros; apply typed_ret].
  apply typed_bind; [apply typed_exists|intros n; apply typed_ret].
Qed.

Lemma typed_generate this u ro options :
  keeps_typed (generateRefreshToken this u ro options).
Proof.
  unfold generateRefreshToken.
  apply typed_bind; [apply typed_uuid|intros t].
  apply typed_bind; [apply typed_now|intros now].
  apply typed_bind.
  { unfold plus_days. destruct (refreshTokenExpirationDays this);
      [apply typed_throw..|apply typed_ret]. }
  intros e. apply typed_bind; [apply typed_now|intros c].
  apply typed_bind; [apply typed_setex, user_prefix_refresh|intros _].
  apply typed_bind; [apply typed_sadd|intros _].
  apply typed_bind; [apply typed_expire|intros _].
  apply typed_ret.
Qed.

Lemma typed_issueTokens `{JwtCodec} (this : AuthService) u ro options :
  keeps_typed (AuthService.issueTokens this u ro options).
Proof.
  unfold AuthService.issueTokens, generateAccessToken.
  apply typed_bind; [apply typed_signAsync|intros access].
  apply typed_bind; [apply typed_generate|intros refresh].
  apply typed_ret.
Qed.

Lemma typed_refreshToken_revoke t seen : keeps_typed (AuthService.refreshToken_revoke t seen).
Proof.
  unfold AuthService.refreshToken_revoke. destruct seen as [d|]; [|apply typed_throw].
  apply typed_bind; [apply typed_findOne|intros user].
  apply typed_bind; [apply typed_revoke|intros _; apply typed_ret].
Qed.

Lemma typed_refreshToken `{JwtCodec} (this : AuthService) t options :
  keeps_typed (AuthService.refreshToken this t options).
Proof.
  unfold AuthService.refreshToken, AuthService.refreshToken_resume.
  apply typed_bind; [apply typed_verify|intros seen].
  apply typed_bind; [apply typed_refreshToken_revoke|intros user].
  apply typed_issueTokens.
Qed.

Lemma typed_logout `{JwtCodec} (this : AuthService) u a :
  keeps_typed (AuthService.logout this u a).
Proof.
  unfold AuthService.logout, logout.
  apply typed_bind; [|intros _; apply typed_ret].
  apply typed_bind; [apply typed_blacklist|intros _; apply typed_revokeAll].
Qed.

Lemma typed_authenticate `{JwtCodec} req : keeps_typed (JwtStrategy.authenticate req).
Proof.
  unfold JwtStrategy.authenticate, JwtStrategy.validate.
  destruct (bearerToken req) as [[|c cs]|]; try apply typed_throw.
  apply typed_bind; [apply typed_now|intros ms].
  destruct (jwt_verify _ _) as [name|p]; [apply typed_throw|].
  apply typed_bind; [apply typed_isBlacklisted|intros [|]]; [apply typed_throw|].
  apply typed_bind; [apply typed_findOne|intros user; apply typed_ret].
Qed.

Lemma typed_later now now' db : now <= now' -> typed_at now db -> typed_at now' db.
Proof.
  intros Hle Ht k e Hk Hp Hlive. apply (Ht k e Hk Hp).
  by apply (live_mono now' now).
Qed.

(** X2. The keys of the per-user index namespace hold sets and go on
    holding sets, whatever fails: each store command as the services send it
    (SETEX on a record or marker key, and GET, EXISTS, SMEMBERS, DEL, SADD,
    SREM, EXPIRE on any key), each whole call of the services (issuing at
    login, rotation, logout, the request-time check), two rotations racing
    for one token, and the passing of time take a store whose index keys
    hold sets to one whose index keys hold sets, under every failure
    schedule; and the empty store is one. *)
Theorem index_keys_stay_sets `{JwtCodec} (this : AuthService) :
  (forall w, store w = ∅ -> index_typed w)
  /\ (forall w now, index_typed w -> clock w <= now -> index_typed (set_clock now w))
  /\ (forall t seconds v, keeps_typed (setex (refreshTokenKey t) seconds v))
  /\ (forall a seconds v, keeps_typed (setex (blacklistKey a) seconds v))
  /\ (forall k, keeps_typed (get k) /\ keeps_typed (exists_ k)
                /\ keeps_typed (smembers k) /\ keeps_typed (del k))
  /\ (forall k member seconds,
        keeps_typed (sadd k member) /\ keeps_typed (srem k member)
        /\ keeps_typed (expire k seconds))
  /\ (forall u ro options, keeps_typed (AuthService.issueTokens this u ro options))
  /\ (forall t options, keeps_typed (AuthService.refreshToken this t options))
  /\ (forall u a, keeps_typed (AuthService.logout this u a))
  /\ (forall req, keeps_typed (JwtStrategy.authenticate req))
  /\ (forall t, keeps_typed (AuthService.race_verify_first this t)
                /\ keeps_typed (AuthService.race_after_revoke this t)).
Proof.
  split. { intros w Hs. unfold index_typed, typed_at. rewrite Hs. apply map_Forall_empty. }
  split. { intros w now Hw Hle. by apply (typed_later (clock w)). }
  split. { intros. apply typed_setex, user_prefix_refresh. }
  split. { intros. apply typed_setex, user_prefix_blacklist. }
  split.
  { intros k. split; [apply typed_get|]. split; [apply typed_exists|].
    split; [apply typed_smembers|apply typed_del]. }
  split.
  { intros k member seconds. split; [apply typed_sadd|].
    split; [apply typed_srem|apply typed_expire]. }
  split; [intros; apply typed_issueTokens|].
  split; [intros; apply typed_refreshToken|].
  split; [intros; apply typed_logout|].
  split; [intros; apply typed_authenticate|].
  intros t. split.
  - unfold AuthService.race_verify_first.
    apply typed_bind; [apply typed_verify|intros seenA].
    apply typed_bind; [apply typed_verify|intros seenB].
    apply typed_bind;
      [apply typed_attempt; unfold AuthService.refreshToken_resume;
       apply typed_bind; [apply typed_refreshToken_revoke|intros; apply typed_issueTokens]|].
    intros ra.
    apply typed_bind;
      [apply typed_attempt; unfold AuthService.refreshToken_resume;
       apply typed_bind; [apply typed_refreshToken_revoke|intros; apply typed_issueTokens]|].
    intros rb. apply typed_ret.
  - unfold AuthService.race_after_revoke.
    apply typed_bind; [apply typed_verify|intros seenA].
    apply typed_bind; [apply typed_refreshToken_revoke|intros userA].
    apply typed_bind; [apply typed_attempt, typed_refreshToken|intros rb].
    apply typed_bind; [apply typed_attempt, typed_issueTokens|intros ra].
    apply typed_ret.
Qed.

End IndexKeys.

(* ===================================================================== *)
(** * Further properties *)

Import TextSpec PageSpec IssueSpec.
(* ===================================================================== *)

(** ** The key namespaces *)

Module KeySpace.
Import TokenService StoreFacts.

(** X3. The three key builders are injective, and no key of one
    namespace is a key of another: a refresh token, a user and an access
    token each have a key of their own, whatever the strings are. *)
Theorem key_namespaces (t t' : string) (u u' : Z) (a a' : string) :
  (refreshTokenKey t = refreshTokenKey t' <-> t = t')
  /\ (userTokensKey u = userTokensKey u' <-> u = u')
  /\ (blacklistKey a = blacklistKey a' <-> a = a')
  /\ refreshTokenKey t <> userTokensKey u
  /\ refreshTokenKey t <> blacklistKey a
  /\ userTokensKey u <> blacklistKey a.
Proof.
  split; [split; [apply refreshTokenKey_inj|by intros ->]|].
  split; [split; [apply userTokensKey_inj|by intros ->]|].
  split; [split; [apply blacklistKey_inj|by intros ->]|].
  split; [apply refresh_ne_user|]. split; [apply refresh_ne_blacklist|].
  apply user_ne_blacklist.
Qed.

End KeySpace.

(** ** Issuing a refresh token *)


Module Issue.
Import Redis TokenService StoreFacts TokenFacts RefreshTokenStore Frame SingleUse.






End Issue.

Module IssueWitness.
Import Redis TokenService StoreFacts TokenFacts Issue.



End IssueWitness.

(** ** What a call on one token leaves alone *)

Module Isolation.
Import Redis TokenService StoreFacts TokenFacts RefreshTokenStore Frame SingleUse.
Import LogoutFacts Logout.

Lemma revoke_preserves t k :
  k <> refreshTokenKey t -> (forall u, k <> userTokensKey u) ->
  preserves_key k (revokeRefreshToken t).
Proof.
  intros Hk Hu. assert (refreshTokenKey t <> k) as Hk' by done.
  unfold revokeRefreshToken. apply preserves_try_catch; [|intros; apply preserves_ret].
  apply preserves_bind; [apply preserves_get|intros [[d|s]|]]; [| |apply preserves_ret].
  - apply preserves_bind; [apply preserves_ret|intros d'].
    apply preserves_bind.
    { apply preserves_srem. intros E. by apply (Hu (userId d')). }
    intros _. apply preserves_bind; [by apply preserves_del|intros _; apply preserves_ret].
  - destruct s; [apply preserves_ret|].
    apply preserves_bind; [apply preserves_throw|intros d'].
    apply preserves_bind.
    { apply preserves_srem. intros E. by apply (Hu (userId d')). }
    intros _. apply preserves_bind; [by apply preserves_del|intros _; apply preserves_ret].
Qed.

Lemma verify_preserves t k :
  k <> refreshTokenKey t -> (forall u, k <> userTokensKey u) ->
  preserves_key k (verifyRefreshToken t).
Proof.
  intros Hk Hu.
  pose proof (revoke_preserves t k Hk Hu) as Hr.
  unfold verifyRefreshToken. apply preserves_try_catch; [|intros; apply preserves_ret].
  apply preserves_bind; [apply preserves_get|intros [[d|s]|]]; [| |apply preserves_ret].
  - apply preserves_bind; [apply preserves_ret|intros d'].
    apply preserves_bind; [apply preserves_now|intros now].
    destruct (expiresAt d' <? now); [|apply preserves_ret].
    apply preserves_bind; [exact Hr|intros _; apply preserves_ret].
  - destruct s; [apply preserves_ret|].
    apply preserves_bind; [apply preserves_throw|intros d'].
    apply preserves_bind; [apply preserves_now|intros now].
    destruct (expiresAt d' <? now); [|apply preserves_ret].
    apply preserves_bind; [exact Hr|intros _; apply preserves_ret].
Qed.

(** X5. Revoking or verifying a refresh token changes no key of the store
    other than that token's record and the per-user index sets, whatever
    commands fail: the records of other tokens and the blacklist markers
    are as they were. *)
Theorem revocation_touches_one_token (t : string) (k : string) (w : world) :
  k <> refreshTokenKey t -> (forall u, k <> userTokensKey u) ->
  store (snd (revokeRefreshToken t w)) !! k = store w !! k
  /\ store (snd (verifyRefreshToken t w)) !! k = store w !! k.
Proof.
  intros Hk Hu. split; [by apply revoke_preserves|by apply verify_preserves].
Qed.

Lemma revocation_touches_one_token_witness :
  store (snd (revokeRefreshToken "uuid-0" Scenario.after_login)) !! refreshTokenKey "other"
  = store Scenario.after_login !! refreshTokenKey "other"
  /\ store (snd (verifyRefreshToken "uuid-0" Scenario.after_login)) !! refreshTokenKey "other"
     = store Scenario.after_login !! refreshTokenKey "other".
Proof.
  apply (revocation_touches_one_token "uuid-0" (refreshTokenKey "other") Scenario.after_login).
  - discriminate.
  - intros u. apply refresh_ne_user.
Defined.

Lemma preserves_findOne k id : preserves_key k (UsersService.findOne id).
Proof.
  intros w. unfold UsersService.findOne. rewrite bind_run. cbn [get_world].
  by destruct (users w !! id).
Qed.

(** X6. A rotation changes no key of the store other than the record of the
    presented token, the record of the token it issues and the per-user
    index sets, whatever commands fail and whether or not it succeeds. *)
Theorem rotation_touches_two_tokens `{JwtCodec} (this : AuthService) (t : string)
    (options : option RequestMeta) (k : string) (w : world) :
  k <> refreshTokenKey t -> k <> refreshTokenKey (rng w (drawn w)) ->
  (forall u, k <> userTokensKey u) ->
  store (snd (AuthService.refreshToken this t options w)) !! k = store w !! k.
Proof.
  intros Hk Hnew Hu.
  unfold AuthService.refreshToken, AuthService.refreshToken_resume. rewrite bind_run.
  pose proof (verify_preserves t k Hk Hu w) as Hv.
  destruct (entropy_verify t w) as [Hr Hd].
  destruct (verifyRefreshToken t w) as [[seen|e] wa]; cbn [snd] in *; [|done].
  rewrite bind_run.
  assert (preserves_key k (AuthService.refreshToken_revoke t seen)) as Hp.
  { unfold AuthService.refreshToken_revoke. destruct seen as [d|]; [|apply preserves_throw].
    apply preserves_bind; [apply preserves_findOne|intros user].
    apply preserves_bind; [by apply revoke_preserves|intros _; apply preserves_ret]. }
  assert (keeps_entropy (AuthService.refreshToken_revoke t seen)) as He.
  { unfold AuthService.refreshToken_revoke. destruct seen as [d|]; [|apply entropy_throw].
    apply entropy_bind; [apply entropy_findOne|intros user].
    apply entropy_bind; [apply entropy_revoke|intros _; apply entropy_ret]. }
  specialize (Hp wa). destruct (He wa) as [Hr' Hd'].
  destruct (AuthService.refreshToken_revoke t seen wa) as [[user|e] wb]; cbn [snd] in *;
    [|congruence].
  rewrite issueTokens_preserves; [congruence| |done].
  by rewrite Hr', Hd', Hr, Hd.
Qed.

Lemma rotation_touches_two_tokens_witness :
  store (snd (AuthService.refreshToken (H := Scenario.codec) Scenario.auth "uuid-0" None
                Scenario.after_login)) !! blacklistKey "7.1000900"
  = store Scenario.after_login !! blacklistKey "7.1000900".
Proof.
  apply (rotation_touches_two_tokens (H := Scenario.codec) Scenario.auth "uuid-0" None
           (blacklistKey "7.1000900") Scenario.after_login).
  - discriminate.
  - discriminate.
  - intros u E. symmetry in E. by apply user_ne_blacklist in E.
Defined.

End Isolation.

(** ** Failures of the store during token calls *)

Module Failures.
Import Redis TokenService StoreFacts TokenFacts RefreshTokenStore Frame SingleUse.
Import Blacklist LogoutFacts Logout.

(** X7. A verification that answers with a record has only read: the store
    is as it was, the one command sent is the GET of the token's key, the
    record is the one held under that key, and it has not expired. *)
Theorem verification_reads_only (t : string) (w w' : world) (d : RefreshTokenData) :
  verifyRefreshToken t w = (Return (Some d), w') ->
  store w' = store w
  /\ log w' = log w ++ [GET (refreshTokenKey t)]
  /\ (exists ex, store w !! refreshTokenKey t = Some (Entry (RStr (JsonText d)) ex))
  /\ clock w <= expiresAt d.
Proof.
  intros E. destruct (verify_some t w d w' E) as (_ & Hv & ->).
  split; [done|]. split; [done|].
  unfold verify_result in Hv.
  destruct (peek (clock w) (refreshTokenKey t) (store w)) as [[[[d'|s]|s] ex]|] eqn:Ep;
    try discriminate.
  destruct (expiresAt d' <? clock w) eqn:Ex; [discriminate|].
  injection Hv as ->. apply peek_Some in Ep as [Ep _]. apply Z.ltb_ge in Ex.
  split; [by exists ex|done].
Qed.

Lemma verification_reads_only_witness :
  store (sent (GET (refreshTokenKey "uuid-0")) Scenario.after_login)
  = store Scenario.after_login
  /\ log (sent (GET (refreshTokenKey "uuid-0")) Scenario.after_login)
     = log Scenario.after_login ++ [GET (refreshTokenKey "uuid-0")]
  /\ (exists ex, store Scenario.after_login !! refreshTokenKey "uuid-0"
                 = Some (Entry (RStr (JsonText
                      {| userId := 7; role := USER; expiresAt := 1604800000;
                         createdAt := 1000000000; ipAddress := None;
                         userAgent := None |})) ex))
  /\ clock Scenario.after_login <= 1604800000.
Proof.
  apply (verification_reads_only "uuid-0" Scenario.after_login
           (sent (GET (refreshTokenKey "uuid-0")) Scenario.after_login)
           {| userId := 7; role := USER; expiresAt := 1604800000;
              createdAt := 1000000000; ipAddress := None; userAgent := None |}).
  by vm_compute.
Defined.

(** Closes a case in which no command of the call failed. *)
Ltac counted Hf i :=
  cbn [mret M_ret throw fst snd log sent set_store];
  rewrite ?length_app; cbn [length];
  let Hi := fresh "Hi" in
  intros Hi; destruct i as [|[|[|i]]]; try (by simpl in Hf); simpl in Hi; lia.

(** X8. Revocation swallows a failure of the store: when one of its
    commands fails the call still returns normally, and the record of the
    token is left in the store as it was. *)
Theorem revocation_failure_keeps_token (t : string) (w : world) :
  failed_during w (snd (revokeRefreshToken t w)) ->
  fst (revokeRefreshToken t w) = Return tt
  /\ store (snd (revokeRefreshToken t w)) !! refreshTokenKey t
     = store w !! refreshTokenKey t.
Proof.
  intros (i & Hi & Hf). split; [apply revoke_never_throws|].
  revert Hi. unfold revokeRefreshToken, try_catch. rewrite bind_run, get_run.
  destruct (faults w) as [|f0 fs] eqn:Ef; [by rewrite lookup_nil in Hf|].
  cbn [hd]. destruct f0; [done|].
  destruct (peek (clock w) (refreshTokenKey t) (store w)) as [[[[d|s]|s] ex]|] eqn:Ek;
    cbn [JSON_parse mret M_ret throw fst snd].
  - rewrite !bind_run. cbn [mret M_ret]. rewrite bind_run, srem_run.
    cbn [faults sent tail clock store]. rewrite Ef. cbn [tail].
    destruct fs as [|f1 fs]; cbn [hd]; [|destruct f1; [done|]];
      (destruct (peek (clock w) (userTokensKey (userId d)) (store w)) as [[[tx|s] ex']|];
       [counted Hf i| |]);
      rewrite bind_run, del_run; cbn [faults sent set_store tail hd]; rewrite ?Ef;
      cbn [tail hd]; try counted Hf i;
      (destruct fs as [|f2 fs]; cbn [hd]; [counted Hf i|]);
      (destruct f2; [|counted Hf i]); intros _;
      cbn [mret M_ret fst snd store set_store sent]; [|done].
    case_decide.
    + rewrite lookup_delete_ne; [done|]. intros E. symmetry in E.
      by apply refresh_ne_user in E.
    + rewrite lookup_insert_ne; [done|]. intros E. symmetry in E.
      by apply refresh_ne_user in E.
  - destruct s; [counted Hf i|]. rewrite ?bind_run. counted Hf i.
  - counted Hf i.
  - counted Hf i.
Qed.

End Failures.

Module FailuresWitness.
Import Redis TokenService StoreFacts TokenFacts Failures.

Lemma revocation_failure_keeps_token_witness :
  fst (revokeRefreshToken "uuid-0" second_command_fails) = Return tt
  /\ store (snd (revokeRefreshToken "uuid-0" second_command_fails)) !! refreshTokenKey "uuid-0"
     = store second_command_fails !! refreshTokenKey "uuid-0".
Proof.
  apply (revocation_failure_keeps_token "uuid-0" second_command_fails).
  exists 1%nat. split; [vm_compute; lia|reflexivity].
Defined.

End FailuresWitness.

(** ** The blacklist under failures, and the life of a marker *)

Module BlacklistFailures.
Import Redis TokenService StoreFacts TokenFacts Blacklist.

(** X9. The blacklist check fails open: it never throws; when its EXISTS
    command fails it answers false, whatever the store holds; otherwise it
    answers whether the marker is held.  It never changes the store. *)
Theorem blacklist_check_fails_open (a : string) (w : world) :
  fst (isAccessTokenBlacklisted a w)
  = Return (if hd false (faults w) then false
            else bool_decide (is_Some (peek (clock w) (blacklistKey a) (store w))))
  /\ store (snd (isAccessTokenBlacklisted a w)) = store w
  /\ log (snd (isAccessTokenBlacklisted a w)) = log w ++ [EXISTS (blacklistKey a)].
Proof.
  unfold isAccessTokenBlacklisted, try_catch. rewrite bind_run, exists_run.
  destruct (hd false (faults w)); [done|].
  by destruct (peek _ _ _) as [e|]; run.
Qed.

(** X10. The request-time check lets a request through when the store does
    not answer: a token the codec accepts, for a user that exists, is
    authenticated whatever the blacklist holds. *)
Theorem request_accepted_when_store_fails `{JwtCodec} (req : Request) (c : ascii)
    (cs : string) (w : world) (p : TokenPayload) (user : User) :
  bearerToken req = Some (String c cs) ->
  jwt_verify (String c cs) (clock w / 1000) = Verified p ->
  users w !! payload_sub p = Some user ->
  hd false (faults w) = true ->
  fst (JwtStrategy.authenticate req w) = Return user.
Proof.
  intros Hb Hv Hu Hf. unfold JwtStrategy.authenticate, JwtStrategy.validate. rewrite Hb.
  run. rewrite Hv. unfold isAccessTokenBlacklisted, try_catch.
  rewrite !bind_run, exists_run, Hf. cbn [mret M_ret].
  unfold UsersService.findOne, UsersService.toSafeEntity. run.
  cbn [get_world users sent]. by rewrite Hu.
Qed.

Lemma request_accepted_when_store_fails_witness :
  peek (clock blacklisted_then_down) (blacklistKey "7.1000900")
    (store blacklisted_then_down) = Some (marker 1000000000 900)
  /\ fst (JwtStrategy.authenticate (H := Scenario.codec)
            {| bearerToken := Some "7.1000900" |} blacklisted_then_down)
     = Return Scenario.alice.
Proof.
  split; [by vm_compute|].
  apply (request_accepted_when_store_fails (H := Scenario.codec)
           {| bearerToken := Some "7.1000900" |} "7"%char ".1000900" blacklisted_then_down
           {| payload_sub := 7; payload_role := USER |} Scenario.alice);
    reflexivity.
Defined.

(** X11. When the write of the marker fails, the handler written for
    undecodable tokens writes it again with the configured default lifetime:
    for a token whose expiry claim is readable and ahead, a first SETEX that
    fails and a second that is answered leave a marker that lives for the
    default lifetime, not for the rest of the token's validity. *)
Theorem blacklist_retry_uses_default_lifetime `{JwtCodec} (this : TokenService)
    (a : string) (w : world) (e : Z) (fs : list bool) :
  faults w = true :: false :: fs ->
  jwt_decode a = DecodePayload (Some e) -> e <> 0 -> clock w / 1000 < e ->
  let w' := snd (blacklistAccessToken this a w) in
  store w'
  = match usable_ttl (seconds_argument (accessTokenExpirationSeconds this)) with
    | Some n => <[blacklistKey a := marker (clock w) n]> (store w)
    | None => store w
    end
  /\ log w' = log w ++ [SETEX (blacklistKey a) (Some (e - clock w / 1000)) (Plain "1");
                        SETEX (blacklistKey a)
                              (seconds_argument (accessTokenExpirationSeconds this))
                              (Plain "1")].
Proof.
  intros Hf Hd He Ha. unfold blacklistAccessToken, try_catch. rewrite Hd.
  rewrite bool_decide_eq_false_2 by done. run.
  assert ((0 <? e - clock w / 1000) = true) as -> by (apply Z.ltb_lt; lia).
  rewrite setex_run, Hf. cbn [hd]. rewrite setex_run. cbn [faults sent tail clock].
  rewrite Hf. cbn [hd tail]. unfold usable_ttl, marker.
  destruct (seconds_argument (accessTokenExpirationSeconds this)) as [n|];
    cbn [mret M_ret fst snd store log sent].
  - destruct (0 <? n); cbn [mret M_ret fst snd store log sent set_store];
      by rewrite <- app_assoc.
  - by rewrite <- app_assoc.
Qed.

Lemma blacklist_retry_uses_default_lifetime_witness :
  let w' := snd (blacklistAccessToken (H := Scenario.codec) Scenario.tokens "7.1000100"
                   first_command_fails) in
  store w' = <[blacklistKey "7.1000100" := marker 1000000000 900]> ∅
  /\ log w' = [SETEX (blacklistKey "7.1000100") (Some 100) (Plain "1");
               SETEX (blacklistKey "7.1000100") (Some 900) (Plain "1")].
Proof.
  apply (blacklist_retry_uses_default_lifetime (H := Scenario.codec) Scenario.tokens
           "7.1000100" first_command_fails 1000100 []); by vm_compute.
Defined.

(** X12. The marker written for a token whose expiry claim [e] (seconds) is
    readable and ahead is held at every instant before [e], and is gone one
    second after [e] at the latest: a blacklisted token is reported for as
    long as the codec would accept it. *)
Theorem marker_covers_token_validity `{JwtCodec} (this : TokenService) (a : string)
    (w : world) (e : Z) (now : Z) :
  answers w -> jwt_decode a = DecodePayload (Some e) -> e <> 0 -> clock w / 1000 < e ->
  let db := store (snd (blacklistAccessToken this a w)) in
  (now < e * 1000 -> is_Some (peek now (blacklistKey a) db))
  /\ (e * 1000 + 1000 <= now -> peek now (blacklistKey a) db = None).
Proof.
  intros Hw Hd He Ha db.
  destruct (blacklist_store this a w Hw) as [_ Hs]. fold db in Hs.
  unfold marker_ttl in Hs. rewrite Hd, bool_decide_eq_false_2 in Hs by done.
  assert ((0 <? e - clock w / 1000) = true) as Ha' by (apply Z.ltb_lt; lia).
  rewrite Ha' in Hs.
  rewrite Hs, peek_insert_eq. unfold marker, live. cbn [expires].
  pose proof (Z.div_mod (clock w) 1000 ltac:(lia)) as Hq.
  pose proof (Z.mod_pos_bound (clock w) 1000 ltac:(lia)) as Hr.
  split; intros Hn.
  - destruct (now <? _) eqn:El; [by eexists|]. apply Z.ltb_ge in El. lia.
  - destruct (now <? _) eqn:El; [|done]. apply Z.ltb_lt in El. lia.
Qed.

Lemma marker_covers_token_validity_witness :
  let db := store (snd (blacklistAccessToken (H := Scenario.codec) Scenario.tokens
                          "7.1000900" Scenario.boot)) in
  (1000899999 < 1000900 * 1000 -> is_Some (peek 1000899999 (blacklistKey "7.1000900") db))
  /\ (1000900 * 1000 + 1000 <= 1000901000
      -> peek 1000901000 (blacklistKey "7.1000900") db = None).
Proof.
  split.
  - apply (marker_covers_token_validity (H := Scenario.codec) Scenario.tokens "7.1000900"
             Scenario.boot 1000900 1000899999); by vm_compute.
  - apply (marker_covers_token_validity (H := Scenario.codec) Scenario.tokens "7.1000900"
             Scenario.boot 1000900 1000901000); by vm_compute.
Defined.

End BlacklistFailures.

(** ** Bulk revocation and logout under failures *)

Module BulkRevocation.
Import Redis TokenService StoreFacts TokenFacts RefreshTokenStore Frame SingleUse.
Import Blacklist LogoutFacts Logout.

Lemma Promise_all_world p ps w :
  snd (Promise_all (p :: ps) w) = snd (Promise_all ps (snd (p w))).
Proof.
  cbn [Promise_all]. rewrite bind_run. unfold settle at 1.
  destruct (p w) as [[[]|e] w1]; cbn [snd]; rewrite bind_run; unfold settle;
    destruct (Promise_all ps w1) as [[[]|e'] w2]; done.
Qed.

Lemma del_world k w :
  snd ((del k ≫= λ _, mret tt) w)
  = if hd false (faults w) then sent (DEL k) w
    else set_store (delete k) (sent (DEL k) w).
Proof. rewrite bind_run, del_run. by destruct (hd false (faults w)). Qed.

(** Deletions started together, under any failure schedule: each command
    is sent, in order, and each one that is answered removes its key. *)
Lemma Promise_all_dels_any ks w :
  let w' := snd (Promise_all ((λ k, del k ≫= λ _, mret tt) <$> ks) w) in
  log w' = log w ++ (DEL <$> ks)
  /\ (forall k, store w !! k = None -> store w' !! k = None)
  /\ (forall i k, ks !! i = Some k -> faults w !! i <> Some true -> store w' !! k = None).
Proof.
  revert w. induction ks as [|k0 ks IH]; intros w; cbn zeta.
  - cbn. rewrite app_nil_r. by repeat split.
  - cbn [fmap list_fmap]. rewrite Promise_all_world, del_world.
    set (w1 := if hd false (faults w) then sent (DEL k0) w
               else set_store (delete k0) (sent (DEL k0) w)).
    destruct (IH w1) as (Hl & Hkeep & Hdel).
    assert (log w1 = log w ++ [DEL k0] /\ faults w1 = tail (faults w)
            /\ (forall k, store w !! k = None -> store w1 !! k = None)
            /\ (hd false (faults w) = false -> store w1 !! k0 = None))
      as (Hl1 & Hf1 & Hk1 & Hd1).
    { unfold w1. destruct (hd false (faults w)); cbn [log faults store sent set_store].
      - by repeat split.
      - repeat split; [|intros _; apply lookup_delete_eq].
        intros k Hk. destruct (decide (k0 = k)) as [->|Hne];
          [apply lookup_delete_eq|by rewrite lookup_delete_ne]. }
    split; [rewrite Hl, Hl1; cbn [fmap list_fmap]; by rewrite <- app_assoc|].
    split; [intros k Hk; by apply Hkeep, Hk1|].
    intros [|i] k Hi Hf.
    + injection Hi as ->. apply Hkeep, Hd1.
      by destruct (faults w) as [|[] fs].
    + apply (Hdel i k Hi). rewrite Hf1. destruct (faults w) as [|f fs]; [done|exact Hf].
Qed.

(** X13. Bulk revocation is best effort.  When the index of [u] is read as
    the set [s], one DEL is sent for the record of each member and one for
    the index, in that order, whatever fails; every key whose DEL is
    answered is gone afterwards; and the call returns normally. *)
Theorem bulk_revocation_is_best_effort (u : Z) (w : world) (s : gset string)
    (ex : option Z) :
  answers w ->
  peek (clock w) (userTokensKey u) (store w) = Some (Entry (RSet s) ex) ->
  s <> ∅ ->
  let ks := (refreshTokenKey <$> elements s) ++ [userTokensKey u] in
  let w' := snd (revokeUserRefreshTokens u w) in
  fst (revokeUserRefreshTokens u w) = Return tt
  /\ log w' = log w ++ SMEMBERS (userTokensKey u) :: (DEL <$> ks)
  /\ forall i k, ks !! i = Some k -> faults w !! S i <> Some true -> store w' !! k = None.
Proof.
  intros Ha Hp Hs ks w'. split; [apply try_catch_unit|].
  assert (w' = snd (Promise_all ((λ k, del k ≫= λ _, mret tt) <$> ks)
                      (sent (SMEMBERS (userTokensKey u)) w))) as ->.
  { unfold w', revokeUserRefreshTokens, try_catch.
    rewrite bind_run, smembers_run, Ha, Hp.
    destruct (elements s) as [|t0 ts] eqn:Ee.
    { apply elements_empty_inv in Ee. by apply leibniz_equiv in Ee. }
    unfold ks. rewrite fmap_app, <- list_fmap_compose.
    by destruct (Promise_all _ _) as [[[]|e] w2]. }
  destruct (Promise_all_dels_any ks (sent (SMEMBERS (userTokensKey u)) w))
    as (Hl & _ & Hd).
  split; [rewrite Hl; cbn [log sent]; by rewrite <- app_assoc|].
  intros i k Hi Hf. apply (Hd i k Hi). cbn [faults sent].
  destruct (faults w) as [|f fs]; [done|exact Hf].
Qed.

Lemma bulk_revocation_is_best_effort_witness :
  let w := with_faults [false; true] Scenario.after_login in
  let w' := snd (revokeUserRefreshTokens 7 w) in
  fst (revokeUserRefreshTokens 7 w) = Return tt
  /\ log w' = log w ++ [SMEMBERS (userTokensKey 7); DEL (refreshTokenKey "uuid-0");
                        DEL (userTokensKey 7)]
  /\ store w' !! userTokensKey 7 = None
  /\ store w' !! refreshTokenKey "uuid-0" <> None.
Proof.
  destruct (bulk_revocation_is_best_effort 7 (with_faults [false; true] Scenario.after_login)
              {[ "uuid-0" ]} (Some 1604800000)) as (Hr & Hl & Hd).
  - reflexivity.
  - reflexivity.
  - by vm_compute.
  - split; [exact Hr|]. split; [exact Hl|]. split.
    + apply (Hd 1%nat (userTokensKey 7)); [reflexivity|by vm_compute].
    + vm_compute. discriminate.
Defined.

(** X14. Bulk revocation for one user leaves alone the record of every
    token that the user's index does not list, and every blacklist marker,
    whatever commands fail. *)
Theorem bulk_revocation_touches_listed_tokens (u : Z) (k : string) (w : world) :
  k <> userTokensKey u ->
  (forall s ex t, peek (clock w) (userTokensKey u) (store w) = Some (Entry (RSet s) ex) ->
                  t ∈ s -> k <> refreshTokenKey t) ->
  store (snd (revokeUserRefreshTokens u w)) !! k = store w !! k.
Proof.
  intros Hu Hk. unfold revokeUserRefreshTokens, try_catch.
  rewrite bind_run, smembers_run.
  destruct (hd false (faults w)); [done|].
  destruct (peek (clock w) (userTokensKey u) (store w)) as [[[tx|s] ex]|] eqn:Ep; try done.
  destruct (elements s) as [|t0 ts] eqn:Ee; [done|]. rewrite <- Ee.
  cbn [mret M_ret].
  assert (preserves_key k (Promise_all
            (((λ refreshToken, del (refreshTokenKey refreshToken) ≫= λ _, mret tt)
                <$> elements s) ++ [del (userTokensKey u) ≫= λ _, mret tt]))) as Hp.
  { apply preserves_Promise_all, Forall_app. split.
    - apply Forall_fmap, Forall_forall. intros t Ht%elem_of_elements.
      apply preserves_bind; [|intros; apply preserves_ret].
      apply preserves_del. intros E. by apply (Hk s ex t).
    - apply Forall_cons. split; [|apply Forall_nil_2].
      apply preserves_bind; [|intros; apply preserves_ret].
      apply preserves_del. congruence. }
  specialize (Hp (sent (SMEMBERS (userTokensKey u)) w)).
  rewrite Ee in Hp |- *.
  by destruct (Promise_all _ _) as [[[]|e] w2].
Qed.

Lemma bulk_revocation_touches_listed_tokens_witness :
  store two_sessions !! refreshTokenKey "uuid-0" <> None
  /\ store (snd (revokeUserRefreshTokens 7 two_sessions)) !! refreshTokenKey "uuid-0" = None
  /\ store (snd (revokeUserRefreshTokens 7 two_sessions)) !! refreshTokenKey "uuid-1"
     = store two_sessions !! refreshTokenKey "uuid-1"
  /\ store two_sessions !! refreshTokenKey "uuid-1" <> None.
Proof.
  split; [vm_compute; discriminate|]. split; [reflexivity|].
  split; [|vm_compute; discriminate].
  apply (bulk_revocation_touches_listed_tokens 7 (refreshTokenKey "uuid-1") two_sessions).
  - discriminate.
  - intros s ex t Hp Hin.
    assert (peek (clock two_sessions) (userTokensKey 7) (store two_sessions)
            = Some (Entry (RSet {[ "uuid-0" ]}) (Some 1604800000))) as E by reflexivity.
    rewrite E in Hp. injection Hp as <- _.
    apply elem_of_singleton in Hin as ->. discriminate.
Defined.

(** X15. Logout reports success whatever happens: the call of the auth
    service returns [success: true] in every world, for every user and
    every string given as access token. *)
Theorem logout_always_reports_success `{JwtCodec} (this : AuthService) (u : Z)
    (a : string) (w : world) :
  fst (AuthService.logout this u a w) = Return true.
Proof.
  unfold AuthService.logout, logout. rewrite !bind_run.
  pose proof (blacklist_never_throws (tokenService this) a w) as Hb.
  destruct (blacklistAccessToken _ a w) as [r1 w1]. cbn [fst] in Hb. subst r1.
  pose proof (try_catch_unit
    (refreshTokens ← smembers (userTokensKey u);
     match refreshTokens with
     | [] => mret tt
     | _ => Promise_all
              (((λ refreshToken, del (refreshTokenKey refreshToken);; mret tt)
                  <$> refreshTokens) ++ [del (userTokensKey u);; mret tt])
     end) w1) as Hr.
  fold (revokeUserRefreshTokens u) in Hr.
  destruct (revokeUserRefreshTokens u w1) as [r2 w2]. cbn [fst] in Hr. by subst r2.
Qed.

(** X16. During an outage logout changes nothing and still reports success:
    when the three commands it can send all fail (the marker write, its
    retry, the read of the index), the store is as it was, so the access
    token is not blacklisted and the refresh tokens stay valid. *)
Theorem logout_during_outage_changes_nothing `{JwtCodec} (this : AuthService) (u : Z)
    (a : string) (w : world) (fs : list bool) :
  faults w = true :: true :: true :: fs ->
  fst (AuthService.logout this u a w) = Return true
  /\ store (snd (AuthService.logout this u a w)) = store w.
Proof.
  intros Hf. unfold AuthService.logout, logout. rewrite !bind_run.
  assert (exists w1, blacklistAccessToken (tokenService this) a w = (Return tt, w1)
                     /\ store w1 = store w
                     /\ hd false (faults w1) = true) as (w1 & -> & Hs1 & Hf1).
  { unfold blacklistAccessToken, try_catch.
    destruct (jwt_decode a) as [| |[e|]]; run;
      try (case_bool_decide; run);
      try (destruct (0 <? e - clock w / 1000); run);
      rewrite ?setex_run, ?Hf; cbn [hd faults sent tail];
      rewrite ?setex_run; cbn [hd faults sent tail]; rewrite ?Hf; cbn [hd tail];
      eexists; (split; [reflexivity|]); cbn [store faults sent]; rewrite ?Hf; by cbn. }
  unfold revokeUserRefreshTokens, try_catch. rewrite bind_run, smembers_run, Hf1.
  cbn [mret M_ret fst snd store sent]. by rewrite Hs1.
Qed.

Lemma logout_during_outage_changes_nothing_witness :
  fst (AuthService.logout (H := Scenario.codec) Scenario.auth 7 "7.1000900" outage)
  = Return true
  /\ store (snd (AuthService.logout (H := Scenario.codec) Scenario.auth 7 "7.1000900"
                   outage)) = store outage.
Proof.
  apply (logout_during_outage_changes_nothing (H := Scenario.codec) Scenario.auth 7
           "7.1000900" outage []).
  reflexivity.
Defined.

End BulkRevocation.

(** ** The token a rotation hands out *)

Module Lineage.
Import Redis TokenService StoreFacts TokenFacts RefreshTokenStore Frame SingleUse.
Import LogoutFacts Logout Consistency Soundness Issue.


End Lineage.

Module LineageWitness.
Import Redis TokenService StoreFacts TokenFacts Consistency Soundness Lineage.
#[local] Existing Instance Scenario.codec.


End LineageWitness.

Module LogoutFailuresWitness.
Import Redis TokenService StoreFacts TokenFacts Logout.
#[local] Existing Instance Scenario.codec.

Lemma logout_blacklists_despite_failures_witness :
  store (snd (logout Scenario.tokens 7 "7.1000900"
                (with_faults [false; true; true] Scenario.after_login)))
    !! blacklistKey "7.1000900"
  = Some (marker 1000000000 900).
Proof.
  apply (Logout.logout_blacklists_despite_failures Scenario.tokens 7 "7.1000900"
           (with_faults [false; true; true] Scenario.after_login) 900);
    reflexivity.
Defined.

End LogoutFailuresWitness.

(** ** A logged-out access token at the request-time check *)

Module LoggedOut.
Import Redis TokenService StoreFacts TokenFacts Blacklist LogoutFacts Logout.

(** X18. After a logout with an access token whose expiry claim [e] is
    readable and ahead, on a store that answers the marker write: any later
    request with that token, made before [e] on a store that answers and
    still holds what logout left, is refused as revoked, even though the
    codec accepts the token. *)
Theorem logged_out_token_is_refused `{JwtCodec} (this : AuthService) (u : Z)
    (req : Request) (c : ascii) (cs : string) (w w2 : world) (e : Z) (p : TokenPayload) :
  answers w -> bearerToken req = Some (String c cs) ->
  jwt_decode (String c cs) = DecodePayload (Some e) -> e <> 0 -> clock w / 1000 < e ->
  store w2 = store (snd (AuthService.logout this u (String c cs) w)) ->
  clock w2 < e * 1000 -> answers w2 ->
  jwt_verify (String c cs) (clock w2 / 1000) = Verified p ->
  fst (JwtStrategy.authenticate req w2)
  = Throw (UnauthorizedException ErrorMessages.TOKEN_REVOKED).
Proof.
  intros Hw Hb Hd He Ha Hs Hc Hw2 Hv.
  assert (store w2 !! blacklistKey (String c cs)
          = Some (marker (clock w) (e - clock w / 1000))) as Hm.
  { rewrite Hs. unfold AuthService.logout, logout. rewrite !bind_run.
    destruct (blacklist_store (tokenService this) (String c cs) w Hw) as [Hr Hst].
    unfold marker_ttl in Hst. rewrite Hd, bool_decide_eq_false_2 in Hst by done.
    assert ((0 <? e - clock w / 1000) = true) as Hpos by (apply Z.ltb_lt; lia).
    rewrite Hpos in Hst.
    destruct (blacklistAccessToken _ _ w) as [r1 w1]. cbn [fst snd] in Hr, Hst. subst r1.
    pose proof (revokeAll_preserves_blacklist u (String c cs) w1) as Hk.
    destruct (revokeUserRefreshTokens u w1) as [[[]|ex] w3]; cbn [snd mret M_ret] in *;
      by rewrite Hk, Hst, lookup_insert_eq. }
  unfold JwtStrategy.authenticate, JwtStrategy.validate. rewrite Hb. run. rewrite Hv.
  rewrite bind_run, isBlacklisted_run by done.
  unfold peek. rewrite Hm. unfold live, marker. cbn [expires].
  pose proof (Z.div_mod (clock w) 1000 ltac:(lia)) as Hq.
  pose proof (Z.mod_pos_bound (clock w) 1000 ltac:(lia)) as Hr.
  assert ((clock w2 <? clock w + (e - clock w / 1000) * 1000) = true) as ->
    by (apply Z.ltb_lt; lia).
  by rewrite bool_decide_eq_true_2.
Qed.

Lemma logged_out_token_is_refused_witness :
  fst (JwtStrategy.authenticate (H := Scenario.codec) {| bearerToken := Some "7.1000900" |}
         (set_clock 1000899999
            (snd (AuthService.logout (H := Scenario.codec) Scenario.auth 7 "7.1000900"
                    Scenario.after_login))))
  = Throw (UnauthorizedException ErrorMessages.TOKEN_REVOKED).
Proof.
  apply (logged_out_token_is_refused (H := Scenario.codec) Scenario.auth 7
           {| bearerToken := Some "7.1000900" |} "7"%char ".1000900" Scenario.after_login
           _ 1000900 {| payload_sub := 7; payload_role := USER |});
    first [reflexivity|discriminate].
Defined.

End LoggedOut.

(** ** The four duration parsers on arbitrary strings *)

Module Parsers.
Import Float64 Float64Facts TimeUtil TimeUtilFacts.

Lemma Int_inj a b : Int a = Int b -> a = b.
Proof. by intros [= ->]. Qed.

(** A product of integers that comes out below 2^53 was not rounded. *)
Lemma mul_Int_inv a b n :
  mul (Int a) (Int b) = Int n -> Z.abs n < 2 ^ 53 -> n = a * b.
Proof.
  rewrite mul_Int. intros E Hn.
  destruct (binary64_integer (a * b)) as [(s & Es & _)|(z' & Ez & Hsmall & Hlarge)].
  - rewrite Es in E. discriminate.
  - rewrite Ez in E. apply Int_inj in E. subst z'.
    destruct (Z.le_gt_cases (2 ^ 53) (Z.abs (a * b))) as [Hl|Hs].
    + specialize (Hlarge Hl). lia.
    + apply Hsmall. lia.
Qed.

Lemma mul_Infinity s k : k <> 0 -> exists s', mul (Infinity s) (Int k) = Infinity s'.
Proof.
  intros Hk. unfold mul, Int, is_zero. cbn [inject_Z Qnum].
  destruct (Z.eqb_spec k 0); [done|]. by eexists.
Qed.

Lemma mul_not_NaN a k : a <> NaN -> k <> 0 -> mul a (Int k) <> NaN.
Proof.
  intros Ha Hk. destruct a as [|s|q]; [done| |].
  - by destruct (mul_Infinity s k Hk) as [s' ->].
  - apply binary64_not_NaN.
Qed.

Lemma div_not_NaN a k : a <> NaN -> k <> 0 -> div a (Int k) <> NaN.
Proof.
  intros Ha Hk. destruct a as [|s|q]; [done|done|].
  unfold div, Int, is_zero. cbn [inject_Z Qnum].
  destruct (Z.eqb_spec k 0); [done|]. apply binary64_not_NaN.
Qed.

Lemma parseInt_digits_cases c ds :
  digits_only (String c ds) = true ->
  (exists s, parseInt (String c ds) = Infinity s)
  \/ exists a, parseInt (String c ds) = Int a.
Proof.
  intros Hd. rewrite parseInt_digits by done.
  destruct (binary64_integer (digits_to_Z 0 (String c ds)))
    as [(s & -> & _)|(a & -> & _)]; eauto.
Qed.

Ltac quotients :=
  rewrite ?mul_Int, ?div_Int by done;
  first [ apply binary64_proper; rewrite ?inject_Z_mult; field
        | match goal with
          | |- Int ?a = _ =>
              rewrite <- (binary64_Int a) by lia;
              apply binary64_proper; rewrite ?inject_Z_mult; field
          end ].

(** X19. The four parsers agree on every string.  Whenever
    [parseExpiresToSeconds] reads a string as an integer [n] of seconds
    below 2^53 in magnitude, the minutes, hours and days parsers return
    n / 60, n / 3600 and n / 86400, each as the double that the division
    gives. *)
Theorem duration_parsers_agree (v : string) (n : Z) (defaultValue : double) :
  parseExpiresToSeconds v = Int n -> Z.abs n < 2 ^ 53 ->
  parseExpiresToMinutes v = div (Int n) (Int 60)
  /\ parseExpiresToHours v = div (Int n) (Int 3600)
  /\ parseExpiresToDays v defaultValue = div (Int n) (Int 86400).
Proof.
  unfold parseExpiresToSeconds, parseExpiresToMinutes, parseExpiresToHours,
    parseExpiresToDays.
  destruct (regex_match v) as [[m u]|] eqn:Er.
  - destruct (regex_match_Some v m u Er) as (Hu & c & ds & -> & Hd).
    destruct (parseInt_digits_cases c ds Hd) as [[s ->]|[a ->]].
    { destruct u as [[] [] [] [] [] [] [] []]; simpl in Hu; try discriminate;
        intros E; try discriminate;
        match type of E with
        | mul _ (Int ?k) = _ =>
            destruct (mul_Infinity s k) as [s' Es]; [done|]; rewrite Es in E; discriminate
        end. }
    destruct u as [[] [] [] [] [] [] [] []]; simpl in Hu; try discriminate;
      intros E Hn;
      first [ apply Int_inj in E; subst a
            | apply mul_Int_inv in E; [subst n|exact Hn] ];
      repeat split; try reflexivity; quotients.
  - intros -> Hn. cbn [isNaN Int]. done.
Qed.

Lemma duration_parsers_agree_witness :
  parseExpiresToMinutes "90m" = Int 90
  /\ parseExpiresToHours "90m" = Finite (3 # 2)
  /\ parseExpiresToDays "90m" (Int 7) = Finite (1 # 16).
Proof.
  assert (div (Int 5400) (Int 60) = Int 90 /\ div (Int 5400) (Int 3600) = Finite (3 # 2)
          /\ div (Int 5400) (Int 86400) = Finite (1 # 16)) as (E1 & E2 & E3)
    by (vm_compute; done).
  rewrite <- E1, <- E2, <- E3.
  apply (duration_parsers_agree "90m" 5400 (Int 7)); [reflexivity|reflexivity].
Defined.

(** X20. [parseExpiresToDays] never gives NaN: on a string that
    [parseExpiresToSeconds] reads as NaN it gives its default, where the
    minutes and hours parsers give NaN as well.  So the refresh lifetime of
    a token service is not NaN whatever the configuration holds. *)
Theorem days_parser_never_NaN (v : string) (defaultValue : Q) :
  parseExpiresToDays v (Finite defaultValue) <> NaN
  /\ (parseExpiresToSeconds v = NaN ->
        parseExpiresToDays v (Finite defaultValue) = Finite defaultValue
        /\ parseExpiresToMinutes v = NaN /\ parseExpiresToHours v = NaN)
  /\ forall jwt configService,
       refreshTokenExpirationDays (TokenService.new jwt configService) <> NaN.
Proof.
  assert (forall v d,
     parseExpiresToDays v (Finite d) <> NaN
     /\ (parseExpiresToSeconds v = NaN ->
         parseExpiresToDays v (Finite d) = Finite d
         /\ parseExpiresToMinutes v = NaN /\ parseExpiresToHours v = NaN)) as Hall.
  { clear. intros v d.
    unfold parseExpiresToSeconds, parseExpiresToMinutes, parseExpiresToHours,
      parseExpiresToDays.
    destruct (regex_match v) as [[m u]|] eqn:Er.
    - destruct (regex_match_Some v m u Er) as (Hu & c & ds & -> & Hd).
      assert (parseInt (String c ds) <> NaN) as Hp.
      { rewrite parseInt_digits by done. apply binary64_not_NaN. }
      destruct u as [[] [] [] [] [] [] [] []]; simpl in Hu; try discriminate;
        (split; [first [exact Hp | by apply div_not_NaN]|]);
        intros E; exfalso; revert E; first [exact Hp | by apply mul_not_NaN].
    - destruct (parseInt v) as [|s|q] eqn:Ep; cbn [isNaN].
      + by split.
      + split; [by apply div_not_NaN|done].
      + split; [by apply div_not_NaN|done]. }
  split; [apply Hall|]. split; [apply Hall|].
  intros jwt configService. cbn [TokenService.new refreshTokenExpirationDays].
  apply (Hall (config_get configService "jwt.refreshExpiresIn" "7d") (inject_Z 7)).
Qed.

(** X21. The pattern of the parsers is not anchored: whatever precedes the
    first digit (a sign, text) and whatever follows the unit letter is
    ignored, the digits and the unit letter alone give the seconds: their
    value times the factor of the unit, when that is at most 2^53. *)
Theorem duration_pattern_unanchored (before after : string) (c : ascii) (ds : string)
    (u : ascii) :
  no_digit before = true -> digits_only (String c ds) = true -> is_unit u = true ->
  parseExpiresToSeconds (before +:+ String c ds +:+ String u after)
  = parseExpiresToSeconds (String c ds +:+ String u EmptyString)
  /\ (digits_to_Z 0 (String c ds) * factor u <= 2 ^ 53 ->
      parseExpiresToSeconds (before +:+ String c ds +:+ String u after)
      = Int (digits_to_Z 0 (String c ds) * factor u)).
Proof.
  intros Hb Hd Hu.
  assert (parseExpiresToSeconds (before +:+ String c ds +:+ String u after)
          = parseExpiresToSeconds (String c ds +:+ String u EmptyString)) as E.
  { unfold parseExpiresToSeconds.
    by rewrite regex_match_skip, !regex_match_unit by done. }
  split; [exact E|]. intros Hn. rewrite E. by apply parseExpiresToSeconds_unit.
Qed.

Lemma duration_pattern_unanchored_witness :
  parseExpiresToSeconds "in -15m, or 2h" = parseExpiresToSeconds "15m"
  /\ (digits_to_Z 0 "15" * factor "m" <= 2 ^ 53 ->
      parseExpiresToSeconds "in -15m, or 2h" = Int (digits_to_Z 0 "15" * factor "m")).
Proof.
  apply (duration_pattern_unanchored "in -" ", or 2h" "1" "5" "m"); reflexivity.
Defined.

End Parsers.

(** ** The bearer token of a header *)

Module BearerHeader.
Import AuthController.

Lemma split_space_one h b : split_space h = [b] -> h = b /\ no_space b = true.
Proof.
  revert b. induction h as [|c h IH]; intros b; simpl.
  - by intros [= <-].
  - destruct (Ascii.eqb c " ") eqn:Ec.
    + intros [= _ E]. by destruct h; simpl in E; repeat case_match.
    + destruct (split_space h) as [|part parts] eqn:Es.
      * intros [= <-]. destruct h; simpl in Es; repeat case_match; try done.
      * intros [= <- ->]. destruct (IH part eq_refl) as [-> Hn].
        split; [done|]. simpl. by rewrite Ec.
Qed.

Lemma split_space_two h a b :
  split_space h = [a; b] -> h = a +:+ " " +:+ b /\ no_space a = true /\ no_space b = true.
Proof.
  revert a. induction h as [|c h IH]; intros a; simpl; [done|].
  destruct (Ascii.eqb c " ") eqn:Ec.
  - intros [= <- E]. apply Ascii.eqb_eq in Ec as ->.
    by destruct (split_space_one h b E) as [-> Hn].
  - destruct (split_space h) as [|part parts] eqn:Es; [done|].
    intros [= <- ->]. destruct (IH part eq_refl) as (-> & Ha & Hb).
    split; [done|]. split; [|done]. simpl. by rewrite Ec.
Qed.

Lemma split_space_no_space b : no_space b = true -> split_space b = [b].
Proof.
  induction b as [|c b IH]; [done|]. simpl. intros [Hc Hb]%andb_true_iff.
  apply negb_true_iff in Hc. by rewrite Hc, IH.
Qed.

Lemma split_space_app a r :
  no_space a = true -> split_space (a +:+ String " " r) = a :: split_space r.
Proof.
  induction a as [|c a IH]; [done|]. simpl. intros [Hc Ha]%andb_true_iff.
  apply negb_true_iff in Hc. by rewrite Hc, IH.
Qed.

(** X22. [extractBearerToken] returns a token exactly for a header made of
    a scheme, one space and the token, where neither holds a space, the
    scheme is "bearer" in any letter case and the token is not empty; the
    token returned is that part of the header. *)
Theorem extractBearerToken_spec (headerValue token : string) :
  extractBearerToken headerValue = Some token
  <-> exists scheme,
        headerValue = scheme +:+ " " +:+ token
        /\ no_space scheme = true /\ no_space token = true
        /\ toLowerCase scheme = "bearer" /\ token <> EmptyString.
Proof.
  unfold extractBearerToken. split.
  - destruct headerValue as [|c0 h0]; [done|].
    destruct (split_space (String c0 h0)) as [|a [|b [|? ?]]] eqn:Es; try done.
    destruct (String.eqb (toLowerCase a) "bearer") eqn:El; [|done]. cbn [negb].
    apply String.eqb_eq in El.
    destruct b as [|cb b]; [done|]. intros [= <-].
    destruct (split_space_two _ _ _ Es) as (-> & Ha & Hb). by exists a.
  - intros (scheme & -> & Ha & Hb & Hl & Hne).
    assert (split_space (scheme +:+ " " +:+ token) = [scheme; token]) as ->.
    { change (scheme +:+ " " +:+ token) with (scheme +:+ String " " token).
      by rewrite split_space_app, split_space_no_space. }
    rewrite Hl. cbn [String.eqb negb].
    destruct scheme as [|cs scheme]; [done|]. cbn [String.append].
    by destruct token.
Qed.

End BearerHeader.

(** ** Loading the configuration *)

Module ConfigFacts.
Import JSString ConfigUtils.

Lemma truthy_Some (v : option string) :
  truthy v = true -> exists s, v = Some s /\ s <> EmptyString.
Proof. destruct v as [[|c s]|]; try done. intros _. by exists (String c s). Qed.

(** [requireEnv] in production or staging. *)
Lemma requireEnv_production (env : Env) (key : string) (defaultValue : option string)
    (v : string) :
  isProductionEnvironment env = true ->
  requireEnv env key defaultValue = Loaded v ->
  env !! key = Some v /\ v <> EmptyString
  /\ (defaultValue = Some v -> isDefaultValueDangerous key v = false).
Proof.
  intros Hp. unfold requireEnv, check. rewrite Hp.
  destruct (truthy (env !! key)) eqn:Et; [|done]. cbn [negb].
  destruct (truthy_Some _ Et) as (s & Es & Hs). rewrite Es.
  destruct (truthy defaultValue && _ && _) eqn:Ed; [done|].
  cbn [default from_option id]. intros [= <-]. split; [done|]. split; [done|].
  intros ->. cbn [truthy default from_option id] in Ed.
  rewrite bool_decide_eq_true_2 in Ed by done.
  destruct s; [done|]. exact Ed.
Qed.

(** X23. In production or staging [requireEnv] never falls back: a value
    it returns is the one the environment holds, it is not empty, and it is
    not the default when that default is a dangerous one. *)
Theorem requireEnv_production_guard (env : Env) (key : string)
    (defaultValue : option string) (v : string) :
  isProductionEnvironment env = true ->
  requireEnv env key defaultValue = Loaded v ->
  env !! key = Some v /\ v <> EmptyString
  /\ (defaultValue = Some v -> isDefaultValueDangerous key v = false).
Proof. apply requireEnv_production. Qed.

Lemma requireEnv_production_guard_witness :
  production !! "JWT_ACCESS_SECRET" = Some "0123456789abcdef0123456789abcdef"
  /\ "0123456789abcdef0123456789abcdef" <> EmptyString
  /\ (Some "change_me" = Some "0123456789abcdef0123456789abcdef" ->
      isDefaultValueDangerous "JWT_ACCESS_SECRET" "0123456789abcdef0123456789abcdef"
      = false).
Proof.
  apply (requireEnv_production_guard production "JWT_ACCESS_SECRET"
           (Some "change_me") "0123456789abcdef0123456789abcdef"); reflexivity.
Defined.

(** X24. In production or staging a value [getEnvWithDefault] returns has
    passed every check that was asked for.  Either the environment holds it,
    non-empty, of at least [minLength] UTF-16 code units (what [length]
    counts) and among [allowedValues]; or the
    variable is unset or empty, which is let through only when
    [rejectDefaultsInProduction] is false and [required] is not set. *)
Theorem getEnvWithDefault_production_checks (env : Env) (key defaultValue : string)
    (options : option EnvOptions) (v : string) :
  isProductionEnvironment env = true ->
  getEnvWithDefault env key defaultValue options = Loaded v ->
  (env !! key = Some v /\ v <> EmptyString
   /\ (forall n, options ≫= minLength = Some n -> (n <= utf16_length v)%nat)
   /\ (forall allowed, options ≫= allowedValues = Some allowed -> v ∈ allowed))
  \/ (truthy (env !! key) = false
      /\ options ≫= rejectDefaultsInProduction = Some false
      /\ options ≫= required <> Some true
      /\ v = default defaultValue (env !! key)).
Proof.
  intros Hp. unfold getEnvWithDefault, check. rewrite Hp.
  destruct (truthy (env !! key)) eqn:Et; cbn [negb andb].
  - destruct (truthy_Some _ Et) as (s & Es & Hs). rewrite Es.
    rewrite andb_false_r. cbn [andb].
    destruct (bool_decide (Some s = Some defaultValue) && _ && _); [done|].
    cbn [default from_option id].
    destruct (match options ≫= minLength with
              | Some (S n) => (utf16_length s <? S n)%nat
              | _ => false
              end) eqn:Em; [done|].
    destruct (match options ≫= allowedValues with
              | Some allowed => negb (bool_decide (s ∈ allowed))
              | None => false
              end) eqn:Ea; [done|].
    intros [= <-]. left. split; [done|]. split; [done|]. split.
    + intros n Hn. rewrite Hn in Em. destruct n as [|n]; [lia|].
      apply Nat.ltb_ge in Em. lia.
    + intros allowed Ha. rewrite Ha in Ea. apply negb_false_iff in Ea.
      by apply bool_decide_eq_true in Ea.
  - rewrite andb_true_r.
    destruct (bool_decide (options ≫= required = Some true)) eqn:Er; [done|].
    destruct (bool_decide (options ≫= rejectDefaultsInProduction = Some false)) eqn:Ej;
      [|done].
    cbn [negb andb]. rewrite andb_false_r. cbn [andb].
    intros [= <-]. right. split; [done|].
    apply bool_decide_eq_true in Ej. apply bool_decide_eq_false in Er. done.
Qed.

Lemma getEnvWithDefault_production_checks_witness :
  (production !! "JWT_ACCESS_EXPIRES_IN" = Some "15m" /\ "15m" <> EmptyString
   /\ (forall n, Some (mkEnvOptions None (Some 2%nat) (Some ["15m"; "1h"]) None) ≫= minLength
                 = Some n -> (n <= utf16_length "15m")%nat)
   /\ (forall allowed,
         Some (mkEnvOptions None (Some 2%nat) (Some ["15m"; "1h"]) None) ≫= allowedValues
         = Some allowed -> "15m" ∈ allowed))
  \/ (truthy (production !! "JWT_ACCESS_EXPIRES_IN") = false
      /\ Some (mkEnvOptions None (Some 2%nat) (Some ["15m"; "1h"]) None)
         ≫= rejectDefaultsInProduction = Some false
      /\ Some (mkEnvOptions None (Some 2%nat) (Some ["15m"; "1h"]) None) ≫= required
         <> Some true
      /\ "15m" = default "3600s" (production !! "JWT_ACCESS_EXPIRES_IN")).
Proof.
  apply (getEnvWithDefault_production_checks production "JWT_ACCESS_EXPIRES_IN"
           "3600s" (Some (mkEnvOptions None (Some 2%nat) (Some ["15m"; "1h"]) None)) "15m");
    reflexivity.
Defined.

(** [length] counts UTF-16 code units, not bytes: a value of one accented
    letter (two bytes) is too short for a minimum of 2, and one character
    outside the basic plane (four bytes) is just long enough. *)
Example minLength_counts_code_units :
  let e_acute := String "195" (String "169" EmptyString) in
  let emoji := String "240" (String "159" (String "152" (String "128" EmptyString))) in
  let options := Some (mkEnvOptions None (Some 2%nat) None None) in
  utf16_length e_acute = 1%nat /\ utf16_length emoji = 2%nat
  /\ getEnvWithDefault (<["GREETING" := e_acute]> production) "GREETING" "hello" options
     = ConfigError "Environment variable GREETING must be at least 2 characters long"
  /\ getEnvWithDefault (<["GREETING" := emoji]> production) "GREETING" "hello" options
     = Loaded emoji.
Proof. by vm_compute. Qed.

(** X25. In production or staging the JWT configuration loads only from
    explicit values: when it loads, the signing secret the auth module
    registers is the JWT_ACCESS_SECRET of the environment, not empty and not
    "change_me", and the access and refresh lifetimes are the non-empty
    JWT_ACCESS_EXPIRES_IN and JWT_REFRESH_EXPIRES_IN; none of the defaults
    written in the configuration, the module or the token service is used. *)
Theorem jwt_config_production_explicit (env : Env) (cfg : gmap string string) :
  isProductionEnvironment env = true ->
  JwtConfig.load env = Loaded cfg ->
  let jwt := AuthModule_jwt cfg in
  env !! "JWT_ACCESS_SECRET" = Some (secret jwt)
  /\ secret jwt <> EmptyString /\ secret jwt <> "change_me"
  /\ env !! "JWT_ACCESS_EXPIRES_IN" = Some (signOptions_expiresIn jwt)
  /\ signOptions_expiresIn jwt <> EmptyString
  /\ env !! "JWT_REFRESH_EXPIRES_IN" = Some (config_get cfg "jwt.refreshExpiresIn" "7d")
  /\ config_get cfg "jwt.refreshExpiresIn" "7d" <> EmptyString.
Proof.
  intros Hp. unfold JwtConfig.load.
  destruct (requireEnv env "JWT_ACCESS_SECRET" (Some "change_me")) as [sec|] eqn:Es; [|done].
  destruct (getEnvWithDefault env "JWT_ACCESS_EXPIRES_IN" "3600s" None) as [acc|] eqn:Ea;
    [|done].
  destruct (getEnvWithDefault env "JWT_REFRESH_EXPIRES_IN" "7d" None) as [ref|] eqn:Er;
    [|done].
  intros [= <-]. cbn zeta.
  destruct (requireEnv_production env _ _ sec Hp Es) as (Hs1 & Hs2 & Hs3).
  assert (forall key d v, getEnvWithDefault env key d None = Loaded v ->
                          env !! key = Some v /\ v <> EmptyString) as Hget.
  { intros key d v. unfold getEnvWithDefault, check. rewrite Hp.
    destruct (truthy (env !! key)) eqn:Et; cbn [negb andb mbind option_bind];
      [|by rewrite bool_decide_eq_false_2].
    destruct (truthy_Some _ Et) as (s & -> & Hs).
    rewrite andb_false_r. cbn [andb].
    destruct (bool_decide (Some s = Some d) && _ && _); [done|].
    cbn [default from_option id]. by intros [= <-]. }
  destruct (Hget _ _ _ Ea) as [Ha1 Ha2]. destruct (Hget _ _ _ Er) as [Hr1 Hr2].
  unfold AuthModule_jwt, config_get. cbn [secret signOptions_expiresIn].
  rewrite !lookup_insert_eq, ?lookup_insert_ne, ?lookup_insert_eq by done.
  cbn [default from_option id].
  repeat split; try done.
  intros ->. by specialize (Hs3 eq_refl).
Qed.

Lemma jwt_config_production_explicit_witness :
  let cfg : gmap string string :=
    {[ "jwt.accessSecret" := "0123456789abcdef0123456789abcdef";
       "jwt.accessExpiresIn" := "15m"; "jwt.refreshExpiresIn" := "30d" ]} in
  let jwt := AuthModule_jwt cfg in
  production !! "JWT_ACCESS_SECRET" = Some (secret jwt)
  /\ secret jwt <> EmptyString /\ secret jwt <> "change_me"
  /\ production !! "JWT_ACCESS_EXPIRES_IN" = Some (signOptions_expiresIn jwt)
  /\ signOptions_expiresIn jwt <> EmptyString
  /\ production !! "JWT_REFRESH_EXPIRES_IN"
     = Some (config_get cfg "jwt.refreshExpiresIn" "7d")
  /\ config_get cfg "jwt.refreshExpiresIn" "7d" <> EmptyString.
Proof.
  apply (jwt_config_production_explicit production
           {[ "jwt.accessSecret" := "0123456789abcdef0123456789abcdef";
              "jwt.accessExpiresIn" := "15m"; "jwt.refreshExpiresIn" := "30d" ]});
    reflexivity.
Defined.

End ConfigFacts.

(** ** Pages *)

Module Pagination.
Import BaseService.

Lemma ceil_div_bounds (t l : Z) :
  1 <= l -> exists n, ceil_div t l = Int n /\ (n - 1) * l < t <= n * l.
Proof.
  intros Hl. unfold ceil_div. destruct (l =? 0) eqn:E; [apply Z.eqb_eq in E; lia|].
  eexists. split; [reflexivity|].
  pose proof (Z.mul_div_le (- t) l ltac:(lia)).
  pose proof (Z.mul_succ_div_gt (- t) l ltac:(lia)). lia.
Qed.

Lemma page_data {T} (rows : list T) (p l : Z) :
  1 <= p -> 1 <= l ->
  Model_findAll rows l ((p - 1) * l)
  = Some (take (Z.to_nat l) (drop (Z.to_nat ((p - 1) * l)) rows)).
Proof.
  intros Hp Hl. unfold Model_findAll.
  assert (0 <= (p - 1) * l) by nia.
  destruct (l <? 0) eqn:E1; [apply Z.ltb_lt in E1; lia|].
  destruct ((p - 1) * l <? 0) eqn:E2; [apply Z.ltb_lt in E2; lia|]. done.
Qed.

(** X26. For a page number and a page size of at least 1, the page is
    served and its meta data describe the rows: at most [limit] rows come
    back; [totalPages] is the least number of pages that hold [total] rows;
    [hasNextPage] is true exactly when rows remain after this page, which is
    exactly when the next page is not empty; [hasPreviousPage] is true
    exactly after page 1; and the page is empty exactly when the rows ran
    out before it. *)
Theorem page_meta_describes_rows {T} (rows : list T) (p l : Z) :
  1 <= p -> 1 <= l ->
  exists data meta n next meta',
    findAllPaginated rows {| page := Some p; limit := Some l |} = Some (data, meta)
    /\ Z.of_nat (length data) <= l
    /\ total meta = Z.of_nat (length rows)
    /\ totalPages meta = Int n /\ (n - 1) * l < total meta <= n * l
    /\ (hasNextPage meta = true <-> p * l < total meta)
    /\ findAllPaginated rows {| page := Some (p + 1); limit := Some l |}
       = Some (next, meta')
    /\ (hasNextPage meta = true <-> next <> [])
    /\ (hasPreviousPage meta = true <-> 1 < p)
    /\ (data = [] <-> total meta <= (p - 1) * l).
Proof.
  intros Hp Hl. unfold findAllPaginated. cbn [page limit default from_option id].
  rewrite !page_data by lia. cbn [mbind option_bind].
  destruct (ceil_div_bounds (Model_count rows) l Hl) as (n & En & Hn).
  do 5 eexists. split; [reflexivity|]. cbn [total totalPages hasNextPage hasPreviousPage].
  rewrite En. cbn [lt_number]. unfold Model_count in *.
  set (off := (p - 1) * l) in *. set (off' := (p + 1 - 1) * l).
  assert (0 <= off) by (unfold off; nia).
  assert (off' = off + l) as -> by (unfold off, off'; lia).
  assert (p * l = off + l) as Hpl by (unfold off; lia).
  assert (forall k, 0 <= k ->
            take (Z.to_nat l) (drop (Z.to_nat k) rows) = []
            <-> Z.of_nat (length rows) <= k) as Hempty.
  { intros k Hk. rewrite <- length_zero_iff_nil, length_take, length_drop. lia. }
  split; [rewrite length_take; lia|]. split; [done|]. split; [done|]. split; [done|].
  assert ((p <? n) = true <-> off + l < Z.of_nat (length rows)) as Hnext.
  { rewrite Z.ltb_lt. split; intros; nia. }
  split; [by rewrite Hpl|]. split; [reflexivity|].
  split.
  { rewrite Hnext. split.
    - intros H1 H2. apply Hempty in H2; lia.
    - intros H1. destruct (decide (off + l < Z.of_nat (length rows))) as [|Hge]; [done|].
      exfalso. apply H1, Hempty; lia. }
  split; [by rewrite Z.ltb_lt|]. by apply Hempty.
Qed.

Lemma page_meta_describes_rows_witness :
  exists data meta n next meta',
    findAllPaginated ["a"; "b"; "c"; "d"; "e"] {| page := Some 2; limit := Some 2 |}
    = Some (data, meta)
    /\ Z.of_nat (length data) <= 2
    /\ total meta = Z.of_nat (length ["a"; "b"; "c"; "d"; "e"])
    /\ totalPages meta = Int n /\ (n - 1) * 2 < total meta <= n * 2
    /\ (hasNextPage meta = true <-> 2 * 2 < total meta)
    /\ findAllPaginated ["a"; "b"; "c"; "d"; "e"] {| page := Some (2 + 1); limit := Some 2 |}
       = Some (next, meta')
    /\ (hasNextPage meta = true <-> next <> [])
    /\ (hasPreviousPage meta = true <-> 1 < 2)
    /\ (data = [] <-> total meta <= (2 - 1) * 2).
Proof. apply (page_meta_describes_rows ["a"; "b"; "c"; "d"; "e"] 2 2); lia. Defined.

Lemma pages_take {T} (rows : list T) (l : Z) (n : nat) :
  1 <= l -> pages rows l n = take (n * Z.to_nat l) rows.
Proof.
  intros Hl. unfold pages. induction n as [|n IH]; [done|].
  rewrite seq_S, fmap_app, join_app, IH. cbn [fmap list_fmap mjoin list_join].
  unfold findAllPaginated. cbn [page limit default from_option id plus].
  rewrite page_data by lia. cbn [mbind option_bind]. rewrite app_nil_r.
  replace (Z.to_nat ((Z.of_nat (S n) - 1) * l)) with (n * Z.to_nat l)%nat by nia.
  rewrite take_take_drop. f_equal. lia.
Qed.

(** X27. The pages partition the rows: for a page size of at least 1, the
    pages 1 to [totalPages], one after the other, are the rows, each once
    and in order. *)
Theorem pages_partition_rows {T} (rows : list T) (l : Z) (n : Z) :
  1 <= l -> ceil_div (Model_count rows) l = Int n ->
  pages rows l (Z.to_nat n) = rows.
Proof.
  intros Hl En. destruct (ceil_div_bounds (Model_count rows) l Hl) as (n' & En' & Hn).
  rewrite En in En'. injection En' as <-. unfold Model_count in Hn.
  rewrite pages_take by done. apply take_ge. nia.
Qed.

Lemma pages_partition_rows_witness :
  pages ["a"; "b"; "c"; "d"; "e"] 2 (Z.to_nat 3) = ["a"; "b"; "c"; "d"; "e"].
Proof. apply (pages_partition_rows ["a"; "b"; "c"; "d"; "e"] 2 3); [lia|reflexivity]. Defined.

End Pagination.
